(** * 2-opt local search for the Euclidean TSP: tours, k-d tree, optimizers

    Shallow embedding of [point.h], [tour_utils.h], [kd_tree.h] and
    [two_opt.h].

    Conventions of the embedding.
    - [double] is read as an exact real number ([R]); comparisons on doubles
      become the boolean tests [Rltb] and [Rleb]. The theorems are stated
      on the values the code computes and on the comparisons it makes (a
      gain against [min_improvement], a squared distance against a squared
      radius), not on what these values would be equal to in exact
      arithmetic.
    - [size_t] is an integer in [0, 2^64); every arithmetic operation on it
      is followed by [wrap].
    - [std::vector<Point>] is a [list Point]; an access [v[i]] outside the
      vector, as well as a modulo by zero, is undefined behaviour in C++ and
      is the error [None] here.
    - Loops carry an explicit iteration budget. *)

From Stdlib Require Import Reals Lra ZArith Lia List Bool Permutation Sorted.
Import ListNotations.

Local Open Scope Z_scope.

(** ** Scalars *)

Definition Rltb (a b : R) : bool := if Rlt_dec a b then true else false.
Definition Rleb (a b : R) : bool := if Rle_dec a b then true else false.

(** [std::max(a, b)] is [(a < b) ? b : a]. *)
Definition fmax (a b : R) : R := if Rltb a b then b else a.

Definition wrap (z : Z) : Z := z mod 2 ^ 64.

(** [x++] on a [size_t] counter. *)
Definition incr (z : Z) : Z := wrap (z + 1).

(** ** Errors *)

Notation "x <- e ;; k" :=
  (match e with Some x => k | None => None end)
  (at level 61, e at next level, right associativity).

Notation "' pat <- e ;; k" :=
  (match e with Some pat => k | None => None end)
  (at level 61, pat pattern, e at next level, right associativity).

(** [a % n] on [size_t]; undefined when [n] is zero. *)
Definition umod (a n : Z) : option Z :=
  if n =? 0 then None else Some (a mod n).

(** ** Vectors *)

Definition size {A} (v : list A) : Z := Z.of_nat (length v).

(** [v[i]]. *)
Definition at_ {A} (v : list A) (i : Z) : option A :=
  if i <? 0 then None else nth_error v (Z.to_nat i).

Fixpoint set_nth {A} (v : list A) (i : nat) (a : A) : list A :=
  match v, i with
  | [], _ => []
  | _ :: v', O => a :: v'
  | b :: v', S i' => b :: set_nth v' i' a
  end.

(** [v[i] = a]. *)
Definition assign {A} (v : list A) (i : Z) (a : A) : option (list A) :=
  if (0 <=? i) && (i <? size v) then Some (set_nth v (Z.to_nat i) a) else None.

(** [std::swap(v[i], v[j])]. *)
Definition swap_at {A} (v : list A) (i j : Z) : option (list A) :=
  a <- at_ v i ;;
  b <- at_ v j ;;
  v1 <- assign v i b ;;
  assign v1 j a.

(** [for (size_t i = lo; i < hi; i += step) body], the body being unable to
    change [i] or [hi]; [k] is the number of turns. *)
Fixpoint for_iter {S} (step : Z) (k : nat) (i : Z)
  (body : Z -> S -> option S) (s : S) : option S :=
  match k with
  | O => Some s
  | S k' => s' <- body i s ;; for_iter step k' (wrap (i + step)) body s'
  end.

Definition for_range {S} (lo hi : Z) (body : Z -> S -> option S) (s : S)
  : option S :=
  for_iter 1 (Z.to_nat (hi - lo)) lo body s.

(** [for (const auto& a : l) body]. *)
Fixpoint for_each {A S} (l : list A) (body : A -> S -> option S) (s : S)
  : option S :=
  match l with
  | [] => Some s
  | a :: l' => s' <- body a s ;; for_each l' body s'
  end.

(** ** point.h *)

Record Point := mkPoint { x : R; y : R; active : bool; id : Z }.

(** [Point()] *)
Definition default_point : Point := mkPoint 0 0 true 0.

Definition set_active (b : bool) (p : Point) : Point :=
  mkPoint (x p) (y p) b (id p).

Definition distance_squared (a b : Point) : R :=
  ((x a - x b) * (x a - x b) + (y a - y b) * (y a - y b))%R.

Definition distance (a b : Point) : R :=
  sqrt ((x a - x b) * (x a - x b) + (y a - y b) * (y a - y b)).

(** The indices [i] and [(i + 1) % n] of the loop are below [n]: every
    access is inside the vector. *)
Definition tour_length (tour : list Point) : R :=
  let n := length tour in
  if (n <? 2)%nat then 0%R
  else
    fold_left
      (fun length_ i =>
         (length_ + distance (nth i tour default_point)
                             (nth ((i + 1) mod n) tour default_point))%R)
      (seq 0 n) 0%R.

(** ** tour_utils.h *)

(** The loop of [reverse_segment]; [end_ - start] shrinks by two per turn,
    so a budget of [end_ - start] is never used up. *)
Fixpoint reverse_segment_loop (fuel : nat) (tour : list Point)
  (start end_ : Z) : option (list Point) :=
  if start <? end_ then
    match fuel with
    | O => None
    | S fuel' =>
        tour' <- swap_at tour start end_ ;;
        reverse_segment_loop fuel' tour' (wrap (start + 1)) (wrap (end_ - 1))
    end
  else Some tour.

Definition reverse_segment (tour : list Point) (start end_ : Z)
  : option (list Point) :=
  reverse_segment_loop (Z.to_nat (end_ - start)) tour start end_.

(** [std::reverse(tour.begin() + first, tour.begin() + last)]: both iterators
    must lie inside the vector, in this order. *)
Definition std_reverse (tour : list Point) (first last : Z)
  : option (list Point) :=
  if (0 <=? first) && (first <=? last) && (last <=? size tour) then
    let a := Z.to_nat first in
    let b := Z.to_nat last in
    Some (firstn a tour ++ rev (skipn a (firstn b tour)) ++ skipn b tour)
  else None.

Definition smart_reverse_segment (tour : list Point) (i j : Z)
  : option (list Point) :=
  let n := size tour in
  let '(i, j) := if j <? i then (j, i) else (i, j) in
  let direct_length := wrap (wrap (j - i) + 1) in
  let wrap_length := wrap (n - direct_length) in
  if direct_length <=? wrap_length then reverse_segment tour i j
  else
    t1 <- std_reverse tour 0 i ;;
    t2 <- std_reverse t1 (j + 1) (size t1) ;;
    std_reverse t2 0 (size t2).

Definition perform_2opt_swap (tour : list Point) (i j : Z)
  : option (list Point) :=
  let '(i, j) := if j <? i then (j, i) else (i, j) in
  smart_reverse_segment tour (wrap (i + 1)) j.

Definition calculate_2opt_gain (tour : list Point) (i j : Z) : option R :=
  let n := size tour in
  let '(i, j) := if j <? i then (j, i) else (i, j) in
  if (j <=? wrap (i + 1)) || ((i =? 0) && (j =? wrap (n - 1))) then Some 0%R
  else
    i_next <- umod (wrap (i + 1)) n ;;
    j_next <- umod (wrap (j + 1)) n ;;
    ti <- at_ tour i ;;
    ti_next <- at_ tour i_next ;;
    tj <- at_ tour j ;;
    tj_next <- at_ tour j_next ;;
    let old_dist := (distance ti ti_next + distance tj tj_next)%R in
    let new_dist := (distance ti tj + distance ti_next tj_next)%R in
    Some (old_dist - new_dist)%R.

Definition calculate_2opt_gain_fast (tour : list Point) (i j : Z)
  : option R :=
  let n := size tour in
  let '(i, j) := if j <? i then (j, i) else (i, j) in
  if (j <=? wrap (i + 1)) || ((i =? 0) && (j =? wrap (n - 1))) then Some 0%R
  else
    i_next <- umod (wrap (i + 1)) n ;;
    j_next <- umod (wrap (j + 1)) n ;;
    ti <- at_ tour i ;;
    ti_next <- at_ tour i_next ;;
    tj <- at_ tour j ;;
    tj_next <- at_ tour j_next ;;
    let old_dist_sq :=
      (distance_squared ti ti_next + distance_squared tj tj_next)%R in
    let new_dist_sq :=
      (distance_squared ti tj + distance_squared ti_next tj_next)%R in
    Some (old_dist_sq - new_dist_sq)%R.

(** [seen[point.id]] of [is_valid_tour]: the map is the list of the ids
    stored with [true]. *)
Fixpoint all_distinct (ids : list Z) (seen : list Z) : option (list Z) :=
  match ids with
  | [] => Some seen
  | i :: ids' =>
      if existsb (Z.eqb i) seen then None else all_distinct ids' (i :: seen)
  end.

Definition is_valid_tour (tour original_points : list Point) : bool :=
  if negb (size tour =? size original_points) then false
  else
    match all_distinct (map id tour) [] with
    | None => false
    | Some seen =>
        forallb (fun point => existsb (Z.eqb (id point)) seen) original_points
    end.

(** ** kd_tree.h *)

(** A [std::unique_ptr<KDNode>]: [null], or a node owning its two
    children. [depth] is an [int] that starts at zero and grows by one per
    level. *)
Inductive KDNode :=
| null : KDNode
| node (point : Point) (left right : KDNode) (depth : Z) : KDNode.

Record KDTree := mkKDTree {
  root : KDNode;
  size_ : Z;
  nodes_visited : Z
}.

(** [KDTree()] *)
Definition empty_tree : KDTree := mkKDTree null 0 0.

(** The comparator [[axis](a, b) { return axis ? a.x < b.x : a.y < b.y; }]. *)
Definition less (axis : bool) (a b : Point) : bool :=
  if axis then Rltb (x a) (x b) else Rltb (y a) (y b).

(** What [std::nth_element] asks of its comparator. *)
Definition strict_weak (comp : Point -> Point -> bool) : Prop :=
  (forall a b, comp a b = true -> comp b a = false) /\
  (forall a b c, comp a c = true -> comp a b = true \/ comp b c = true).

(** [std::nth_element(v.begin() + first, v.begin() + nth, v.begin() + last,
    comp)] is library code. The standard fixes its result only up to the
    order inside the two parts: the range is permuted, nothing outside the
    range moves, no element before [nth] is above the element at [nth], and
    no element after it is below. *)
Class StdNthElement := {
  nth_element :
    (Point -> Point -> bool) -> list Point -> Z -> Z -> Z -> list Point;
  nth_element_spec :
    forall comp pre seg post (nth : nat),
      strict_weak comp ->
      (nth < length seg)%nat ->
      exists lo p hi,
        nth_element comp (pre ++ seg ++ post)
          (size pre) (size pre + Z.of_nat nth) (size pre + size seg)
        = pre ++ (lo ++ p :: hi) ++ post /\
        length lo = nth /\
        Permutation seg (lo ++ p :: hi) /\
        Forall (fun a => comp p a = false) lo /\
        Forall (fun b => comp b p = false) hi
}.

(** The private, recursive [build]. Each call works on a range less than
    half as long, so a budget of [end_ - start] is never used up. The vector
    is handed on from call to call. *)
Fixpoint build_range `{StdNthElement} (fuel : nat) (points : list Point)
  (depth : Z) (start end_ : Z) : option (KDNode * list Point) :=
  if end_ <=? start then Some (null, points)
  else
    match fuel with
    | O => None
    | S fuel' =>
        let mid := wrap (start + end_) / 2 in
        let axis := Z.rem depth 2 =? 0 in
        let points := nth_element (less axis) points start mid end_ in
        p <- at_ points mid ;;
        '(l, points) <- build_range fuel' points (depth + 1) start mid ;;
        '(r, points) <-
          build_range fuel' points (depth + 1) (wrap (mid + 1)) end_ ;;
        Some (node p l r depth, points)
    end.

(** The public [build]. *)
Definition build `{StdNthElement} (t : KDTree) (points : list Point)
  : option KDTree :=
  match points with
  | [] => Some t
  | _ =>
      let points_copy := points in
      '(rt, _) <-
        build_range (length points) points_copy 0 0 (size points) ;;
      Some (mkKDTree rt (size points) 0)
  end.

(** [find_neighbors_frnn], on the pair of the vector [neighbors] and the
    counter [nodes_visited]. *)
Fixpoint find_neighbors_frnn (nd : KDNode) (query : Point) (radius : R)
  (st : list Point * Z) : list Point * Z :=
  match nd with
  | null => st
  | node p l r depth =>
      let '(neighbors, visited) := st in
      let visited := incr visited in
      let dist_sq := distance_squared p query in
      let neighbors :=
        if Rleb dist_sq (radius * radius) then neighbors ++ [p]
        else neighbors in
      let axis := Z.rem depth 2 =? 0 in
      let diff := if axis then (x query - x p)%R else (y query - y p)%R in
      if Rleb diff 0 then
        let st := find_neighbors_frnn l query radius (neighbors, visited) in
        if Rleb (diff * diff) (radius * radius)
        then find_neighbors_frnn r query radius st
        else st
      else
        let st := find_neighbors_frnn r query radius (neighbors, visited) in
        if Rleb (diff * diff) (radius * radius)
        then find_neighbors_frnn l query radius st
        else st
  end.

Definition set_nodes_visited (v : Z) (t : KDTree) : KDTree :=
  mkKDTree (root t) (size_ t) v.

Definition find_neighbors (t : KDTree) (query : Point) (radius : R)
  : list Point * KDTree :=
  let '(neighbors, visited) :=
    find_neighbors_frnn (root t) query radius ([], 0) in
  (neighbors, set_nodes_visited visited t).

(** The loop of [find_neighbors_adaptive]. Nothing bounds the number of its
    turns (a radius that is not positive never grows); [None] says that the
    budget was used up. *)
Fixpoint adaptive_loop (fuel : nat) (t : KDTree) (query : Point)
  (min_neighbors : Z) (radius : R) (neighbors : list Point)
  : option (list Point * KDTree) :=
  if (size neighbors <? min_neighbors) && Rltb radius 2 then
    match fuel with
    | O => None
    | S fuel' =>
        let '(neighbors, visited) :=
          find_neighbors_frnn (root t) query radius ([], 0) in
        let t := set_nodes_visited visited t in
        let radius :=
          if size neighbors <? min_neighbors then (radius * 1.5)%R
          else radius in
        adaptive_loop fuel' t query min_neighbors radius neighbors
    end
  else Some (neighbors, t).

Definition find_neighbors_adaptive (fuel : nat) (t : KDTree) (query : Point)
  (base_radius : R) (min_neighbors : Z) : option (list Point * KDTree) :=
  adaptive_loop fuel t query min_neighbors base_radius [].

Definition get_nodes_visited (t : KDTree) : Z := nodes_visited t.
Definition reset_nodes_visited (t : KDTree) : KDTree := set_nodes_visited 0 t.

(** ** two_opt.h *)

(** [cpu_time] is wall-clock time and the progress prints are output: both
    are left out. *)
Record OptimizationStats := mkStats {
  initial_length : R;
  final_length : R;
  num_swaps : Z;
  num_visited : Z;
  total_comparisons : Z;
  iterations : Z;
  active_nodes : Z
}.

(** [OptimizationStats()] *)
Definition zero_stats : OptimizationStats := mkStats 0 0 0 0 0 0 0.

Definition set_initial_length (v : R) (s : OptimizationStats) :=
  mkStats v (final_length s) (num_swaps s) (num_visited s)
          (total_comparisons s) (iterations s) (active_nodes s).
Definition set_final_length (v : R) (s : OptimizationStats) :=
  mkStats (initial_length s) v (num_swaps s) (num_visited s)
          (total_comparisons s) (iterations s) (active_nodes s).
Definition set_num_swaps (v : Z) (s : OptimizationStats) :=
  mkStats (initial_length s) (final_length s) v (num_visited s)
          (total_comparisons s) (iterations s) (active_nodes s).
Definition set_num_visited (v : Z) (s : OptimizationStats) :=
  mkStats (initial_length s) (final_length s) (num_swaps s) v
          (total_comparisons s) (iterations s) (active_nodes s).
Definition set_total_comparisons (v : Z) (s : OptimizationStats) :=
  mkStats (initial_length s) (final_length s) (num_swaps s) (num_visited s)
          v (iterations s) (active_nodes s).
Definition set_iterations (v : Z) (s : OptimizationStats) :=
  mkStats (initial_length s) (final_length s) (num_swaps s) (num_visited s)
          (total_comparisons s) v (active_nodes s).
Definition set_active_nodes (v : Z) (s : OptimizationStats) :=
  mkStats (initial_length s) (final_length s) (num_swaps s) (num_visited s)
          (total_comparisons s) (iterations s) v.

Definition max_iterations : Z := 1000.
Definition min_improvement : R := 1e-9.

(** The locals [best_gain], [best_i], [best_j] of a pass, together with the
    counter [stats.total_comparisons] that the search updates. *)
Record Best := mkBest {
  best_gain : R;
  best_i : Z;
  best_j : Z;
  comparisons : Z
}.

(** The lines
    [double gain = ...; stats.total_comparisons++;
     if (gain > best_gain) { best_gain = gain; best_i = i; best_j = j; }]
    shared by the four optimizers. *)
Definition consider (gain : R) (i j : Z) (b : Best) : Best :=
  let c := incr (comparisons b) in
  if Rltb (best_gain b) gain then mkBest gain i j c
  else mkBest (best_gain b) (best_i b) (best_j b) c.

(** The state of an optimizer between two passes: the tour, [stats],
    [improved] and, for the geometric and the hybrid optimizer, [kdtree].
    [swaps] is a ghost history, newest first, of the pairs given to
    [perform_2opt_swap]; the C++ code keeps only their number, in
    [stats.num_swaps]. *)
Record Run := mkRun {
  run_tour : list Point;
  run_stats : OptimizationStats;
  run_improved : bool;
  run_kdtree : KDTree;
  swaps : list (Z * Z)
}.

(** [while (improved && stats.iterations < max_iterations) pass], cut after
    [passes] passes. *)
Fixpoint while_improving (pass : Run -> option Run) (passes : nat) (r : Run)
  : option Run :=
  if run_improved r && (iterations (run_stats r) <? max_iterations) then
    match passes with
    | O => Some r
    | S passes' => r' <- pass r ;; while_improving pass passes' r'
    end
  else Some r.

Definition start_run (tour : list Point) (t : KDTree) : Run :=
  mkRun tour (set_initial_length (tour_length tour) zero_stats) true t [].

(** [stats.final_length = tour_length(tour); return stats;] *)
Definition finish_run (r : Run) : Run :=
  mkRun (run_tour r)
        (set_final_length (tour_length (run_tour r)) (run_stats r))
        (run_improved r) (run_kdtree r) (swaps r).

(** The test [j > i + 1 && !(j == tour.size() - 1 && i == 0)]. *)
Definition eligible (n i j : Z) : bool :=
  (wrap (i + 1) <? j) && negb ((j =? wrap (n - 1)) && (i =? 0)).

(** *** basic_2opt *)

(** Exhaustive search of one pass. *)
Definition basic_search (tour : list Point) (b : Best) : option Best :=
  let n := size tour in
  for_range 0 (wrap (n - 2)) (fun i b =>
    for_range (wrap (i + 2)) n (fun j b =>
      if (j =? wrap (n - 1)) && (i =? 0) then Some b
      else
        gain <- calculate_2opt_gain tour i j ;;
        Some (consider gain i j b)) b) b.

(** The body of the [while] loop. *)
Definition basic_pass (r : Run) : option Run :=
  let tour := run_tour r in
  let stats := set_iterations (incr (iterations (run_stats r))) (run_stats r) in
  b <- basic_search tour
         (mkBest min_improvement 0 0 (total_comparisons stats)) ;;
  let stats := set_total_comparisons (comparisons b) stats in
  if Rltb min_improvement (best_gain b) then
    tour <- perform_2opt_swap tour (best_i b) (best_j b) ;;
    let stats := set_num_swaps (incr (num_swaps stats)) stats in
    Some (mkRun tour stats true (run_kdtree r)
                ((best_i b, best_j b) :: swaps r))
  else Some (mkRun tour stats false (run_kdtree r) (swaps r)).

(** The state of [basic_2opt] after at most [passes] passes. *)
Definition basic_2opt_passes (passes : nat) (tour : list Point) : option Run :=
  while_improving basic_pass passes (start_run tour empty_tree).

(** [stats.iterations] starts at zero and grows by one per pass, so the loop
    ends within [max_iterations] passes. *)
Definition basic_2opt (tour : list Point) : option Run :=
  r <- basic_2opt_passes (Z.to_nat max_iterations) tour ;;
  Some (finish_run r).

(** *** geometric_2opt *)

(** [std::find_if(tour.begin(), tour.end(), id == k) - tour.begin()];
    [None] stands for [tour.end()]. *)
Fixpoint find_if_id (tour : list Point) (k : Z) : option Z :=
  match tour with
  | [] => None
  | p :: tour' =>
      if id p =? k then Some 0
      else match find_if_id tour' k with
           | Some j => Some (j + 1)
           | None => None
           end
  end.

(** The loop over the neighbours of [tour[i]]. *)
Definition geometric_candidates (tour : list Point) (i : Z)
  (neighbors : list Point) (b : Best) : option Best :=
  for_each neighbors (fun neighbor b =>
    match find_if_id tour (id neighbor) with
    | None => Some b
    | Some j =>
        if eligible (size tour) i j then
          gain <- calculate_2opt_gain tour i j ;;
          Some (consider gain i j b)
        else Some b
    end) b.

Definition geometric_search (tour : list Point) (kdtree : KDTree) (b : Best)
  : option (Best * KDTree) :=
  let n := size tour in
  for_range 0 (wrap (n - 2)) (fun i '(b, kdtree) =>
    ti <- at_ tour i ;;
    i_next <- umod (wrap (i + 1)) n ;;
    ti_next <- at_ tour i_next ;;
    let edge_dist := distance ti ti_next in
    i_prev <- umod (wrap (wrap (i + n) - 1)) n ;;
    ti_prev <- at_ tour i_prev ;;
    let prev_edge_dist := distance ti_prev ti in
    let avg_edge_dist := ((edge_dist + prev_edge_dist) / 2)%R in
    let radius := fmax (avg_edge_dist * 3) 0.1 in
    let '(neighbors, kdtree) := find_neighbors kdtree ti radius in
    let '(neighbors, kdtree) :=
      if size neighbors <? 5 then find_neighbors kdtree ti (radius * 2)
      else (neighbors, kdtree) in
    b <- geometric_candidates tour i neighbors b ;;
    Some (b, kdtree)) (b, kdtree).

Definition geometric_pass `{StdNthElement} (r : Run) : option Run :=
  let tour := run_tour r in
  let stats := set_iterations (incr (iterations (run_stats r))) (run_stats r) in
  let kdtree := reset_nodes_visited (run_kdtree r) in
  '(b, kdtree) <- geometric_search tour kdtree
         (mkBest min_improvement 0 0 (total_comparisons stats)) ;;
  let stats := set_total_comparisons (comparisons b) stats in
  let stats :=
    set_num_visited (wrap (num_visited stats + get_nodes_visited kdtree))
                    stats in
  if Rltb min_improvement (best_gain b) then
    tour <- perform_2opt_swap tour (best_i b) (best_j b) ;;
    let stats := set_num_swaps (incr (num_swaps stats)) stats in
    kdtree <- (if Z.rem (num_swaps stats) 25 =? 0 then build kdtree tour
               else Some kdtree) ;;
    Some (mkRun tour stats true kdtree ((best_i b, best_j b) :: swaps r))
  else Some (mkRun tour stats false kdtree (swaps r)).

Definition geometric_2opt_passes `{StdNthElement} (passes : nat)
  (tour : list Point) : option Run :=
  kdtree <- build empty_tree tour ;;
  while_improving geometric_pass passes (start_run tour kdtree).

Definition geometric_2opt `{StdNthElement} (tour : list Point) : option Run :=
  r <- geometric_2opt_passes (Z.to_nat max_iterations) tour ;;
  Some (finish_run r).

(** *** approximate_2opt *)

(** The vector [active_indices]: the positions [i], from [pos] on, with
    [tour[i].active]. *)
Fixpoint collect_active (tour : list Point) (pos : Z) : list Z :=
  match tour with
  | [] => []
  | p :: tour' =>
      if active p then pos :: collect_active tour' (pos + 1)
      else collect_active tour' (pos + 1)
  end.

(** [tour[idx].active = true]. *)
Definition activate (tour : list Point) (idx : Z) : option (list Point) :=
  p <- at_ tour idx ;;
  assign tour idx (set_active true p).

(** [tour[(best + n + offset) % n].active = true], [offset] being an
    [int] converted to [size_t]. *)
Definition activate_around (n best offset : Z) (tour : list Point)
  : option (list Point) :=
  idx <- umod (wrap (wrap (best + n) + wrap offset)) n ;;
  activate tour idx.

(** [for (int offset = -k; offset <= k; ++offset)] with both activations in
    its body. *)
Definition activate_neighborhood (offsets : list Z) (i j : Z)
  (tour : list Point) : option (list Point) :=
  let n := size tour in
  for_each offsets (fun offset tour =>
    tour <- activate_around n i offset tour ;;
    activate_around n j offset tour) tour.

Definition approximate_search (tour : list Point) (active_indices : list Z)
  (b : Best) : option Best :=
  let n := size tour in
  let m := size active_indices in
  for_range 0 m (fun idx_i b =>
    i <- at_ active_indices idx_i ;;
    for_range (wrap (idx_i + 1)) m (fun idx_j b =>
      j <- at_ active_indices idx_j ;;
      if eligible n i j then
        gain <- calculate_2opt_gain tour i j ;;
        Some (consider gain i j b)
      else Some b) b) b.

(** [rand it k] is what the generator, freshly seeded from
    [std::random_device] in pass [it], yields for the draw of loop index [k];
    [dist(gen)] of a [std::uniform_int_distribution<size_t>(0, hi)] lies in
    [0, hi]. *)
Definition random_top_up (rand : Z -> Z -> Z) (it : Z) (from upto : Z)
  (tour : list Point) : option (list Point) :=
  let hi := wrap (size tour - 1) in
  for_range from upto (fun k tour =>
    activate tour (rand it k mod (hi + 1))) tour.

Definition approximate_pass (rand : Z -> Z -> Z) (r : Run) : option Run :=
  let tour := run_tour r in
  let stats := set_iterations (incr (iterations (run_stats r))) (run_stats r) in
  let active_indices := collect_active tour 0 in
  let stats := set_active_nodes (size active_indices) stats in
  b <- approximate_search tour active_indices
         (mkBest min_improvement 0 0 (total_comparisons stats)) ;;
  let stats := set_total_comparisons (comparisons b) stats in
  if Rltb min_improvement (best_gain b) then
    tour <- perform_2opt_swap tour (best_i b) (best_j b) ;;
    let stats := set_num_swaps (incr (num_swaps stats)) stats in
    let tour := map (set_active false) tour in
    tour <- activate_neighborhood [-2; -1; 0; 1; 2] (best_i b) (best_j b)
              tour ;;
    Some (mkRun tour stats true (run_kdtree r)
                ((best_i b, best_j b) :: swaps r))
  else
    let to_activate_count :=
      Z.min (size tour) (wrap (size active_indices + 10)) in
    tour <- random_top_up rand (iterations stats) (size active_indices)
              to_activate_count tour ;;
    Some (mkRun tour stats false (run_kdtree r) (swaps r)).

(** The run starts from the tour given for [initial_length], with every
    point made active. *)
Definition approximate_2opt_passes (rand : Z -> Z -> Z) (passes : nat)
  (tour : list Point) : option Run :=
  let r := start_run tour empty_tree in
  let r := mkRun (map (set_active true) tour) (run_stats r) true
                 (run_kdtree r) (swaps r) in
  while_improving (approximate_pass rand) passes r.

Definition approximate_2opt (rand : Z -> Z -> Z) (tour : list Point)
  : option Run :=
  r <- approximate_2opt_passes rand (Z.to_nat max_iterations) tour ;;
  Some (finish_run r).

(** *** hybrid_2opt *)

(** In [hybrid_2opt] the radius given to [find_neighbors_adaptive] is at
    least 0.15, and 0.15 * 1.5^7 exceeds 2: the loop makes at most seven
    turns. *)
Definition adaptive_budget : nat := 8.

Definition hybrid_candidates (tour : list Point) (i : Z)
  (neighbors : list Point) (b : Best) : option Best :=
  for_each neighbors (fun neighbor b =>
    match find_if_id tour (id neighbor) with
    | None => Some b
    | Some j =>
        if eligible (size tour) i j then
          tj <- at_ tour j ;;
          if active tj then
            gain <- calculate_2opt_gain_fast tour i j ;;
            Some (consider gain i j b)
          else Some b
        else Some b
    end) b.

Definition hybrid_search (tour : list Point) (active_indices : list Z)
  (kdtree : KDTree) (b : Best) : option (Best * KDTree) :=
  let n := size tour in
  for_each active_indices (fun i '(b, kdtree) =>
    if wrap (n - 2) <=? i then Some (b, kdtree)
    else
      ti <- at_ tour i ;;
      i_next <- umod (wrap (i + 1)) n ;;
      ti_next <- at_ tour i_next ;;
      let edge_dist := distance ti ti_next in
      let radius := fmax (edge_dist * 4) 0.15 in
      '(neighbors, kdtree) <-
        find_neighbors_adaptive adaptive_budget kdtree ti radius 8 ;;
      b <- hybrid_candidates tour i neighbors b ;;
      Some (b, kdtree)) (b, kdtree).

(** [for (size_t i = 0; i < nodes_to_activate; i += 2)
      if (i < tour.size()) tour[i].active = true;] *)
Definition reactivate_even (nodes_to_activate : Z) (tour : list Point)
  : option (list Point) :=
  for_iter 2 (Z.to_nat ((nodes_to_activate + 1) / 2)) 0 (fun i tour =>
    if i <? size tour then activate tour i else Some tour) tour.

Definition hybrid_pass `{StdNthElement} (r : Run) : option Run :=
  let tour := run_tour r in
  let stats := set_iterations (incr (iterations (run_stats r))) (run_stats r) in
  let kdtree := reset_nodes_visited (run_kdtree r) in
  let active_indices := collect_active tour 0 in
  let stats := set_active_nodes (size active_indices) stats in
  '(b, kdtree) <- hybrid_search tour active_indices kdtree
         (mkBest min_improvement 0 0 (total_comparisons stats)) ;;
  let stats := set_total_comparisons (comparisons b) stats in
  let stats :=
    set_num_visited (wrap (num_visited stats + get_nodes_visited kdtree))
                    stats in
  if Rltb min_improvement (best_gain b) then
    tour <- perform_2opt_swap tour (best_i b) (best_j b) ;;
    let stats := set_num_swaps (incr (num_swaps stats)) stats in
    let tour := map (set_active false) tour in
    tour <- activate_neighborhood [-4; -3; -2; -1; 0; 1; 2; 3; 4]
              (best_i b) (best_j b) tour ;;
    kdtree <- (if Z.rem (num_swaps stats) 30 =? 0 then build kdtree tour
               else Some kdtree) ;;
    Some (mkRun tour stats true kdtree ((best_i b, best_j b) :: swaps r))
  else
    let nodes_to_activate :=
      Z.min (size tour)
            (Z.max (wrap (size active_indices + 15)) (size tour / 4)) in
    let tour := map (set_active false) tour in
    tour <- reactivate_even nodes_to_activate tour ;;
    Some (mkRun tour stats false kdtree (swaps r)).

(** The tree is built from the tour as given; the activation bits are set
    afterwards. *)
Definition hybrid_2opt_passes `{StdNthElement} (passes : nat)
  (tour : list Point) : option Run :=
  kdtree <- build empty_tree tour ;;
  let r := start_run tour kdtree in
  let r := mkRun (map (set_active true) tour) (run_stats r) true
                 (run_kdtree r) (swaps r) in
  while_improving hybrid_pass passes r.

Definition hybrid_2opt `{StdNthElement} (tour : list Point) : option Run :=
  r <- hybrid_2opt_passes (Z.to_nat max_iterations) tour ;;
  Some (finish_run r).

(** ** point.h: the initial tours *)

(** [std::numeric_limits<double>::max()] *)
Definition double_max : R := IZR (2 ^ 1024 - 2 ^ 971).

(** The inner loop of [nearest_neighbor_tour], on the pair of [min_dist]
    and [next]. *)
Definition nearest_scan (points : list Point) (visited : list bool)
  (current : Z) : option (R * Z) :=
  for_range 0 (size points) (fun i '(min_dist, next) =>
    vi <- at_ visited i ;;
    if vi then Some (min_dist, next)
    else
      pc <- at_ points current ;;
      pi <- at_ points i ;;
      let dist := distance pc pi in
      if Rltb dist min_dist then Some (dist, i) else Some (min_dist, next))
    (double_max, current).

Definition nearest_neighbor_tour (points : list Point) (start_idx : Z)
  : option (list Point) :=
  match points with
  | [] => Some []
  | _ =>
      let visited := repeat false (length points) in
      let current := start_idx in
      p <- at_ points current ;;
      visited <- assign visited current true ;;
      '(tour, _, _) <-
        for_range 1 (size points) (fun step '(tour, visited, current) =>
          '(_, next) <- nearest_scan points visited current ;;
          pn <- at_ points next ;;
          visited <- assign visited next true ;;
          Some (tour ++ [pn], visited, next))
          ([p], visited, current) ;;
      Some tour
  end.

(** [std::min] on [size_t]. *)
Definition umin (a b : Z) : Z := if b <? a then b else a.

Definition best_nearest_neighbor_tour (points : list Point) (num_starts : Z)
  : option (list Point) :=
  match points with
  | [] => Some []
  | _ =>
      '(best_tour, _) <-
        for_range 0 (umin num_starts (size points))
          (fun start '(best_tour, best_length) =>
             tour <- nearest_neighbor_tour points start ;;
             let length_ := tour_length tour in
             if Rltb length_ best_length then Some (tour, length_)
             else Some (best_tour, best_length))
          ([], double_max) ;;
      Some best_tour
  end.


(** ** point.h: the generators *)

(** [generate_random_points]. [dist i] stands for the two numbers that
    [dist(gen)] yields for the point [i]; the seed fixes them. *)
Definition generate_random_points (dist : Z -> R * R) (n : Z)
  : option (list Point) :=
  for_range 0 n (fun i points =>
    Some (points ++ [mkPoint (fst (dist i)) (snd (dist i)) true i])) [].

(** [std::min(a, b)] is [(b < a) ? b : a]. *)
Definition fmin (a b : R) : R := if Rltb b a then b else a.

(** [generate_clustered_points]. [cluster_center i] stands for the two
    numbers drawn for the centre [i], [cluster_selector i] for the cluster
    drawn for the point [i] and [cluster_point i] for its two normal
    deviates. *)
Definition generate_clustered_points (cluster_center : Z -> R * R)
  (cluster_selector : Z -> Z) (cluster_point : Z -> R * R)
  (n num_clusters : Z) : option (list Point) :=
  cluster_centers <-
    for_range 0 num_clusters (fun i cluster_centers =>
      Some (cluster_centers ++ [cluster_center i])) [] ;;
  for_range 0 n (fun i points =>
    let selected_cluster := cluster_selector i in
    c <- at_ cluster_centers selected_cluster ;;
    let cx := fst c in
    let cy := snd c in
    let x := fmax 0 (fmin 1 (cx + fst (cluster_point i))) in
    let y := fmax 0 (fmin 1 (cy + snd (cluster_point i))) in
    Some (points ++ [mkPoint x y true i])) [].


(** ** tour_utils.h: the searches *)

(** [find_best_2opt_swap], on the pair of [best_gain] and [best_swap]. *)
Definition find_best_2opt_swap (tour : list Point) (start end_ : Z)
  (min_gain : R) : option (Z * Z) :=
  '(_, best_swap) <-
    for_range start end_ (fun i st =>
      for_range (wrap (i + 2)) end_ (fun j '(best_gain, best_swap) =>
        if (j =? wrap (size tour - 1)) && (i =? 0)
        then Some (best_gain, best_swap)
        else
          gain <- calculate_2opt_gain tour i j ;;
          if Rltb best_gain gain then Some (gain, (i, j))
          else Some (best_gain, best_swap)) st)
      (min_gain, (0, 0)) ;;
  Some best_swap.


(** What [std::sort] asks of its comparator. *)
Definition strict_weak_order {T} (comp : T -> T -> bool) : Prop :=
  (forall a b, comp a b = true -> comp b a = false) /\
  (forall a b c, comp a c = true -> comp a b = true \/ comp b c = true).

(** [std::sort(v.begin(), v.end(), comp)] is library code. The standard
    fixes its result up to the order of equivalent elements: the vector is
    permuted, and no element is below, under [comp], one that stands before
    it. *)
Class StdSort := {
  std_sort : forall {T}, (T -> T -> bool) -> list T -> list T;
  std_sort_spec :
    forall T (comp : T -> T -> bool) (l : list T),
      strict_weak_order comp ->
      Permutation l (std_sort comp l) /\
      forall a x b, std_sort comp l = a ++ x :: b ->
                    Forall (fun y => comp y x = false) b
}.

(** The comparator [[](a, b) { return std::get<2>(a) > std::get<2>(b); }]. *)
Definition by_gain (a b : Z * Z * R) : bool := Rltb (snd b) (snd a).

Definition find_all_improvements `{StdSort} (tour : list Point)
  : option (list (Z * Z * R)) :=
  let n := size tour in
  improvements <-
    for_range 0 (wrap (n - 2)) (fun i improvements =>
      for_range (wrap (i + 2)) n (fun j improvements =>
        if (j =? wrap (n - 1)) && (i =? 0) then Some improvements
        else
          gain <- calculate_2opt_gain tour i j ;;
          if Rltb 1e-9 gain then Some (improvements ++ [(i, j, gain)])
          else Some improvements) improvements) [] ;;
  Some (std_sort by_gain improvements).


(** ** kd_tree.h: the nearest neighbour *)

(** [find_nearest], on the triple of [best], [best_dist_sq] and the counter
    [nodes_visited]. *)
Fixpoint find_nearest (nd : KDNode) (query : Point) (st : Point * R * Z)
  : Point * R * Z :=
  match nd with
  | null => st
  | node p l r depth =>
      let '(best, best_dist_sq, visited) := st in
      let visited := incr visited in
      let dist_sq := distance_squared p query in
      let '(best, best_dist_sq) :=
        if Rltb dist_sq best_dist_sq then (p, dist_sq)
        else (best, best_dist_sq) in
      let axis := Z.rem depth 2 =? 0 in
      let diff := if axis then (x query - x p)%R else (y query - y p)%R in
      if Rleb diff 0 then
        let st := find_nearest l query (best, best_dist_sq, visited) in
        if Rltb (diff * diff) (snd (fst st))
        then find_nearest r query st
        else st
      else
        let st := find_nearest r query (best, best_dist_sq, visited) in
        if Rltb (diff * diff) (snd (fst st))
        then find_nearest l query st
        else st
  end.

Definition find_nearest_neighbor (t : KDTree) (query : Point)
  : Point * KDTree :=
  match root t with
  | null => (default_point, t)
  | node p _ _ _ =>
      let best := p in
      let best_dist_sq := distance_squared query best in
      let '(best, _, visited) :=
        find_nearest (root t) query (best, best_dist_sq, 0) in
      (best, set_nodes_visited visited t)
  end.



(** ** kd_tree.h: the [k] nearest neighbours *)

Definition Reqb (a b : R) : bool := if Req_dec_T a b then true else false.

(** [Point::operator<]. *)
Definition point_lt (a b : Point) : bool :=
  if negb (Reqb (x a) (x b)) then Rltb (x a) (x b) else Rltb (y a) (y b).

(** [operator<] of [std::pair<double, Point>]. *)
Definition pair_lt (a b : R * Point) : bool :=
  Rltb (fst a) (fst b)
  || (negb (Rltb (fst b) (fst a)) && point_lt (snd a) (snd b)).

(** [std::priority_queue<std::pair<double, Point>>] is library code. The
    standard fixes which elements it holds; [top()] is an element that none
    is above, [pop()] removes that element, and both are undefined on an
    empty queue. *)
Class StdPriorityQueue := {
  pq : Type;
  pq_items : pq -> list (R * Point);
  pq_new : pq;
  pq_push : R * Point -> pq -> pq;
  pq_top : pq -> option (R * Point);
  pq_pop : pq -> option pq;
  pq_new_spec : pq_items pq_new = [];
  pq_push_spec :
    forall e q, Permutation (pq_items (pq_push e q)) (e :: pq_items q);
  pq_top_spec :
    forall q,
      match pq_top q with
      | None => pq_items q = []
      | Some m =>
          In m (pq_items q) /\
          forall e, In e (pq_items q) -> pair_lt m e = false
      end;
  pq_pop_spec :
    forall q,
      match pq_pop q with
      | None => pq_items q = []
      | Some q' =>
          exists m, pq_top q = Some m /\
                    Permutation (pq_items q) (m :: pq_items q')
      end
}.

(** [best_k.size()] *)
Definition pq_size `{StdPriorityQueue} (q : pq) : Z := size (pq_items q).

(** [best_k.empty()] *)
Definition pq_is_empty `{StdPriorityQueue} (q : pq) : bool :=
  match pq_items q with [] => true | _ => false end.

(** [best_k.size() < k ? std::numeric_limits<double>::max()
                       : best_k.top().first] *)
Definition worst_dist `{StdPriorityQueue} (best_k : pq) (k : Z) : option R :=
  if pq_size best_k <? k then Some double_max
  else top <- pq_top best_k ;; Some (fst top).

(** [find_k_nearest], on the pair of the queue [best_k] and the counter
    [nodes_visited]. *)
Fixpoint find_k_nearest `{StdPriorityQueue} (nd : KDNode) (query : Point)
  (k : Z) (st : pq * Z) : option (pq * Z) :=
  match nd with
  | null => Some st
  | node p l r depth =>
      let '(best_k, visited) := st in
      let visited := incr visited in
      let dist_sq := distance_squared p query in
      best_k <-
        (if pq_size best_k <? k then Some (pq_push (dist_sq, p) best_k)
         else
           top <- pq_top best_k ;;
           if Rltb dist_sq (fst top) then
             best_k <- pq_pop best_k ;;
             Some (pq_push (dist_sq, p) best_k)
           else Some best_k) ;;
      let axis := Z.rem depth 2 =? 0 in
      let diff := if axis then (x query - x p)%R else (y query - y p)%R in
      _ <- worst_dist best_k k ;;
      if Rleb diff 0 then
        '(best_k, visited) <- find_k_nearest l query k (best_k, visited) ;;
        worst <- worst_dist best_k k ;;
        if Rltb (diff * diff) worst
        then find_k_nearest r query k (best_k, visited)
        else Some (best_k, visited)
      else
        '(best_k, visited) <- find_k_nearest r query k (best_k, visited) ;;
        worst <- worst_dist best_k k ;;
        if Rltb (diff * diff) worst
        then find_k_nearest l query k (best_k, visited)
        else Some (best_k, visited)
  end.

(** The loop [while (!best_k.empty())] that empties the queue into
    [result]; every turn removes one element. *)
Fixpoint drain `{StdPriorityQueue} (fuel : nat) (best_k : pq)
  (result : list Point) : option (list Point) :=
  if pq_is_empty best_k then Some result
  else
    match fuel with
    | O => None
    | S fuel' =>
        top <- pq_top best_k ;;
        best_k <- pq_pop best_k ;;
        drain fuel' best_k (result ++ [snd top])
    end.

Definition find_k_nearest_neighbors `{StdPriorityQueue} (t : KDTree)
  (query : Point) (k : Z) : option (list Point * KDTree) :=
  '(best_k, visited) <- find_k_nearest (root t) query k (pq_new, 0) ;;
  result <- drain (length (pq_items best_k)) best_k [] ;;
  Some (rev result, set_nodes_visited visited t).

(** * Facts on the conventions *)

Lemma Rltb_true a b : (a < b)%R -> Rltb a b = true.
Proof. intros; unfold Rltb; destruct (Rlt_dec a b); [reflexivity|contradiction]. Qed.

Lemma Rltb_false a b : (b <= a)%R -> Rltb a b = false.
Proof. intros; unfold Rltb; destruct (Rlt_dec a b); [lra|reflexivity]. Qed.

Lemma Rltb_spec a b : reflect (a < b)%R (Rltb a b).
Proof. unfold Rltb; destruct (Rlt_dec a b); constructor; assumption. Qed.



Lemma Rleb_spec a b : reflect (a <= b)%R (Rleb a b).
Proof. unfold Rleb; destruct (Rle_dec a b); constructor; assumption. Qed.

Lemma wrap_small z : 0 <= z < 2 ^ 64 -> wrap z = z.
Proof. intros; unfold wrap; apply Z.mod_small; assumption. Qed.

Lemma wrap_range z : 0 <= wrap z < 2 ^ 64.
Proof. unfold wrap; apply Z.mod_pos_bound; lia. Qed.

Lemma size_nonneg {A} (v : list A) : 0 <= size v.
Proof. unfold size; lia. Qed.

Lemma size_app {A} (u v : list A) : size (u ++ v) = size u + size v.
Proof. unfold size; rewrite length_app; lia. Qed.

Lemma size_cons {A} (a : A) (v : list A) : size (a :: v) = size v + 1.
Proof. unfold size; simpl length; lia. Qed.

Lemma at_app_r {A} (u v : list A) : at_ (u ++ v) (size u) = at_ v 0.
Proof.
  unfold at_, size.
  destruct (Z.ltb_spec (Z.of_nat (length u)) 0); [lia|].
  rewrite Nat2Z.id, nth_error_app2, Nat.sub_diag by lia. reflexivity.
Qed.

Lemma at_middle {A} (u v : list A) (a : A) : at_ (u ++ a :: v) (size u) = Some a.
Proof. rewrite at_app_r; reflexivity. Qed.

Lemma at_some {A} (v : list A) i a :
  at_ v i = Some a -> 0 <= i < size v.
Proof.
  unfold at_, size; destruct (Z.ltb_spec i 0); [discriminate|].
  intros E. assert (Z.to_nat i < length v)%nat by (apply nth_error_Some; congruence).
  lia.
Qed.

Lemma at_in_range {A} (v : list A) i :
  0 <= i < size v -> exists a, at_ v i = Some a.
Proof.
  unfold at_, size; intros. destruct (Z.ltb_spec i 0); [lia|].
  destruct (nth_error v (Z.to_nat i)) eqn:E; [eauto|].
  apply nth_error_None in E; lia.
Qed.

Lemma at_In {A} (v : list A) i a : at_ v i = Some a -> In a v.
Proof.
  unfold at_; destruct (i <? 0); [discriminate|]. apply nth_error_In.
Qed.

Lemma set_nth_length {A} (v : list A) i a : length (set_nth v i a) = length v.
Proof. revert i; induction v; destruct i; simpl; auto. Qed.

Lemma set_nth_middle {A} (u v : list A) (a b : A) :
  set_nth (u ++ a :: v) (length u) b = u ++ b :: v.
Proof. induction u; simpl; [reflexivity|]. rewrite IHu; reflexivity. Qed.

Lemma assign_middle {A} (u v : list A) (a b : A) :
  assign (u ++ a :: v) (size u) b = Some (u ++ b :: v).
Proof.
  unfold assign. rewrite size_app, size_cons.
  pose proof (size_nonneg u). pose proof (size_nonneg v).
  destruct (Z.leb_spec 0 (size u)); [|lia].
  destruct (Z.ltb_spec (size u) (size u + (size v + 1))); [|lia].
  simpl. unfold size. rewrite Nat2Z.id, set_nth_middle. reflexivity.
Qed.

Lemma assign_size {A} (v v' : list A) i a :
  assign v i a = Some v' -> size v' = size v.
Proof.
  unfold assign. destruct (_ && _); [|discriminate].
  intros E; injection E as <-. unfold size. rewrite set_nth_length. reflexivity.
Qed.

Lemma swap_at_middle {A} (u m v : list A) (a b : A) :
  swap_at (u ++ a :: m ++ b :: v) (size u) (size u + size m + 1)
  = Some (u ++ b :: m ++ a :: v).
Proof.
  unfold swap_at. rewrite at_middle.
  replace (u ++ a :: m ++ b :: v) with ((u ++ a :: m) ++ b :: v)
    by (rewrite <- app_assoc; reflexivity).
  replace (size u + size m + 1) with (size (u ++ a :: m))
    by (rewrite size_app, size_cons; lia).
  rewrite at_middle.
  rewrite <- app_assoc; simpl app. rewrite assign_middle.
  replace (u ++ b :: m ++ b :: v) with ((u ++ b :: m) ++ b :: v)
    by (rewrite <- app_assoc; reflexivity).
  replace (size (u ++ a :: m)) with (size (u ++ b :: m))
    by (rewrite !size_app, !size_cons; lia).
  rewrite assign_middle, <- app_assoc. reflexivity.
Qed.

(** * [reverse_segment] reverses the segment *)

Lemma two_ends {A} (l : list A) :
  (2 <= length l)%nat -> exists a m b, l = a :: m ++ [b].
Proof.
  destruct l as [|a l]; simpl; [lia|]. intros H.
  destruct (exists_last (l:=l)) as (m & b & ->).
  - destruct l; simpl in *; [lia|discriminate].
  - eauto.
Qed.

Lemma size_nil {A} : size (@nil A) = 0.
Proof. reflexivity. Qed.

Ltac sizes :=
  repeat match goal with
  | H : context [size (_ ++ _)] |- _ => rewrite size_app in H
  | H : context [size (_ :: _)] |- _ => rewrite size_cons in H
  | H : context [size []] |- _ => rewrite size_nil in H
  end;
  repeat first [rewrite size_app | rewrite size_cons | rewrite size_nil];
  repeat match goal with
  | |- context [size ?v] =>
      lazymatch goal with
      | _ : 0 <= size v |- _ => fail
      | _ => pose proof (size_nonneg v)
      end
  | _ : context [size ?v] |- _ =>
      lazymatch goal with
      | _ : 0 <= size v |- _ => fail
      | _ => pose proof (size_nonneg v)
      end
  end.

Lemma reverse_segment_loop_spec (k : nat) :
  forall seg pre post fuel,
    (length seg <= k)%nat ->
    (length seg <= S fuel)%nat ->
    size (pre ++ seg ++ post) < 2 ^ 64 ->
    (seg = [] -> pre <> []) ->
    reverse_segment_loop fuel (pre ++ seg ++ post)
      (size pre) (size pre + size seg - 1)
    = Some (pre ++ rev seg ++ post).
Proof.
  induction k as [|k IH]; intros seg pre post fuel Hk Hf Hn Hne.
  - destruct seg; [|simpl in Hk; lia]. simpl.
    destruct fuel; unfold reverse_segment_loop;
      (destruct (Z.ltb_spec (size pre) (size pre + size (@nil Point) - 1));
       [sizes; lia|reflexivity]).
  - destruct (le_lt_dec 2 (length seg)) as [H2|H2].
    + destruct (two_ends seg H2) as (a & m & b & ->).
      rewrite length_cons, length_app in Hf, Hk; simpl in Hf, Hk.
      destruct fuel as [|fuel]; [lia|].
      cbn [reverse_segment_loop].
      destruct (Z.ltb_spec (size pre) (size pre + size (a :: m ++ [b]) - 1));
        [|sizes; lia].
      replace (size pre + size (a :: m ++ [b]) - 1)
        with (size pre + size m + 1) by (sizes; lia).
      replace (pre ++ (a :: m ++ [b]) ++ post)
        with (pre ++ a :: m ++ b :: post)
        by (simpl; rewrite <- app_assoc; reflexivity).
      rewrite swap_at_middle.
      rewrite !wrap_small by (sizes; lia).
      replace (pre ++ b :: m ++ a :: post)
        with ((pre ++ [b]) ++ m ++ (a :: post))
        by (rewrite <- app_assoc; reflexivity).
      replace (size pre + 1) with (size (pre ++ [b])) by (sizes; lia).
      replace (size pre + size m + 1 - 1)
        with (size (pre ++ [b]) + size m - 1) by (sizes; lia).
      rewrite IH.
      * simpl. rewrite rev_app_distr. simpl.
        rewrite <- !app_assoc. simpl. reflexivity.
      * lia.
      * lia.
      * sizes; lia.
      * intros _ E. destruct pre; discriminate.
    + assert (E : rev seg = seg).
      { destruct seg as [|a [|b seg]]; simpl in *; try reflexivity; lia. }
      rewrite E.
      assert (Hs : size seg <= 1) by (unfold size; lia).
      destruct fuel; unfold reverse_segment_loop;
        (destruct (Z.ltb_spec (size pre) (size pre + size seg - 1));
         [lia|reflexivity]).
Qed.

Lemma reverse_segment_spec pre seg post :
  seg <> [] ->
  size (pre ++ seg ++ post) < 2 ^ 64 ->
  reverse_segment (pre ++ seg ++ post) (size pre) (size pre + size seg - 1)
  = Some (pre ++ rev seg ++ post).
Proof.
  intros Hne Hn. unfold reverse_segment.
  apply (reverse_segment_loop_spec (length seg)); auto;
    try (unfold size; lia); intros E; contradiction.
Qed.

Lemma std_reverse_spec pre seg post :
  std_reverse (pre ++ seg ++ post) (size pre) (size pre + size seg)
  = Some (pre ++ rev seg ++ post).
Proof.
  unfold std_reverse.
  destruct (Z.leb_spec 0 (size pre)); [|sizes; lia].
  destruct (Z.leb_spec (size pre) (size pre + size seg)); [|sizes; lia].
  destruct (Z.leb_spec (size pre + size seg) (size (pre ++ seg ++ post)));
    [|sizes; lia].
  cbn [andb]. f_equal.
  replace (Z.to_nat (size pre)) with (length pre) by (unfold size; lia).
  replace (Z.to_nat (size pre + size seg)) with (length pre + length seg)%nat
    by (unfold size; lia).
  assert (F1 : firstn (length pre) (pre ++ seg ++ post) = pre).
  { rewrite firstn_app, Nat.sub_diag, firstn_all, firstn_O, app_nil_r.
    reflexivity. }
  assert (F2 : firstn (length pre + length seg) (pre ++ seg ++ post)
               = pre ++ seg).
  { rewrite app_assoc, <- length_app, firstn_app, Nat.sub_diag, firstn_all,
      firstn_O, app_nil_r. reflexivity. }
  assert (F3 : skipn (length pre + length seg) (pre ++ seg ++ post) = post).
  { rewrite app_assoc, <- length_app, skipn_app, Nat.sub_diag, skipn_all,
      skipn_O. reflexivity. }
  rewrite F1, F2, F3.
  rewrite skipn_app, Nat.sub_diag, skipn_all, skipn_O. reflexivity.
Qed.

Lemma std_reverse_all l : std_reverse l 0 (size l) = Some (rev l).
Proof.
  pose proof (std_reverse_spec [] l []) as E.
  rewrite !app_nil_r, size_nil, Z.add_0_l in E. simpl in E. exact E.
Qed.

(** The segments a swap of positions [i < j] works on: [a] is
    [tour[0..i]], [b] is [tour[i+1..j]] and [c] the rest. *)
Lemma perform_2opt_swap_spec a b c :
  a <> [] -> b <> [] ->
  size (a ++ b ++ c) < 2 ^ 64 ->
  perform_2opt_swap (a ++ b ++ c) (size a - 1) (size a + size b - 1)
  = Some (if size b <=? size a + size c then a ++ rev b ++ c
          else c ++ rev b ++ a).
Proof.
  intros Ha Hb Hn.
  assert (1 <= size a) by (destruct a; [contradiction|sizes; lia]).
  assert (1 <= size b) by (destruct b; [contradiction|sizes; lia]).
  unfold perform_2opt_swap.
  destruct (Z.ltb_spec (size a + size b - 1) (size a - 1)); [lia|].
  unfold smart_reverse_segment.
  assert (Hs : size (a ++ b ++ c) = size a + size b + size c) by (sizes; lia).
  rewrite Hs in *.
  pose proof (size_nonneg c).
  replace (wrap (size a - 1 + 1)) with (size a) by (rewrite wrap_small; lia).
  destruct (Z.ltb_spec (size a + size b - 1) (size a)); [lia|].
  replace (size a + size b - 1 - size a) with (size b - 1) by lia.
  rewrite (wrap_small (size b - 1)) by lia.
  replace (size b - 1 + 1) with (size b) by lia.
  rewrite (wrap_small (size b)) by lia.
  replace (size a + size b + size c - size b) with (size a + size c) by lia.
  rewrite (wrap_small (size a + size c)) by lia.
  destruct (Z.leb_spec (size b) (size a + size c)).
  - apply reverse_segment_spec; auto. lia.
  - pose proof (std_reverse_spec [] a (b ++ c)) as E1.
    rewrite size_nil, Z.add_0_l in E1. simpl in E1. rewrite E1.
    pose proof (std_reverse_spec (rev a ++ b) c []) as E2.
    rewrite !app_nil_r, <- !app_assoc in E2.
    replace (size a + size b - 1 + 1) with (size (rev a ++ b))
      by (sizes; unfold size; rewrite length_rev; lia).
    replace (size (rev a ++ b ++ c)) with (size (rev a ++ b) + size c)
      by (sizes; lia).
    rewrite E2. rewrite std_reverse_all.
    rewrite !rev_app_distr, !rev_involutive, <- app_assoc. reflexivity.
Qed.

Lemma split_tour (tour : list Point) i j :
  0 <= i -> i < j -> j < size tour ->
  exists a b c,
    tour = a ++ b ++ c /\ size a = i + 1 /\ size b = j - i /\
    a <> [] /\ b <> [].
Proof.
  intros Hi Hij Hj.
  exists (firstn (Z.to_nat (i + 1)) tour),
         (firstn (Z.to_nat (j - i)) (skipn (Z.to_nat (i + 1)) tour)),
         (skipn (Z.to_nat (j - i)) (skipn (Z.to_nat (i + 1)) tour)).
  unfold size in *.
  assert (L1 : length (firstn (Z.to_nat (i + 1)) tour) = Z.to_nat (i + 1))
    by (rewrite length_firstn; lia).
  assert (L2 : length (firstn (Z.to_nat (j - i))
                         (skipn (Z.to_nat (i + 1)) tour)) = Z.to_nat (j - i))
    by (rewrite length_firstn, length_skipn; lia).
  repeat split.
  - rewrite !firstn_skipn. reflexivity.
  - lia.
  - lia.
  - intros E; rewrite E in L1; simpl in L1; lia.
  - intros E; rewrite E in L2; simpl in L2; lia.
Qed.

(** * Reversals permute the tour *)

Lemma at_nth_error {A} (v : list A) i :
  0 <= i -> at_ v i = nth_error v (Z.to_nat i).
Proof. intros; unfold at_; destruct (Z.ltb_spec i 0); [lia|reflexivity]. Qed.

Lemma nth_error_split_at {A} (v : list A) i a :
  at_ v i = Some a -> exists u w, v = u ++ a :: w /\ size u = i.
Proof.
  intros E. pose proof (at_some _ _ _ E) as R.
  unfold at_ in E. destruct (Z.ltb_spec i 0); [lia|].
  apply nth_error_split in E as (u & w & -> & L).
  exists u, w; split; [reflexivity|unfold size; lia].
Qed.

Lemma swap_at_middle_rev {A} (u m v : list A) (a b : A) :
  swap_at (u ++ a :: m ++ b :: v) (size u + size m + 1) (size u)
  = Some (u ++ b :: m ++ a :: v).
Proof.
  unfold swap_at.
  replace (u ++ a :: m ++ b :: v) with ((u ++ a :: m) ++ b :: v)
    by (rewrite <- app_assoc; reflexivity).
  replace (size u + size m + 1) with (size (u ++ a :: m)) by (sizes; lia).
  rewrite at_middle.
  rewrite <- app_assoc; simpl app. rewrite at_middle.
  replace (u ++ a :: m ++ b :: v) with ((u ++ a :: m) ++ b :: v)
    by (rewrite <- app_assoc; reflexivity).
  rewrite assign_middle, <- app_assoc. simpl app.
  rewrite assign_middle. reflexivity.
Qed.

Lemma swap_at_same {A} (v : list A) i a :
  at_ v i = Some a -> swap_at v i i = Some v.
Proof.
  intros E. unfold swap_at. rewrite E.
  destruct (nth_error_split_at _ _ _ E) as (u & w & -> & <-).
  rewrite !assign_middle. reflexivity.
Qed.

Lemma perm_exchange {A} (a b : A) (m t : list A) :
  Permutation (a :: m ++ b :: t) (b :: m ++ a :: t).
Proof.
  transitivity (a :: b :: m ++ t).
  - constructor. symmetry. apply Permutation_middle.
  - transitivity (b :: a :: m ++ t).
    + apply perm_swap.
    + constructor. apply Permutation_middle.
Qed.

Lemma swap_at_perm {A} (v v' : list A) i j :
  swap_at v i j = Some v' -> Permutation v v'.
Proof.
  intros E.
  assert (exists a b, at_ v i = Some a /\ at_ v j = Some b) as (a & b & Ea & Eb).
  { unfold swap_at in E. destruct (at_ v i); [|discriminate].
    destruct (at_ v j); [|discriminate]. eauto. }
  destruct (Z.lt_trichotomy i j) as [Hlt|[->|Hlt]].
  - destruct (nth_error_split_at _ _ _ Ea) as (u & w & -> & <-).
    assert (Ew : at_ w (j - size u - 1) = Some b).
    { pose proof (at_some _ _ _ Eb). pose proof (size_nonneg u).
      rewrite at_nth_error in * by lia.
      rewrite nth_error_app2 in Eb by (unfold size in *; lia).
      replace (Z.to_nat j - length u)%nat
        with (S (Z.to_nat (j - size u - 1))) in Eb
        by (unfold size in *; lia).
      exact Eb. }
    destruct (nth_error_split_at _ _ _ Ew) as (m & t & -> & Hm).
    replace j with (size u + size m + 1) in E by lia.
    rewrite swap_at_middle in E. injection E as <-.
    apply Permutation_app_head, perm_exchange.
  - rewrite (swap_at_same _ _ _ Ea) in E. injection E as <-. reflexivity.
  - destruct (nth_error_split_at _ _ _ Eb) as (u & w & -> & <-).
    assert (Ew : at_ w (i - size u - 1) = Some a).
    { pose proof (at_some _ _ _ Ea). pose proof (size_nonneg u).
      rewrite at_nth_error in * by lia.
      rewrite nth_error_app2 in Ea by (unfold size in *; lia).
      replace (Z.to_nat i - length u)%nat
        with (S (Z.to_nat (i - size u - 1))) in Ea
        by (unfold size in *; lia).
      exact Ea. }
    destruct (nth_error_split_at _ _ _ Ew) as (m & t & -> & Hm).
    replace i with (size u + size m + 1) in E by lia.
    rewrite swap_at_middle_rev in E. injection E as <-.
    apply Permutation_app_head, perm_exchange.
Qed.

Lemma reverse_segment_loop_perm fuel :
  forall tour start end_ tour',
    reverse_segment_loop fuel tour start end_ = Some tour' ->
    Permutation tour tour'.
Proof.
  induction fuel as [|fuel IH]; intros tour start end_ tour' E;
    cbn [reverse_segment_loop] in E; destruct (start <? end_).
  - discriminate.
  - injection E as <-; reflexivity.
  - destruct (swap_at tour start end_) as [t1|] eqn:Es; [|discriminate].
    apply swap_at_perm in Es. apply IH in E. etransitivity; eassumption.
  - injection E as <-; reflexivity.
Qed.

Lemma std_reverse_perm tour first last tour' :
  std_reverse tour first last = Some tour' -> Permutation tour tour'.
Proof.
  unfold std_reverse.
  destruct (Z.leb_spec 0 first); [|discriminate].
  destruct (Z.leb_spec first last); [|discriminate].
  destruct (Z.leb_spec last (size tour)); [|discriminate].
  cbn [andb]. intros E; injection E as <-.
  rewrite <- Permutation_rev.
  rewrite app_assoc.
  rewrite <- (firstn_skipn (Z.to_nat last) tour) at 1.
  apply Permutation_app_tail.
  rewrite <- (firstn_skipn (Z.to_nat first) (firstn (Z.to_nat last) tour)) at 1.
  rewrite firstn_firstn.
  replace (Init.Nat.min (Z.to_nat first) (Z.to_nat last)) with (Z.to_nat first)
    by lia.
  reflexivity.
Qed.

Lemma std_reverse_size tour first last tour' :
  std_reverse tour first last = Some tour' -> size tour' = size tour.
Proof.
  intros E. apply std_reverse_perm in E.
  unfold size. rewrite (Permutation_length E). reflexivity.
Qed.

Lemma smart_reverse_segment_perm tour i j tour' :
  smart_reverse_segment tour i j = Some tour' -> Permutation tour tour'.
Proof.
  unfold smart_reverse_segment.
  destruct (if j <? i then (j, i) else (i, j)) as [i' j'].
  destruct (_ <=? _).
  - apply reverse_segment_loop_perm.
  - destruct (std_reverse tour 0 i') as [t1|] eqn:E1; [|discriminate].
    destruct (std_reverse t1 (j' + 1) (size t1)) as [t2|] eqn:E2;
      [|discriminate].
    intros E3.
    apply std_reverse_perm in E1, E2, E3.
    etransitivity; [eassumption|]. etransitivity; eassumption.
Qed.

Lemma perform_2opt_swap_perm tour i j tour' :
  perform_2opt_swap tour i j = Some tour' -> Permutation tour tour'.
Proof.
  unfold perform_2opt_swap.
  destruct (if j <? i then (j, i) else (i, j)) as [i' j'].
  apply smart_reverse_segment_perm.
Qed.

(** * Length of a tour *)

Lemma distance_sym a b : distance a b = distance b a.
Proof. unfold distance; f_equal; ring. Qed.

Lemma distance_refl a : distance a a = 0%R.
Proof.
  unfold distance.
  replace ((x a - x a) * (x a - x a) + (y a - y a) * (y a - y a))%R
    with 0%R by ring.
  apply sqrt_0.
Qed.

Lemma distance_nonneg a b : (0 <= distance a b)%R.
Proof. apply sqrt_pos. Qed.

(** The length of the open polyline through the points of [l]. *)
Fixpoint path_length (l : list Point) : R :=
  match l with
  | [] => 0
  | p :: l' =>
      match l' with
      | [] => 0
      | q :: _ => distance p q + path_length l'
      end
  end%R.

(** The edge from the end of [u] to the start of [v]. *)
Definition link (u v : list Point) : R :=
  match u, v with
  | [], _ => 0%R
  | _, [] => 0%R
  | _, q :: _ => distance (last u default_point) q
  end.

Lemma fold_left_ext_in {A B} (f g : A -> B -> A) (l : list B) :
  (forall b, In b l -> forall a, f a b = g a b) ->
  forall a, fold_left f l a = fold_left g l a.
Proof.
  induction l as [|b l IH]; intros H a; simpl; [reflexivity|].
  rewrite (H b) by (left; reflexivity).
  apply IH. intros; apply H; right; assumption.
Qed.

Lemma fold_left_map' {A B C} (f : A -> B -> A) (g : C -> B) (l : list C) :
  forall a, fold_left f (map g l) a = fold_left (fun a c => f a (g c)) l a.
Proof. induction l; intros; simpl; auto. Qed.

Lemma path_length_fold (c : list Point) :
  forall acc,
    fold_left
      (fun a i => (a + distance (nth i c default_point)
                                (nth (S i) c default_point))%R)
      (seq 0 (pred (length c))) acc
    = (acc + path_length c)%R.
Proof.
  induction c as [|p c IH]; intros acc; [simpl; ring|].
  destruct c as [|q c]; [simpl; ring|].
  cbn [length pred]. rewrite <- cons_seq. cbn [fold_left].
  rewrite <- seq_shift, fold_left_map'.
  cbn [length pred] in IH.
  rewrite (fold_left_ext_in _
    (fun a i => (a + distance (nth i (q :: c) default_point)
                              (nth (S i) (q :: c) default_point))%R))
    by reflexivity.
  rewrite IH. cbn [nth path_length]. ring.
Qed.

Lemma tour_length_path (l : list Point) :
  tour_length l = path_length (l ++ [hd default_point l]).
Proof.
  unfold tour_length.
  destruct (Nat.ltb_spec (length l) 2) as [H|H].
  - destruct l as [|p [|q l]]; simpl in *; try lia; [reflexivity|].
    rewrite distance_refl; ring.
  - rewrite (fold_left_ext_in _
      (fun a i =>
         (a + distance (nth i (l ++ [hd default_point l]) default_point)
                       (nth (S i) (l ++ [hd default_point l]) default_point))%R)).
    + pose proof (path_length_fold (l ++ [hd default_point l]) 0%R) as E.
      rewrite length_app in E. simpl in E.
      replace (pred (length l + 1)) with (length l) in E by lia.
      rewrite E. ring.
    + intros i Hi a. apply in_seq in Hi.
      rewrite (app_nth1 l _ default_point (n:=i)) by lia.
      destruct (Nat.eq_dec (S i) (length l)) as [E|E].
      * replace ((i + 1) mod length l)%nat with 0%nat
          by (replace (i + 1)%nat with (length l) by lia;
              rewrite Nat.Div0.mod_same; reflexivity).
        rewrite app_nth2 by lia. rewrite E, Nat.sub_diag. simpl.
        destruct l; reflexivity.
      * rewrite Nat.mod_small by lia.
        rewrite app_nth1 by lia. replace (i + 1)%nat with (S i) by lia.
        reflexivity.
Qed.

Lemma path_length_app u v :
  path_length (u ++ v) = (path_length u + link u v + path_length v)%R.
Proof.
  induction u as [|p u IH]; [simpl; ring|].
  destruct u as [|q u].
  - destruct v; simpl; ring.
  - simpl app in *.
    change (path_length (p :: q :: u ++ v))
      with (distance p q + path_length (q :: u ++ v))%R.
    change (path_length (p :: q :: u))
      with (distance p q + path_length (q :: u))%R.
    rewrite IH.
    replace (link (p :: q :: u) v) with (link (q :: u) v)
      by (unfold link; destruct v; reflexivity).
    ring.
Qed.

Lemma path_length_rev l : path_length (rev l) = path_length l.
Proof.
  induction l as [|p l IH]; [reflexivity|].
  cbn [rev]. rewrite path_length_app, IH.
  destruct l as [|q l]; [simpl; ring|].
  cbn [path_length]. unfold link.
  destruct (rev (q :: l)) eqn:E.
  - apply (f_equal (@length Point)) in E. rewrite length_rev in E.
    simpl in E. lia.
  - rewrite <- E. cbn [rev]. rewrite last_last.
    rewrite (distance_sym q p). simpl. ring.
Qed.

Lemma hd_rev (u : list Point) :
  hd default_point (rev u) = last u default_point.
Proof.
  induction u as [|p u IH] using rev_ind; [reflexivity|].
  rewrite rev_app_distr, last_last. reflexivity.
Qed.

(** The four edges a swap of [a ++ b ++ c] exchanges, in the notation of
    [calculate_2opt_gain]. *)
Definition exchange (a b c : list Point) : R :=
  let ti := last a default_point in
  let ti_next := hd default_point b in
  let tj := last b default_point in
  let tj_next := hd default_point (c ++ a) in
  (distance ti ti_next + distance tj tj_next
   - (distance ti tj + distance ti_next tj_next))%R.

Lemma link_cons_r u q v :
  u <> [] -> link u (q :: v) = distance (last u default_point) q.
Proof. destruct u; [contradiction|reflexivity]. Qed.

Lemma last_app_r {A} (u v : list A) d :
  v <> [] -> last (u ++ v) d = last v d.
Proof.
  intros Hv. induction u as [|a u IH]; [reflexivity|].
  cbn [app last]. destruct (u ++ v) eqn:E.
  - destruct u, v; try discriminate; contradiction.
  - exact IH.
Qed.

Lemma hd_app_l (u v : list Point) :
  u <> [] -> hd default_point (u ++ v) = hd default_point u.
Proof. destruct u; [contradiction|reflexivity]. Qed.

Lemma path_length_single p : path_length [p] = 0%R.
Proof. reflexivity. Qed.

Lemma tour_length_rev l : tour_length (rev l) = tour_length l.
Proof.
  destruct l as [|p l]; [reflexivity|].
  rewrite (tour_length_path (p :: l)).
  rewrite <- path_length_rev, rev_app_distr.
  rewrite tour_length_path, hd_rev.
  set (r := rev (p :: l)).
  assert (Hr : r <> []).
  { subst r; intros E. apply (f_equal (@length Point)) in E.
    rewrite length_rev in E. discriminate. }
  replace (hd default_point (p :: l)) with (last r default_point)
    by (subst r; rewrite <- hd_rev, rev_involutive; reflexivity).
  replace (last (p :: l) default_point) with (hd default_point r)
    by (subst r; apply hd_rev).
  cbn [rev app].
  change (last r default_point :: r) with ([last r default_point] ++ r).
  rewrite !path_length_app, !path_length_single.
  destruct r as [|q r]; [contradiction|].
  cbn [hd]. rewrite (link_cons_r (q :: r)) by discriminate.
  rewrite link_cons_r by discriminate. cbn [last]. ring.
Qed.

(** * The gain and the swap, by segments *)

Lemma at_last (u v : list Point) :
  u <> [] -> at_ (u ++ v) (size u - 1) = Some (last u default_point).
Proof.
  intros Hu. rewrite (app_removelast_last default_point Hu) at 1 2.
  rewrite <- app_assoc. cbn [app].
  replace (size (removelast u ++ [last u default_point]) - 1)
    with (size (removelast u)) by (sizes; lia).
  apply at_middle.
Qed.

Lemma at_hd (u v : list Point) :
  v <> [] -> at_ (u ++ v) (size u) = Some (hd default_point v).
Proof. destruct v; [contradiction|]. intros _. apply at_middle. Qed.

Lemma at_0 (u : list Point) :
  u <> [] -> at_ u 0 = Some (hd default_point u).
Proof. destruct u; [contradiction|reflexivity]. Qed.

Lemma exchange_single a p c : exchange a [p] c = 0%R.
Proof. unfold exchange; cbn [last hd]. ring. Qed.

Lemma exchange_whole p b : exchange [p] b [] = 0%R.
Proof.
  unfold exchange; cbn [last hd app].
  rewrite (distance_sym (last b default_point) p),
    (distance_sym (hd default_point b) p). ring.
Qed.

Lemma calculate_2opt_gain_spec a b c :
  a <> [] -> b <> [] ->
  size (a ++ b ++ c) < 2 ^ 64 ->
  calculate_2opt_gain (a ++ b ++ c) (size a - 1) (size a + size b - 1)
  = Some (exchange a b c).
Proof.
  intros Ha Hb Hn.
  assert (1 <= size a) by (destruct a; [contradiction|sizes; lia]).
  assert (1 <= size b) by (destruct b; [contradiction|sizes; lia]).
  assert (Hs : size (a ++ b ++ c) = size a + size b + size c) by (sizes; lia).
  pose proof (size_nonneg c).
  unfold calculate_2opt_gain. rewrite Hs in *.
  destruct (Z.ltb_spec (size a + size b - 1) (size a - 1)); [lia|].
  replace (size a - 1 + 1) with (size a) by lia.
  replace (size a + size b - 1 + 1) with (size a + size b) by lia.
  rewrite !wrap_small by lia.
  destruct (Z.leb_spec (size a + size b - 1) (size a)).
  { assert (size b = 1) by lia.
    destruct b as [|p [|q b]]; [contradiction| |sizes; lia].
    cbn [orb]. rewrite exchange_single. reflexivity. }
  cbn [orb].
  destruct (Z.eqb_spec (size a - 1) 0);
    [destruct (Z.eqb_spec (size a + size b - 1) (size a + size b + size c - 1))|];
    cbn [andb].
  { assert (size a = 1) by lia. assert (size c = 0) by lia.
    destruct a as [|p [|q a]]; [contradiction| |sizes; lia].
    destruct c; [|sizes; lia].
    rewrite exchange_whole. reflexivity. }
  all: unfold umod;
    (destruct (Z.eqb_spec (size a + size b + size c) 0); [lia|]);
    rewrite (Z.mod_small (size a)) by lia;
    rewrite at_last by assumption;
    rewrite (at_hd a (b ++ c)) by (destruct b; [contradiction|discriminate]);
    rewrite (hd_app_l b c) by assumption;
    rewrite (app_assoc a b c);
    replace (size a + size b - 1) with (size (a ++ b) - 1) by (sizes; lia);
    rewrite (at_last (a ++ b) c) by (destruct a; [contradiction|discriminate]);
    rewrite last_app_r by assumption;
    unfold exchange.
  all: destruct c as [|q c].
  all: try (rewrite Z.mod_small by (sizes; lia);
            replace (size a + size b) with (size (a ++ b)) by (sizes; lia);
            rewrite at_hd by discriminate; reflexivity).
  all: rewrite size_nil, Z.add_0_r, Z.mod_same by lia;
    rewrite app_nil_r, at_0 by (destruct a; [contradiction|discriminate]);
    rewrite hd_app_l by assumption; reflexivity.
Qed.

(** * Loops *)

Lemma for_iter_inv {S} (P : S -> Prop) step (body : Z -> S -> option S) :
  (forall i s s', P s -> body i s = Some s' -> P s') ->
  forall k i s s', P s -> for_iter step k i body s = Some s' -> P s'.
Proof.
  intros Hb. induction k as [|k IH]; intros i s s' Hs E; cbn [for_iter] in E.
  - injection E as <-; assumption.
  - destruct (body i s) as [s1|] eqn:E1; [|discriminate].
    eapply IH; [|eassumption]. eapply Hb; eassumption.
Qed.

Lemma for_range_inv {S} (P : S -> Prop) lo hi (body : Z -> S -> option S) :
  (forall i s s', P s -> body i s = Some s' -> P s') ->
  forall s s', P s -> for_range lo hi body s = Some s' -> P s'.
Proof. intros Hb s s'. apply for_iter_inv; assumption. Qed.

Lemma for_each_inv {A S} (P : S -> Prop) (body : A -> S -> option S) :
  (forall a s s', P s -> body a s = Some s' -> P s') ->
  forall l s s', P s -> for_each l body s = Some s' -> P s'.
Proof.
  intros Hb. induction l as [|a l IH]; intros s s' Hs E; cbn [for_each] in E.
  - injection E as <-; assumption.
  - destruct (body a s) as [s1|] eqn:E1; [|discriminate].
    eapply IH; [|eassumption]. eapply Hb; eassumption.
Qed.

(** A loop over [lo, hi) whose body succeeds on this range succeeds; the
    invariant may speak of the index reached. *)
Lemma for_range_total {S} (Q : Z -> S -> Prop) (body : Z -> S -> option S)
  lo hi :
  0 <= lo <= hi -> hi < 2 ^ 64 ->
  (forall i s, lo <= i < hi -> Q i s ->
               exists s', body i s = Some s' /\ Q (i + 1) s') ->
  forall s, Q lo s ->
  exists s', for_range lo hi body s = Some s' /\ Q hi s'.
Proof.
  intros Hlo Hhi Hb. unfold for_range.
  assert (G : forall k l s, lo <= l <= hi -> k = Z.to_nat (hi - l) -> Q l s ->
              exists s', for_iter 1 k l body s = Some s' /\ Q hi s').
  { induction k as [|k IH]; intros l s Hl Ek Hs; cbn [for_iter].
    - replace hi with l by lia. eauto.
    - destruct (Hb l s) as (s1 & -> & Hs1); [lia|assumption|].
      rewrite wrap_small by lia. apply IH; [lia|lia|assumption]. }
  intros s Hs. apply (G _ lo s); [lia|reflexivity|assumption].
Qed.

Lemma for_range_empty {S} (body : Z -> S -> option S) lo hi s :
  hi <= lo -> for_range lo hi body s = Some s.
Proof.
  intros H. unfold for_range.
  replace (Z.to_nat (hi - lo)) with 0%nat by lia. reflexivity.
Qed.

Lemma for_each_total {A S} (Q : S -> Prop) (body : A -> S -> option S)
  (l : list A) :
  (forall a s, In a l -> Q s -> exists s', body a s = Some s' /\ Q s') ->
  forall s, Q s -> exists s', for_each l body s = Some s' /\ Q s'.
Proof.
  induction l as [|a l IH]; intros Hb s Hs; cbn [for_each]; [eauto|].
  destruct (Hb a s) as (s1 & -> & Hs1); [left; reflexivity|assumption|].
  apply IH; [|assumption]. intros; apply Hb; [right|]; assumption.
Qed.

(** A loop whose body changes nothing, however long it runs. *)
Lemma for_iter_idle {S} step (body : Z -> S -> option S) (P : Z -> Prop) :
  (forall i s, P i -> body i s = Some s) ->
  (forall i, P i -> P (wrap (i + step))) ->
  forall k i s, P i -> for_iter step k i body s = Some s.
Proof.
  intros Hb Hp. induction k as [|k IH]; intros i s Hi; cbn [for_iter].
  - reflexivity.
  - rewrite Hb by assumption. apply IH, Hp, Hi.
Qed.

Lemma while_improving_inv (P : Run -> Prop) (pass : Run -> option Run) :
  (forall r r', P r -> pass r = Some r' -> P r') ->
  forall k r r', P r -> while_improving pass k r = Some r' -> P r'.
Proof.
  intros Hp. induction k as [|k IH]; intros r r' Hr E;
    cbn [while_improving] in E;
    destruct (run_improved r && (iterations (run_stats r) <? max_iterations)).
  - injection E as <-; assumption.
  - injection E as <-; assumption.
  - destruct (pass r) as [r1|] eqn:E1; [|discriminate].
    eapply IH; [|eassumption]. eapply Hp; eassumption.
  - injection E as <-; assumption.
Qed.

(** The loop goes through when the pass does, and leaves either because no
    pass improved or because [max_iterations] is reached. *)
Lemma while_improving_total (P : Run -> Prop) (pass : Run -> option Run) :
  (forall r, P r -> run_improved r = true ->
             iterations (run_stats r) < max_iterations ->
             exists r', pass r = Some r' /\ P r' /\
                        iterations (run_stats r')
                        = iterations (run_stats r) + 1) ->
  forall k r, P r ->
  exists r',
    while_improving pass k r = Some r' /\ P r' /\
    (max_iterations <= iterations (run_stats r) + Z.of_nat k ->
     run_improved r' = false \/
     max_iterations <= iterations (run_stats r')).
Proof.
  intros Hp. induction k as [|k IH]; intros r Hr; cbn [while_improving].
  - exists r. destruct (_ && _); repeat split; auto; intros; right; lia.
  - destruct (run_improved r) eqn:Ei; cbn [andb].
    + destruct (Z.ltb_spec (iterations (run_stats r)) max_iterations).
      * destruct (Hp r Hr Ei) as (r1 & -> & Hr1 & Eit); [assumption|].
        destruct (IH r1 Hr1) as (r' & E & Hr' & Hx).
        exists r'. repeat split; auto. intros; apply Hx; lia.
      * exists r. repeat split; auto.
    + exists r. repeat split; auto.
Qed.

(** * One pass *)

(** What a claim may observe of a point: an optimizer writes only
    [active]. *)
Definition triple (p : Point) : R * R * Z := (x p, y p, id p).

(** [b] holds the best pair seen so far, and its gain under [gainf]. *)
Definition best_inv (gainf : list Point -> Z -> Z -> option R)
  (tour : list Point) (b : Best) : Prop :=
  (min_improvement <= best_gain b)%R /\
  ((min_improvement < best_gain b)%R ->
   0 <= best_i b /\ best_i b + 2 <= best_j b /\ best_j b < size tour /\
   gainf tour (best_i b) (best_j b) = Some (best_gain b)).

(** The gain of the pair [(i, j)] is defined and not above [best_gain]. *)
Definition covered (tour : list Point) (b : Best) (i j : Z) : Prop :=
  exists g, calculate_2opt_gain tour i j = Some g /\ (g <= best_gain b)%R.

(** What a pass does to the state of a run. *)
Definition pass_post (gainf : list Point -> Z -> Z -> option R)
  (r r' : Run) : Prop :=
  initial_length (run_stats r') = initial_length (run_stats r) /\
  iterations (run_stats r') = incr (iterations (run_stats r)) /\
  ((run_improved r' = false /\ swaps r' = swaps r /\
    map triple (run_tour r') = map triple (run_tour r))
   \/
   (run_improved r' = true /\
    exists i j g tour',
      swaps r' = (i, j) :: swaps r /\
      0 <= i /\ i + 2 <= j /\ j < size (run_tour r) /\
      gainf (run_tour r) i j = Some g /\ (min_improvement < g)%R /\
      perform_2opt_swap (run_tour r) i j = Some tour' /\
      map triple (run_tour r') = map triple tour')).

(** [accepted gainf tour0 sw tour]: the tour [tour] is reached from [tour0]
    by the swaps [sw], newest first. Each swap was applied to the tour of
    its time, on which [gainf] gave the pair a gain above [min_improvement];
    between two swaps only activation bits change. *)
Inductive accepted (gainf : list Point -> Z -> Z -> option R)
  (tour0 : list Point) : list (Z * Z) -> list Point -> Prop :=
| accepted_none tour :
    map triple tour = map triple tour0 ->
    accepted gainf tour0 [] tour
| accepted_swap sw t i j g t' tour :
    accepted gainf tour0 sw t ->
    gainf t i j = Some g -> (min_improvement < g)%R ->
    perform_2opt_swap t i j = Some t' ->
    map triple tour = map triple t' ->
    accepted gainf tour0 ((i, j) :: sw) tour.

Lemma accepted_triple gainf tour0 sw tour tour' :
  accepted gainf tour0 sw tour ->
  map triple tour' = map triple tour ->
  accepted gainf tour0 sw tour'.
Proof.
  intros Ha E. destruct Ha as [tour Et|sw t i j g t' tour Ha Eg Hg Es Et].
  - apply accepted_none. congruence.
  - eapply accepted_swap; try eassumption. congruence.
Qed.

Lemma best_inv_start gainf tour c :
  best_inv gainf tour (mkBest min_improvement 0 0 c).
Proof. split; cbn; [lra|intros; lra]. Qed.

Lemma consider_gain g i j b :
  (best_gain b <= best_gain (consider g i j b))%R /\
  (g <= best_gain (consider g i j b))%R.
Proof.
  unfold consider. destruct (Rltb_spec (best_gain b) g); cbn; lra.
Qed.

Lemma consider_inv gainf tour g i j b :
  best_inv gainf tour b ->
  0 <= i -> i + 2 <= j -> j < size tour ->
  gainf tour i j = Some g ->
  best_inv gainf tour (consider g i j b).
Proof.
  intros [Hm Hb] Hi Hij Hj Hg. unfold consider.
  destruct (Rltb_spec (best_gain b) g); split; cbn; auto; lra.
Qed.

Lemma covered_mono tour b b' i j :
  (best_gain b <= best_gain b')%R -> covered tour b i j -> covered tour b' i j.
Proof. intros H (g & E & Hg). exists g; split; [assumption|lra]. Qed.

Lemma calculate_2opt_gain_total tour i j :
  size tour < 2 ^ 64 -> 0 <= i -> i < j -> j < size tour ->
  exists g, calculate_2opt_gain tour i j = Some g.
Proof.
  intros Hn Hi Hij Hj.
  destruct (split_tour tour i j Hi Hij Hj) as (a & b & c & -> & Ha & Hb & Na & Nb).
  replace i with (size a - 1) by lia.
  replace j with (size a + size b - 1) by lia.
  rewrite calculate_2opt_gain_spec by assumption. eauto.
Qed.

Lemma calculate_2opt_gain_fast_total tour i j :
  size tour < 2 ^ 64 -> 0 <= i -> i < j -> j < size tour ->
  exists g, calculate_2opt_gain_fast tour i j = Some g.
Proof.
  intros Hn Hi Hij Hj. unfold calculate_2opt_gain_fast.
  destruct (Z.ltb_spec j i); [lia|].
  destruct (_ || _); [eauto|].
  unfold umod. destruct (Z.eqb_spec (size tour) 0); [lia|].
  assert (Hm : forall a, 0 <= a mod size tour < size tour)
    by (intros; apply Z.mod_pos_bound; lia).
  destruct (at_in_range tour i) as (ti & ->); [lia|].
  destruct (at_in_range tour (wrap (i + 1) mod size tour)) as (t1 & ->);
    [apply Hm|].
  destruct (at_in_range tour j) as (tj & ->); [lia|].
  destruct (at_in_range tour (wrap (j + 1) mod size tour)) as (t2 & ->);
    [apply Hm|].
  eauto.
Qed.

Lemma perform_2opt_swap_total tour i j :
  size tour < 2 ^ 64 -> 0 <= i -> i < j -> j < size tour ->
  exists tour', perform_2opt_swap tour i j = Some tour'.
Proof.
  intros Hn Hi Hij Hj.
  destruct (split_tour tour i j Hi Hij Hj) as (a & b & c & -> & Ha & Hb & Na & Nb).
  replace i with (size a - 1) by lia.
  replace j with (size a + size b - 1) by lia.
  rewrite perform_2opt_swap_spec by assumption. eauto.
Qed.

Lemma basic_search_spec tour b :
  2 <= size tour < 2 ^ 64 ->
  best_inv calculate_2opt_gain tour b ->
  exists b',
    basic_search tour b = Some b' /\
    best_inv calculate_2opt_gain tour b' /\
    forall i j, 0 <= i -> i + 2 <= j -> j < size tour ->
                ~ (i = 0 /\ j = size tour - 1) -> covered tour b' i j.
Proof.
  intros Hn Hb. unfold basic_search.
  set (n := size tour) in *.
  rewrite (wrap_small (n - 2)), (wrap_small (n - 1)) by lia.
  pose (Q := fun (i : Z) (b : Best) =>
    best_inv calculate_2opt_gain tour b /\
    forall i' j, 0 <= i' < i -> i' + 2 <= j -> j < n ->
                 ~ (i' = 0 /\ j = n - 1) -> covered tour b i' j).
  destruct (for_range_total Q
    (fun i b => for_range (wrap (i + 2)) n (fun j b =>
       if (j =? n - 1) && (i =? 0) then Some b
       else gain <- calculate_2opt_gain tour i j ;;
            Some (consider gain i j b)) b) 0 (n - 2)) with (s := b)
    as (b' & E & Hb' & Hc).
  - lia.
  - lia.
  - intros i s Hi [Hs Hcov].
    rewrite (wrap_small (i + 2)) by lia.
    pose (Qi := fun (j : Z) (b : Best) =>
      best_inv calculate_2opt_gain tour b /\
      (forall i' j', 0 <= i' < i -> i' + 2 <= j' -> j' < n ->
                     ~ (i' = 0 /\ j' = n - 1) -> covered tour b i' j') /\
      (forall j', i + 2 <= j' < j ->
                  ~ (i = 0 /\ j' = n - 1) -> covered tour b i j')).
    destruct (for_range_total Qi
      (fun j b => if (j =? n - 1) && (i =? 0) then Some b
         else gain <- calculate_2opt_gain tour i j ;;
              Some (consider gain i j b)) (i + 2) n) with (s := s)
      as (s' & Es & Hs' & Hc1 & Hc2).
    + lia.
    + lia.
    + intros j t Hj (Ht & Ht1 & Ht2).
      destruct (Z.eqb_spec j (n - 1)); [destruct (Z.eqb_spec i 0)|];
        cbn [andb].
      { exists t; split; [reflexivity|]. repeat split; try apply Ht; auto.
        intros j' Hj' Hne. apply Ht2; [lia|assumption]. }
      all: destruct (calculate_2opt_gain_total tour i j) as (g & Eg);
        try (fold n; lia); rewrite Eg;
        eexists; split; [reflexivity|];
        pose proof (consider_gain g i j t) as [G1 G2];
        (split; [apply consider_inv; auto; try (fold n; lia)|]);
        (split;
         [intros i' j' ? ? ? ?; eapply covered_mono; [exact G1|]; auto
         |intros j' Hj' Hne;
          destruct (Z.eq_dec j' j) as [->|];
          [exists g; auto
          |eapply covered_mono; [exact G1|]; apply Ht2; [lia|assumption]]]).
    + repeat split; try apply Hs; auto. intros; lia.
    + exists s'; split; [assumption|]. split; [assumption|].
      intros i' j Hi' Hj1 Hj2 Hne.
      destruct (Z.eq_dec i' i) as [->|]; [apply Hc2; [lia|assumption]|].
      apply Hc1; try assumption; lia.
  - split; [assumption|]. intros; lia.
  - exists b'. split; [assumption|]. split; [assumption|].
    intros i j Hi Hij Hj Hne. apply Hc; try assumption. lia.
Qed.

(** The tours of the theorems: at least two points, and few enough for
    the [size_t] sums of two positions not to wrap. *)
Definition sized (tour : list Point) : Prop := 2 <= size tour < 2 ^ 63.

Lemma sized_64 tour : sized tour -> 2 <= size tour < 2 ^ 64.
Proof. unfold sized; lia. Qed.

(** No pair of positions has a gain above [min_improvement]. *)
Definition local_minimum (tour : list Point) : Prop :=
  forall i j g,
    calculate_2opt_gain tour i j = Some g -> (g <= min_improvement)%R.

Lemma calculate_2opt_gain_comm tour i j :
  calculate_2opt_gain tour i j = calculate_2opt_gain tour j i.
Proof.
  unfold calculate_2opt_gain.
  destruct (Z.ltb_spec j i), (Z.ltb_spec i j); try reflexivity; try lia.
  replace j with i by lia. reflexivity.
Qed.

Lemma local_minimum_covered tour b :
  size tour < 2 ^ 64 ->
  (best_gain b <= min_improvement)%R ->
  (forall i j, 0 <= i -> i + 2 <= j -> j < size tour ->
               ~ (i = 0 /\ j = size tour - 1) -> covered tour b i j) ->
  local_minimum tour.
Proof.
  intros Hn Hb Hc.
  assert (G : forall i j g, i <= j ->
            calculate_2opt_gain tour i j = Some g -> (g <= min_improvement)%R).
  { intros i j g Hij E.
    assert (E' := E). unfold calculate_2opt_gain in E'. revert E'.
    destruct (Z.ltb_spec j i); [lia|].
    destruct (Z.leb_spec j (wrap (i + 1))).
    { cbn [orb]. intros E'. injection E' as <-. unfold min_improvement; lra. }
    destruct (Z.eqb_spec i 0); [destruct (Z.eqb_spec j (wrap (size tour - 1)))|];
      cbn [orb andb].
    { intros E'. injection E' as <-. unfold min_improvement; lra. }
    all: destruct (umod (wrap (i + 1)) (size tour)) as [i1|]; [|discriminate];
      destruct (umod (wrap (j + 1)) (size tour)) as [j1|]; [|discriminate];
      destruct (at_ tour i) eqn:Ei; [|discriminate];
      destruct (at_ tour i1); [|discriminate];
      destruct (at_ tour j) eqn:Ej; [|discriminate];
      intros _;
      apply at_some in Ei, Ej;
      rewrite wrap_small in * by lia;
      destruct (Hc i j) as (g' & Eg & Hg); try lia;
      rewrite Eg in E; injection E as <-; lra. }
  intros i j g E. destruct (Z.le_gt_cases i j).
  - eapply G; eassumption.
  - rewrite calculate_2opt_gain_comm in E. eapply G; [|eassumption]. lia.
Qed.

Lemma incr_small z : 0 <= z < 2 ^ 64 - 1 -> incr z = z + 1.
Proof. intros; unfold incr; apply wrap_small; lia. Qed.

Lemma basic_pass_spec r :
  sized (run_tour r) ->
  exists r',
    basic_pass r = Some r' /\
    pass_post calculate_2opt_gain r r' /\
    (run_improved r' = false -> local_minimum (run_tour r')).
Proof.
  intros Hn. unfold basic_pass.
  destruct (basic_search_spec (run_tour r)
              (mkBest min_improvement 0 0
                 (total_comparisons
                    (set_iterations (incr (iterations (run_stats r)))
                       (run_stats r))))) as (b & -> & [Hm Hb] & Hc).
  { apply sized_64, Hn. }
  { apply best_inv_start. }
  destruct (Rltb_spec min_improvement (best_gain b)) as [Hg|Hg].
  - destruct (Hb Hg) as (Hi & Hij & Hj & Eg).
    destruct (perform_2opt_swap_total (run_tour r) (best_i b) (best_j b))
      as (tour' & E); try lia; [apply (sized_64 _ Hn)|].
    rewrite E. eexists; split; [reflexivity|]. split.
    + split; [reflexivity|]. split; [reflexivity|]. right.
      split; [reflexivity|].
      exists (best_i b), (best_j b), (best_gain b), tour'.
      repeat split; auto.
    + cbn. discriminate.
  - eexists; split; [reflexivity|]. split.
    + split; [reflexivity|]. split; [reflexivity|]. left.
      repeat split; reflexivity.
    + intros _. cbn [run_tour].
      eapply local_minimum_covered; [apply (sized_64 _ Hn)| |exact Hc]. lra.
Qed.

(** * A run *)

Lemma map_triple_set_active b tour :
  map triple (map (set_active b) tour) = map triple tour.
Proof. rewrite map_map. apply map_ext. reflexivity. Qed.

Lemma map_triple_cons p l p' l' :
  map triple (p :: l) = map triple (p' :: l') ->
  x p = x p' /\ y p = y p' /\ map triple l = map triple l'.
Proof.
  cbn [map]. unfold triple at 1 3. intros E.
  repeat split; congruence.
Qed.

Lemma path_length_triple l l' :
  map triple l = map triple l' -> path_length l = path_length l'.
Proof.
  revert l'. induction l as [|p l IH]; intros [|p' l'] E; try discriminate;
    [reflexivity|].
  apply map_triple_cons in E as (Ex & Ey & El).
  destruct l as [|q l], l' as [|q' l']; try discriminate; [reflexivity|].
  change (path_length (p :: q :: l))
    with (distance p q + path_length (q :: l))%R.
  change (path_length (p' :: q' :: l'))
    with (distance p' q' + path_length (q' :: l'))%R.
  rewrite (IH (q' :: l')) by assumption.
  apply map_triple_cons in El as (Ex' & Ey' & _).
  unfold distance. rewrite Ex, Ey, Ex', Ey'. reflexivity.
Qed.

Lemma tour_length_triple l l' :
  map triple l = map triple l' -> tour_length l = tour_length l'.
Proof.
  intros E. rewrite !tour_length_path. apply path_length_triple.
  rewrite !map_app, E. f_equal.
  destruct l, l'; try discriminate; [reflexivity|].
  cbn [map hd] in *. congruence.
Qed.

Lemma size_triple (l l' : list Point) :
  Permutation (map triple l) (map triple l') -> size l' = size l.
Proof.
  intros E. apply Permutation_length in E. rewrite !length_map in E.
  unfold size; lia.
Qed.

Lemma pass_post_perm gainf r r' :
  pass_post gainf r r' ->
  Permutation (map triple (run_tour r)) (map triple (run_tour r')).
Proof.
  intros (_ & _ & [(_ & _ & E)|(_ & i & j & g & t & _ & _ & _ & _ & _ & _ & Es & E)]).
  - rewrite E; reflexivity.
  - rewrite E. apply Permutation_map, perform_2opt_swap_perm with (1 := Es).
Qed.

(** The invariant of a run that accepts swaps on the gain [gainf]. *)
Definition run_inv (gainf : list Point -> Z -> Z -> option R)
  (tour0 : list Point) (r : Run) : Prop :=
  sized (run_tour r) /\
  Permutation (map triple tour0) (map triple (run_tour r)) /\
  initial_length (run_stats r) = tour_length tour0 /\
  0 <= iterations (run_stats r) <= max_iterations /\
  accepted gainf tour0 (swaps r) (run_tour r).

Lemma run_inv_pass gainf tour0 r r' :
  run_inv gainf tour0 r -> iterations (run_stats r) < max_iterations ->
  pass_post gainf r r' ->
  run_inv gainf tour0 r'.
Proof.
  intros (Hn & Hp & Hi & Hit & Ha) Hlt Hpost.
  pose proof (pass_post_perm _ _ _ Hpost) as Hp'.
  assert (Hs : size (run_tour r') = size (run_tour r))
    by (apply size_triple; assumption).
  destruct Hpost as (Ei & Eit & Hcase).
  unfold max_iterations in *.
  split; [unfold sized in *; rewrite Hs; assumption|].
  split; [etransitivity; eassumption|].
  split; [congruence|].
  split; [unfold max_iterations; rewrite Eit, incr_small; lia|].
  destruct Hcase as [(_ & Esw & E)|(_ & i & j & g & t & Esw & H0 & H1 & H2 & Eg & Hg & Es & E)].
  - rewrite Esw. eapply accepted_triple; eassumption.
  - rewrite Esw. eapply accepted_swap; eassumption.
Qed.

(** The state before the first pass: the tour given, but for the
    activation bits. *)
Lemma run_inv_start gainf tour tour' t :
  sized tour -> map triple tour' = map triple tour ->
  run_inv gainf tour
    (mkRun tour' (set_initial_length (tour_length tour) zero_stats) true t []).
Proof.
  intros Hn E. unfold run_inv; cbn.
  assert (Hs : size tour' = size tour)
    by (apply size_triple; rewrite E; reflexivity).
  split; [unfold sized in *; rewrite Hs; exact Hn|].
  split; [rewrite E; reflexivity|].
  split; [reflexivity|].
  split; [unfold max_iterations; lia|].
  apply accepted_none, E.
Qed.

Lemma pass_post_iterations gainf r r' :
  0 <= iterations (run_stats r) < max_iterations ->
  pass_post gainf r r' ->
  iterations (run_stats r') = iterations (run_stats r) + 1.
Proof.
  unfold max_iterations. intros H (_ & -> & _). apply incr_small; lia.
Qed.

(** The run of [basic_2opt], pass by pass. *)
Lemma basic_run tour passes :
  sized tour ->
  exists r,
    basic_2opt_passes passes tour = Some r /\
    run_inv calculate_2opt_gain tour r /\
    (run_improved r = false -> local_minimum (run_tour r)) /\
    (max_iterations <= Z.of_nat passes ->
     run_improved r = false \/ max_iterations <= iterations (run_stats r)).
Proof.
  intros Hn. unfold basic_2opt_passes.
  destruct (while_improving_total
    (fun r => run_inv calculate_2opt_gain tour r /\
              (run_improved r = false -> local_minimum (run_tour r)))
    basic_pass) with (k := passes) (r := start_run tour empty_tree)
    as (r & E & [Hr Hm] & Hx).
  - intros r [Hr Hm] Hi Hlt.
    destruct (basic_pass_spec r) as (r' & E & Hpost & Hmin); [apply Hr|].
    exists r'. split; [assumption|]. split; [split|].
    + eapply run_inv_pass; eassumption.
    + assumption.
    + eapply pass_post_iterations; [|eassumption].
      destruct Hr as (_ & _ & _ & Hit & _). lia.
  - split; [unfold start_run; apply run_inv_start; [assumption|reflexivity]|].
    cbn. discriminate.
  - exists r. split; [assumption|]. split; [assumption|].
    split; [assumption|]. intros H. apply Hx. cbn. lia.
Qed.

(** * The activation bits *)

Lemma activate_triple tour idx tour' :
  activate tour idx = Some tour' -> map triple tour' = map triple tour.
Proof.
  unfold activate. destruct (at_ tour idx) as [p|] eqn:E; [|discriminate].
  destruct (nth_error_split_at _ _ _ E) as (u & w & -> & <-).
  rewrite assign_middle. intros E'; injection E' as <-.
  rewrite !map_app. reflexivity.
Qed.

Lemma activate_total tour idx :
  0 <= idx < size tour -> exists tour', activate tour idx = Some tour'.
Proof.
  intros H. unfold activate.
  destruct (at_in_range tour idx H) as (p & E). rewrite E.
  destruct (nth_error_split_at _ _ _ E) as (u & w & -> & <-).
  rewrite assign_middle. eauto.
Qed.

Lemma size_map_triple (l l' : list Point) :
  map triple l' = map triple l -> size l' = size l.
Proof. intros E. apply size_triple. rewrite E. reflexivity. Qed.

Lemma activate_around_triple n best offset tour tour' :
  activate_around n best offset tour = Some tour' ->
  map triple tour' = map triple tour.
Proof.
  unfold activate_around. destruct (umod _ n); [|discriminate].
  apply activate_triple.
Qed.

Lemma activate_around_total n best offset tour :
  0 < n -> size tour = n ->
  exists tour', activate_around n best offset tour = Some tour'.
Proof.
  intros Hn Hs. unfold activate_around, umod.
  destruct (Z.eqb_spec n 0); [lia|].
  apply activate_total. rewrite Hs. apply Z.mod_pos_bound. lia.
Qed.

Lemma activate_neighborhood_triple offsets i j tour tour' :
  activate_neighborhood offsets i j tour = Some tour' ->
  map triple tour' = map triple tour.
Proof.
  unfold activate_neighborhood.
  apply (for_each_inv (fun t => map triple t = map triple tour)); [|reflexivity].
  intros offset t t' Ht E.
  destruct (activate_around (size tour) i offset t) as [t1|] eqn:E1;
    [|discriminate].
  apply activate_around_triple in E1, E. congruence.
Qed.

Lemma activate_neighborhood_total offsets i j tour :
  0 < size tour ->
  exists tour', activate_neighborhood offsets i j tour = Some tour'.
Proof.
  intros Hn. unfold activate_neighborhood.
  destruct (for_each_total (fun t => map triple t = map triple tour)
    (fun offset t =>
       t <- activate_around (size tour) i offset t ;;
       activate_around (size tour) j offset t) offsets) with (s := tour)
    as (t & E & _); [|reflexivity|eauto].
  intros offset t _ Ht.
  destruct (activate_around_total (size tour) i offset t) as (t1 & E1);
    [assumption|apply size_map_triple; assumption|].
  rewrite E1. pose proof (activate_around_triple _ _ _ _ _ E1) as H1.
  destruct (activate_around_total (size tour) j offset t1) as (t2 & E2);
    [assumption|apply size_map_triple; congruence|].
  rewrite E2. pose proof (activate_around_triple _ _ _ _ _ E2) as H2.
  exists t2; split; [reflexivity|congruence].
Qed.

Lemma collect_active_range tour :
  forall pos,
    Forall (fun i => pos <= i < pos + size tour) (collect_active tour pos).
Proof.
  induction tour as [|p tour IH]; intros pos; cbn [collect_active];
    [constructor|].
  specialize (IH (pos + 1)).
  assert (H : Forall (fun i => pos <= i < pos + size (p :: tour))
                     (collect_active tour (pos + 1))).
  { eapply Forall_impl; [|exact IH]. cbn beta. intros i. sizes. lia. }
  destruct (active p); [constructor; [sizes; lia|]|]; assumption.
Qed.

Lemma collect_active_size tour pos :
  size (collect_active tour pos) <= size tour.
Proof.
  revert pos. induction tour as [|p tour IH]; intros pos;
    cbn [collect_active]; [unfold size; simpl; lia|].
  specialize (IH (pos + 1)). destruct (active p); sizes; lia.
Qed.

Lemma eligible_true n i j :
  0 <= i -> i + 1 < 2 ^ 64 -> eligible n i j = true -> i + 2 <= j.
Proof.
  intros Hi Hw. unfold eligible. rewrite wrap_small by lia.
  destruct (Z.ltb_spec (i + 1) j); cbn [andb]; [intros; lia|discriminate].
Qed.

(** * approximate_2opt *)

Lemma approximate_search_spec tour b :
  sized tour ->
  best_inv calculate_2opt_gain tour b ->
  exists b',
    approximate_search tour (collect_active tour 0) b = Some b' /\
    best_inv calculate_2opt_gain tour b'.
Proof.
  intros Hn Hb. unfold approximate_search.
  set (ai := collect_active tour 0).
  pose proof (collect_active_size tour 0) as Hm. fold ai in Hm.
  pose proof (collect_active_range tour 0) as Hr. fold ai in Hr.
  rewrite Forall_forall in Hr.
  pose proof (size_nonneg ai).
  destruct (for_range_total
    (fun _ b => best_inv calculate_2opt_gain tour b)
    (fun idx_i b =>
       i <- at_ ai idx_i ;;
       for_range (wrap (idx_i + 1)) (size ai) (fun idx_j b =>
         j <- at_ ai idx_j ;;
         if eligible (size tour) i j then
           gain <- calculate_2opt_gain tour i j ;;
           Some (consider gain i j b)
         else Some b) b) 0 (size ai)) with (s := b) as (b' & E & Hb');
    [lia|unfold sized in Hn; lia| |assumption|eauto].
  intros idx_i s Hi Hs.
  destruct (at_in_range ai idx_i Hi) as (i & Ei). rewrite Ei.
  pose proof (Hr i (at_In _ _ _ Ei)) as Ri.
  rewrite wrap_small by (unfold sized in Hn; lia).
  apply (for_range_total (fun _ b => best_inv calculate_2opt_gain tour b));
    [lia|unfold sized in Hn; lia| |assumption].
  intros idx_j t Hj Ht.
  destruct (at_in_range ai idx_j) as (j & Ej); [lia|]. rewrite Ej.
  pose proof (Hr j (at_In _ _ _ Ej)) as Rj.
  destruct (eligible (size tour) i j) eqn:El; [|eauto].
  apply eligible_true in El; [|lia|unfold sized in Hn; lia].
  destruct (calculate_2opt_gain_total tour i j) as (g & Eg);
    [apply (sized_64 _ Hn)|lia|lia|lia|].
  rewrite Eg. eexists; split; [reflexivity|].
  apply consider_inv; auto; lia.
Qed.

Lemma random_top_up_triple rand it from upto tour tour' :
  random_top_up rand it from upto tour = Some tour' ->
  map triple tour' = map triple tour.
Proof.
  unfold random_top_up.
  apply (for_range_inv (fun t => map triple t = map triple tour));
    [|reflexivity].
  intros k t t' Ht E. apply activate_triple in E. congruence.
Qed.

Lemma random_top_up_total rand it from upto tour :
  sized tour -> 0 <= from -> upto <= size tour ->
  exists tour', random_top_up rand it from upto tour = Some tour'.
Proof.
  intros Hn Hf Hu. unfold random_top_up.
  destruct (Z.le_gt_cases upto from) as [H|H].
  { rewrite for_range_empty by assumption. eauto. }
  destruct (for_range_total (fun _ t => map triple t = map triple tour)
    (fun k t => activate t (rand it k mod (wrap (size tour - 1) + 1)))
    from upto) with (s := tour) as (t & E & _);
    [lia|unfold sized in Hn; lia| |reflexivity|eauto].
  intros k t Hk Ht.
  destruct (activate_total t (rand it k mod (wrap (size tour - 1) + 1)))
    as (t' & E).
  - rewrite (size_map_triple _ _ Ht).
    rewrite wrap_small by (unfold sized in Hn; lia).
    replace (size tour - 1 + 1) with (size tour) by lia.
    apply Z.mod_pos_bound. unfold sized in Hn; lia.
  - exists t'; split; [assumption|].
    apply activate_triple in E. congruence.
Qed.

Lemma approximate_pass_spec rand r :
  sized (run_tour r) ->
  exists r',
    approximate_pass rand r = Some r' /\
    pass_post calculate_2opt_gain r r'.
Proof.
  intros Hn. unfold approximate_pass.
  set (stats := set_active_nodes _ _).
  destruct (approximate_search_spec (run_tour r)
              (mkBest min_improvement 0 0 (total_comparisons stats)))
    as (b & -> & [Hm Hb]); [exact Hn|apply best_inv_start|].
  destruct (Rltb_spec min_improvement (best_gain b)) as [Hg|Hg].
  - destruct (Hb Hg) as (Hi & Hij & Hj & Eg).
    destruct (perform_2opt_swap_total (run_tour r) (best_i b) (best_j b))
      as (tour' & E); try lia; [apply (sized_64 _ Hn)|].
    rewrite E.
    pose proof (perform_2opt_swap_perm _ _ _ _ E) as Hp.
    assert (Hs : size tour' = size (run_tour r)).
    { unfold size. rewrite (Permutation_length Hp). reflexivity. }
    destruct (activate_neighborhood_total [-2; -1; 0; 1; 2]
                (best_i b) (best_j b) (map (set_active false) tour'))
      as (t & Et).
    { unfold size. rewrite length_map. fold (size tour').
      rewrite Hs. unfold sized in Hn; lia. }
    rewrite Et. eexists; split; [reflexivity|].
    split; [reflexivity|]. split; [reflexivity|]. right.
    split; [reflexivity|].
    exists (best_i b), (best_j b), (best_gain b), tour'.
    repeat split; auto. cbn [run_tour].
    apply activate_neighborhood_triple in Et.
    rewrite Et. apply map_triple_set_active.
  - set (ai := collect_active (run_tour r) 0).
    destruct (random_top_up_total rand (iterations
                (set_total_comparisons (comparisons b) stats)) (size ai)
                (Z.min (size (run_tour r)) (wrap (size ai + 10)))
                (run_tour r)) as (t & Et);
      [assumption|apply size_nonneg|lia|].
    rewrite Et. eexists; split; [reflexivity|].
    split; [reflexivity|]. split; [reflexivity|]. left.
    repeat split; auto. cbn [run_tour].
    apply random_top_up_triple in Et. assumption.
Qed.

(** * The k-d tree *)

Fixpoint tree_points (nd : KDNode) : list Point :=
  match nd with
  | null => []
  | node p l r _ => p :: tree_points l ++ tree_points r
  end.

(** The left subtree holds nothing above the point of the node on the axis
    of the node, the right subtree nothing below. *)
Fixpoint kd_ok (nd : KDNode) : Prop :=
  match nd with
  | null => True
  | node p l r depth =>
      let axis := Z.rem depth 2 =? 0 in
      Forall (fun a => less axis p a = false) (tree_points l) /\
      Forall (fun b => less axis b p = false) (tree_points r) /\
      kd_ok l /\ kd_ok r
  end.

Lemma less_strict_weak axis : strict_weak (less axis).
Proof.
  split.
  - intros a b. unfold less.
    destruct axis;
      [destruct (Rltb_spec (x a) (x b))|destruct (Rltb_spec (y a) (y b))];
      try discriminate; intros _; apply Rltb_false; lra.
  - intros a b c. unfold less.
    destruct axis.
    + destruct (Rltb_spec (x a) (x c)); [|discriminate]. intros _.
      destruct (Rltb_spec (x a) (x b)); [left; reflexivity|right].
      apply Rltb_true; lra.
    + destruct (Rltb_spec (y a) (y c)); [|discriminate]. intros _.
      destruct (Rltb_spec (y a) (y b)); [left; reflexivity|right].
      apply Rltb_true; lra.
Qed.

Lemma list_eq_dec_nil {A} (l : list A) : l = [] \/ l <> [].
Proof. destruct l; [left; reflexivity|right; discriminate]. Qed.

Section Build.
Context `{StdNthElement}.

Lemma build_range_spec (fuel : nat) :
  forall seg pre post depth,
    (length seg <= fuel)%nat ->
    size (pre ++ seg ++ post) < 2 ^ 63 ->
    exists nd seg',
      build_range fuel (pre ++ seg ++ post) depth
        (size pre) (size pre + size seg)
      = Some (nd, pre ++ seg' ++ post) /\
      Permutation seg seg' /\
      Permutation (tree_points nd) seg /\
      kd_ok nd.
Proof.
  induction fuel as [|fuel IH]; intros seg pre post depth Hf Hn.
  - destruct seg; [|simpl in Hf; lia].
    exists null, []. cbn [build_range].
    destruct (Z.leb_spec (size pre + size (@nil Point)) (size pre));
      [|sizes; lia].
    repeat split; auto; constructor.
  - cbn [build_range].
    destruct (Z.leb_spec (size pre + size seg) (size pre)) as [He|He].
    { assert (seg = []) by (destruct seg; [reflexivity|sizes; lia]). subst.
      exists null, []. repeat split; auto; constructor. }
    set (nth := (length seg / 2)%nat).
    assert (Hnth : (nth < length seg)%nat).
    { subst nth. apply Nat.Div0.div_lt_upper_bound.
      destruct seg; [sizes; lia|]. simpl length. lia. }
    assert (Hmid : wrap (size pre + (size pre + size seg)) / 2
                   = size pre + Z.of_nat nth).
    { rewrite wrap_small by (sizes; lia).
      subst nth. rewrite Nat2Z.inj_div. unfold size. simpl Z.of_nat.
      replace (Z.of_nat (length pre) + (Z.of_nat (length pre) + Z.of_nat (length seg)))
        with (Z.of_nat (length seg) + Z.of_nat (length pre) * 2) by lia.
      rewrite Z.div_add by lia. lia. }
    rewrite Hmid.
    destruct (nth_element_spec (less (Z.rem depth 2 =? 0)) pre seg post nth
                (less_strict_weak _) Hnth)
      as (lo & p & hi & -> & Hlo & Hperm & Flo & Fhi).
    assert (Hlen : length seg = (length lo + S (length hi))%nat).
    { rewrite (Permutation_length Hperm), length_app. reflexivity. }
    replace (size pre + Z.of_nat nth) with (size (pre ++ lo))
      by (sizes; unfold size; lia).
    assert (EL : pre ++ (lo ++ p :: hi) ++ post = pre ++ lo ++ p :: hi ++ post)
      by (rewrite <- app_assoc; reflexivity).
    rewrite EL.
    assert (Eat : at_ (pre ++ lo ++ p :: hi ++ post) (size (pre ++ lo))
                  = Some p) by (rewrite app_assoc; apply at_middle).
    rewrite Eat.
    destruct (IH lo pre (p :: hi ++ post) (depth + 1))
      as (l & lo' & El & Pl & Tl & Kl).
    { lia. }
    { revert Hn. sizes. unfold size in *.
      rewrite (Permutation_length Hperm), length_app. simpl length. lia. }
    replace (size (pre ++ lo)) with (size pre + size lo) by (sizes; lia).
    rewrite El.
    replace (wrap (size pre + size lo + 1)) with (size ((pre ++ lo') ++ [p])).
    2:{ rewrite wrap_small.
        - sizes. unfold size. rewrite (Permutation_length Pl). lia.
        - revert Hn. sizes. unfold size in *.
          rewrite (Permutation_length Hperm), length_app. simpl length. lia. }
    replace (size pre + size seg) with (size ((pre ++ lo') ++ [p]) + size hi).
    2:{ sizes. unfold size. rewrite <- (Permutation_length Pl), Hlen. lia. }
    replace (pre ++ lo' ++ p :: hi ++ post)
      with (((pre ++ lo') ++ [p]) ++ hi ++ post)
      by (rewrite <- !app_assoc; reflexivity).
    destruct (IH hi ((pre ++ lo') ++ [p]) post (depth + 1))
      as (r & hi' & Er & Pr & Tr & Kr).
    { lia. }
    { revert Hn. sizes. unfold size in *.
      rewrite (Permutation_length Hperm), length_app,
        <- (Permutation_length Pl). simpl length. lia. }
    rewrite Er.
    exists (node p l r depth), (lo' ++ p :: hi').
    split; [rewrite <- !app_assoc; reflexivity|].
    split.
    { rewrite Hperm. apply Permutation_app; [assumption|].
      constructor; assumption. }
    split.
    { cbn [tree_points]. rewrite Hperm, Tl, Tr.
      apply Permutation_middle. }
    cbn [kd_ok]. repeat split; auto.
    + rewrite Tl. assumption.
    + rewrite Tr. assumption.
Qed.

Lemma build_spec t points :
  points <> [] -> size points < 2 ^ 63 ->
  exists nd,
    build t points = Some (mkKDTree nd (size points) 0) /\
    Permutation (tree_points nd) points /\ kd_ok nd.
Proof.
  intros Hne Hn.
  destruct (build_range_spec (length points) points [] [] 0)
    as (nd & seg' & E & _ & Hp & Hk); [lia|rewrite app_nil_r; exact Hn|].
  cbn [app] in E. rewrite !app_nil_r in E.
  change (size (@nil Point)) with 0 in E. rewrite Z.add_0_l in E.
  unfold build. destruct points as [|p0 points]; [contradiction|].
  rewrite E. exists nd. auto.
Qed.

Lemma build_total t points :
  size points < 2 ^ 63 -> exists t', build t points = Some t'.
Proof.
  intros Hn. destruct (list_eq_dec_nil points) as [->|Hne].
  - simpl; eauto.
  - destruct (build_spec t points Hne Hn) as (nd & -> & _). eauto.
Qed.

End Build.

(** * Fixed-radius search *)

Definition within (query : Point) (radius : R) (p : Point) : Prop :=
  (distance_squared p query <= radius * radius)%R.

Lemma square_le (a b : R) : (0 <= a <= b)%R -> (a * a <= b * b)%R.
Proof. intros; apply Rmult_le_compat; lra. Qed.

Lemma far_side_right (axis : bool) (p b query : Point) (radius : R) :
  let diff := if axis then (x query - x p)%R else (y query - y p)%R in
  (diff <= 0)%R -> less axis b p = false ->
  (radius * radius < diff * diff)%R -> ~ within query radius b.
Proof.
  intros diff Hd Hl Hr. unfold within, distance_squared.
  unfold less in Hl. subst diff.
  pose proof (Rle_0_sqr (x b - x query)) as Sx.
  pose proof (Rle_0_sqr (y b - y query)) as Sy.
  unfold Rsqr in Sx, Sy.
  destruct axis.
  - destruct (Rltb_spec (x b) (x p)); [discriminate|].
    pose proof (square_le (x p - x query) (x b - x query)).
    replace ((x query - x p) * (x query - x p))%R
      with ((x p - x query) * (x p - x query))%R in Hr by ring.
    lra.
  - destruct (Rltb_spec (y b) (y p)); [discriminate|].
    pose proof (square_le (y p - y query) (y b - y query)).
    replace ((y query - y p) * (y query - y p))%R
      with ((y p - y query) * (y p - y query))%R in Hr by ring.
    lra.
Qed.

Lemma far_side_left (axis : bool) (p a query : Point) (radius : R) :
  let diff := if axis then (x query - x p)%R else (y query - y p)%R in
  (0 < diff)%R -> less axis p a = false ->
  (radius * radius < diff * diff)%R -> ~ within query radius a.
Proof.
  intros diff Hd Hl Hr. unfold within, distance_squared.
  unfold less in Hl. subst diff.
  pose proof (Rle_0_sqr (x a - x query)) as Sx.
  pose proof (Rle_0_sqr (y a - y query)) as Sy.
  unfold Rsqr in Sx, Sy.
  destruct axis.
  - destruct (Rltb_spec (x p) (x a)); [discriminate|].
    pose proof (square_le (x query - x p) (x query - x a)).
    replace ((x a - x query) * (x a - x query))%R
      with ((x query - x a) * (x query - x a))%R in * by ring.
    lra.
  - destruct (Rltb_spec (y p) (y a)); [discriminate|].
    pose proof (square_le (y query - y p) (y query - y a)).
    replace ((y a - y query) * (y a - y query))%R
      with ((y query - y a) * (y query - y a))%R in * by ring.
    lra.
Qed.

(** [find_neighbors_frnn] appends to [neighbors] the points of the subtree
    that lie within the radius, and no other. *)
Lemma find_neighbors_frnn_spec nd query radius :
  kd_ok nd ->
  forall neighbors visited,
  exists found visited',
    find_neighbors_frnn nd query radius (neighbors, visited)
    = (neighbors ++ found, visited') /\
    forall p, In p found <-> In p (tree_points nd) /\ within query radius p.
Proof.
  induction nd as [|p l IHl r IHr depth]; intros Hk neighbors visited.
  - exists [], visited. cbn. rewrite app_nil_r. split; [reflexivity|].
    intros p; tauto.
  - destruct Hk as (Fl & Fr & Kl & Kr).
    specialize (IHl Kl). specialize (IHr Kr).
    cbn [find_neighbors_frnn tree_points].
    set (axis := Z.rem depth 2 =? 0) in *.
    set (diff := if axis then (x query - x p)%R else (y query - y p)%R).
    set (rr := (radius * radius)%R).
    assert (exists here,
      (if Rleb (distance_squared p query) rr then neighbors ++ [p]
       else neighbors) = neighbors ++ here /\
      forall p', In p' here <-> p' = p /\ within query radius p')
      as (here & -> & Hhere).
    { destruct (Rleb_spec (distance_squared p query) rr) as [Hw|Hw].
      - exists [p]. split; [reflexivity|]. intros p'. cbn. split.
        + intros [<-|[]]. split; [reflexivity|exact Hw].
        + intros [-> _]. left; reflexivity.
      - exists []. rewrite app_nil_r. split; [reflexivity|].
        intros p'. cbn. split; [tauto|]. intros [-> Hw']. apply Hw, Hw'. }
    rewrite Forall_forall in Fl, Fr.
    destruct (Rleb_spec diff 0) as [Hd|Hd].
    + destruct (IHl (neighbors ++ here) (incr visited)) as (fl & vl & -> & Hfl).
      destruct (Rleb_spec (diff * diff) rr) as [Hp|Hp].
      * destruct (IHr ((neighbors ++ here) ++ fl) vl) as (fr & vr & -> & Hfr).
        exists (here ++ fl ++ fr), vr.
        split; [rewrite <- !app_assoc; reflexivity|].
        intros p'. rewrite !in_app_iff, Hhere, Hfl, Hfr. cbn [In].
        rewrite in_app_iff. intuition (subst; auto).
      * exists (here ++ fl), vl.
        split; [rewrite <- !app_assoc; reflexivity|].
        intros p'. rewrite !in_app_iff, Hhere, Hfl. cbn [In].
        rewrite in_app_iff. split; [intuition (subst; auto)|].
        intros [[E|[Hi|Hi]] Hw]; auto.
        exfalso.
        apply (far_side_right axis p p' query radius);
          [exact Hd|apply Fr, Hi|fold diff rr; lra|exact Hw].
    + destruct (IHr (neighbors ++ here) (incr visited)) as (fr & vr & -> & Hfr).
      destruct (Rleb_spec (diff * diff) rr) as [Hp|Hp].
      * destruct (IHl ((neighbors ++ here) ++ fr) vr) as (fl & vl & -> & Hfl).
        exists (here ++ fr ++ fl), vl.
        split; [rewrite <- !app_assoc; reflexivity|].
        intros p'. rewrite !in_app_iff, Hhere, Hfl, Hfr. cbn [In].
        rewrite in_app_iff. intuition (subst; auto).
      * exists (here ++ fr), vr.
        split; [rewrite <- !app_assoc; reflexivity|].
        intros p'. rewrite !in_app_iff, Hhere, Hfr. cbn [In].
        rewrite in_app_iff. split; [intuition (subst; auto)|].
        intros [[E|[Hi|Hi]] Hw]; auto.
        exfalso.
        apply (far_side_left axis p p' query radius);
          [fold diff; lra|apply Fl, Hi|fold diff rr; lra|exact Hw].
Qed.

Lemma find_neighbors_spec t query radius :
  kd_ok (root t) ->
  forall p, In p (fst (find_neighbors t query radius))
            <-> In p (tree_points (root t)) /\ within query radius p.
Proof.
  intros Hk p. unfold find_neighbors.
  destruct (find_neighbors_frnn_spec (root t) query radius Hk [] 0)
    as (found & v & -> & Hf).
  cbn [fst app]. apply Hf.
Qed.

(** * geometric_2opt *)

Lemma find_if_id_range tour k j :
  find_if_id tour k = Some j -> 0 <= j < size tour.
Proof.
  revert j. induction tour as [|p tour IH]; intros j; cbn [find_if_id];
    [discriminate|].
  destruct (id p =? k).
  - intros E; injection E as <-. sizes; lia.
  - destruct (find_if_id tour k) as [j'|]; [|discriminate].
    intros E; injection E as <-. specialize (IH j' eq_refl). sizes; lia.
Qed.

Lemma geometric_candidates_spec tour i neighbors b :
  sized tour -> 0 <= i < size tour ->
  best_inv calculate_2opt_gain tour b ->
  exists b',
    geometric_candidates tour i neighbors b = Some b' /\
    best_inv calculate_2opt_gain tour b'.
Proof.
  intros Hn Hi Hb. unfold geometric_candidates.
  apply (for_each_total (best_inv calculate_2opt_gain tour)); [|assumption].
  intros neighbor s _ Hs.
  destruct (find_if_id tour (id neighbor)) as [j|] eqn:Ej; [|eauto].
  apply find_if_id_range in Ej.
  destruct (eligible (size tour) i j) eqn:El; [|eauto].
  apply eligible_true in El; [|lia|unfold sized in Hn; lia].
  destruct (calculate_2opt_gain_total tour i j) as (g & Eg);
    [apply (sized_64 _ Hn)|lia|lia|lia|].
  rewrite Eg. eexists; split; [reflexivity|].
  apply consider_inv; auto; lia.
Qed.

Lemma geometric_search_spec tour kdtree b :
  sized tour ->
  best_inv calculate_2opt_gain tour b ->
  exists b' kdtree',
    geometric_search tour kdtree b = Some (b', kdtree') /\
    best_inv calculate_2opt_gain tour b'.
Proof.
  intros Hn Hb. unfold geometric_search.
  pose proof (sized_64 _ Hn) as Hn'.
  rewrite (wrap_small (size tour - 2)) by lia.
  match goal with
  | |- context [for_range 0 _ ?body _] =>
      destruct (for_range_total
        (fun _ (s : Best * KDTree) => best_inv calculate_2opt_gain tour (fst s))
        body 0 (size tour - 2)) with (s := (b, kdtree))
        as ([b' kd'] & E & Hb')
  end; [lia|lia| |assumption|eauto].
  intros i [s kd] Hi Hs. cbn [fst] in Hs.
  assert (Hm : forall a, 0 <= a mod size tour < size tour)
    by (intros; apply Z.mod_pos_bound; lia).
  destruct (at_in_range tour i) as (ti & ->); [lia|].
  unfold umod. destruct (Z.eqb_spec (size tour) 0); [lia|].
  destruct (at_in_range tour (wrap (i + 1) mod size tour)) as (t1 & ->);
    [apply Hm|].
  destruct (at_in_range tour (wrap (wrap (i + size tour) - 1) mod size tour))
    as (t2 & ->); [apply Hm|].
  destruct (find_neighbors kd ti _) as [nb kd1].
  match goal with
  | |- context [if ?c then ?a else ?b'] =>
      destruct (if c then a else b') as [nb2 kd2]
  end.
  destruct (geometric_candidates_spec tour i nb2 s) as (s' & -> & Hs');
    [assumption|lia|assumption|].
  exists (s', kd2). split; [reflexivity|assumption].
Qed.

Section Geometric.
Context `{StdNthElement}.

Lemma geometric_pass_spec r :
  sized (run_tour r) ->
  exists r',
    geometric_pass r = Some r' /\ pass_post calculate_2opt_gain r r'.
Proof.
  intros Hn. unfold geometric_pass.
  set (stats := set_iterations _ _).
  destruct (geometric_search_spec (run_tour r)
              (reset_nodes_visited (run_kdtree r))
              (mkBest min_improvement 0 0 (total_comparisons stats)))
    as (b & kd & -> & [Hm Hb]); [exact Hn|apply best_inv_start|].
  destruct (Rltb_spec min_improvement (best_gain b)) as [Hg|Hg].
  - destruct (Hb Hg) as (Hi & Hij & Hj & Eg).
    destruct (perform_2opt_swap_total (run_tour r) (best_i b) (best_j b))
      as (tour' & E); try lia; [apply (sized_64 _ Hn)|].
    rewrite E.
    pose proof (perform_2opt_swap_perm _ _ _ _ E) as Hp.
    assert (Hs : size tour' = size (run_tour r)).
    { unfold size. rewrite (Permutation_length Hp). reflexivity. }
    match goal with
    | |- context [if ?c then build ?k ?t else Some ?k] =>
        assert (exists k', (if c then build k t else Some k) = Some k')
          as (k' & ->)
          by (destruct c; [apply build_total; rewrite Hs; apply Hn|eauto])
    end.
    eexists; split; [reflexivity|].
    split; [reflexivity|]. split; [reflexivity|]. right.
    split; [reflexivity|].
    exists (best_i b), (best_j b), (best_gain b), tour'.
    repeat split; auto.
  - eexists; split; [reflexivity|].
    split; [reflexivity|]. split; [reflexivity|]. left.
    repeat split; reflexivity.
Qed.

End Geometric.

(** * hybrid_2opt *)

(** The loop of [find_neighbors_adaptive] ends once the radius has been
    raised to 2. *)
Lemma adaptive_loop_total fuel query min_neighbors :
  forall t radius neighbors,
    (2 <= radius * 1.5 ^ fuel)%R ->
    exists found t',
      adaptive_loop fuel t query min_neighbors radius neighbors
      = Some (found, t').
Proof.
  induction fuel as [|fuel IH]; intros t radius neighbors Hr;
    cbn [adaptive_loop].
  - destruct (Rltb_spec radius 2) as [Hlt|Hge].
    + simpl in Hr. lra.
    + rewrite andb_false_r. eauto.
  - destruct ((size neighbors <? min_neighbors) && Rltb radius 2); [|eauto].
    destruct (find_neighbors_frnn (root t) query radius ([], 0)) as [nb v].
    destruct (Z.ltb_spec (size nb) min_neighbors) as [Hlt|Hge].
    + apply IH. simpl in Hr. lra.
    + destruct fuel; cbn [adaptive_loop];
        (destruct (Z.ltb_spec (size nb) min_neighbors); [lia|]);
        cbn [andb]; eauto.
Qed.

Lemma fmax_ge a b : (b <= fmax a b)%R.
Proof. unfold fmax. destruct (Rltb_spec a b); lra. Qed.

Lemma adaptive_budget_enough t query radius min_neighbors :
  (0.15 <= radius)%R ->
  exists found t',
    find_neighbors_adaptive adaptive_budget t query radius min_neighbors
    = Some (found, t').
Proof.
  intros Hr. apply adaptive_loop_total.
  unfold adaptive_budget. simpl. lra.
Qed.

Lemma hybrid_candidates_spec tour i neighbors b :
  sized tour -> 0 <= i < size tour ->
  best_inv calculate_2opt_gain_fast tour b ->
  exists b',
    hybrid_candidates tour i neighbors b = Some b' /\
    best_inv calculate_2opt_gain_fast tour b'.
Proof.
  intros Hn Hi Hb. unfold hybrid_candidates.
  apply (for_each_total (best_inv calculate_2opt_gain_fast tour));
    [|assumption].
  intros neighbor s _ Hs.
  destruct (find_if_id tour (id neighbor)) as [j|] eqn:Ej; [|eauto].
  apply find_if_id_range in Ej.
  destruct (eligible (size tour) i j) eqn:El; [|eauto].
  apply eligible_true in El; [|lia|unfold sized in Hn; lia].
  destruct (at_in_range tour j Ej) as (tj & ->).
  destruct (active tj); [|eauto].
  destruct (calculate_2opt_gain_fast_total tour i j) as (g & Eg);
    [apply (sized_64 _ Hn)|lia|lia|lia|].
  rewrite Eg. eexists; split; [reflexivity|].
  apply consider_inv; auto; lia.
Qed.

Lemma hybrid_search_spec tour kdtree b :
  sized tour ->
  best_inv calculate_2opt_gain_fast tour b ->
  exists b' kdtree',
    hybrid_search tour (collect_active tour 0) kdtree b = Some (b', kdtree') /\
    best_inv calculate_2opt_gain_fast tour b'.
Proof.
  intros Hn Hb. unfold hybrid_search.
  pose proof (sized_64 _ Hn) as Hn'.
  pose proof (collect_active_range tour 0) as Hr.
  rewrite Forall_forall in Hr.
  match goal with
  | |- context [for_each _ ?body _] =>
      destruct (for_each_total
        (fun (s : Best * KDTree) =>
           best_inv calculate_2opt_gain_fast tour (fst s))
        body (collect_active tour 0)) with (s := (b, kdtree))
        as ([b' kd'] & E & Hb')
  end; [|assumption|eauto].
  intros i [s kd] Hi Hs. cbn [fst] in Hs. apply Hr in Hi.
  destruct (wrap (size tour - 2) <=? i); [eauto|].
  assert (Hm : forall a, 0 <= a mod size tour < size tour)
    by (intros; apply Z.mod_pos_bound; lia).
  destruct (at_in_range tour i) as (ti & ->); [lia|].
  unfold umod. destruct (Z.eqb_spec (size tour) 0); [lia|].
  destruct (at_in_range tour (wrap (i + 1) mod size tour)) as (t1 & ->);
    [apply Hm|].
  destruct (adaptive_budget_enough kd ti
              (fmax (distance ti t1 * 4) 0.15) 8) as (nb & kd1 & ->);
    [apply fmax_ge|].
  destruct (hybrid_candidates_spec tour i nb s) as (s' & -> & Hs');
    [assumption|lia|assumption|].
  exists (s', kd1). split; [reflexivity|assumption].
Qed.

Lemma reactivate_even_triple nodes tour tour' :
  reactivate_even nodes tour = Some tour' ->
  map triple tour' = map triple tour.
Proof.
  unfold reactivate_even.
  apply (for_iter_inv (fun t => map triple t = map triple tour));
    [|reflexivity].
  intros i t t' Ht. destruct (i <? size t).
  - intros E. apply activate_triple in E. congruence.
  - intros E; injection E as <-. assumption.
Qed.

Lemma for_iter_total {S} (Q : S -> Prop) (body : Z -> S -> option S) step :
  0 <= step ->
  (forall i s, 0 <= i -> Q s -> exists s', body i s = Some s' /\ Q s') ->
  forall k i s, 0 <= i -> Q s ->
  exists s', for_iter step k i body s = Some s' /\ Q s'.
Proof.
  intros Hstep Hb. induction k as [|k IH]; intros i s Hi Hs; cbn [for_iter];
    [eauto|].
  destruct (Hb i s Hi Hs) as (s1 & -> & Hs1).
  apply IH; [apply wrap_range|assumption].
Qed.

Lemma reactivate_even_total nodes tour :
  exists tour', reactivate_even nodes tour = Some tour'.
Proof.
  unfold reactivate_even.
  destruct (for_iter_total (fun t => map triple t = map triple tour)
    (fun i t => if i <? size t then activate t i else Some t) 2)
    with (k := Z.to_nat ((nodes + 1) / 2)) (i := 0) (s := tour)
    as (t & E & _); [lia| |lia|reflexivity|eauto].
  intros i t Hi Ht.
  destruct (Z.ltb_spec i (size t)); [|eauto].
  destruct (activate_total t i) as (t' & E); [lia|].
  exists t'. split; [assumption|].
  apply activate_triple in E. congruence.
Qed.

Section Hybrid.
Context `{StdNthElement}.

Lemma hybrid_pass_spec r :
  sized (run_tour r) ->
  exists r',
    hybrid_pass r = Some r' /\ pass_post calculate_2opt_gain_fast r r'.
Proof.
  intros Hn. unfold hybrid_pass.
  set (stats := set_active_nodes _ _).
  destruct (hybrid_search_spec (run_tour r)
              (reset_nodes_visited (run_kdtree r))
              (mkBest min_improvement 0 0 (total_comparisons stats)))
    as (b & kd & -> & [Hm Hb]); [exact Hn|apply best_inv_start|].
  destruct (Rltb_spec min_improvement (best_gain b)) as [Hg|Hg].
  - destruct (Hb Hg) as (Hi & Hij & Hj & Eg).
    destruct (perform_2opt_swap_total (run_tour r) (best_i b) (best_j b))
      as (tour' & E); try lia; [apply (sized_64 _ Hn)|].
    rewrite E.
    pose proof (perform_2opt_swap_perm _ _ _ _ E) as Hp.
    assert (Hs : size tour' = size (run_tour r)).
    { unfold size. rewrite (Permutation_length Hp). reflexivity. }
    destruct (activate_neighborhood_total [-4; -3; -2; -1; 0; 1; 2; 3; 4]
                (best_i b) (best_j b) (map (set_active false) tour'))
      as (t & Et).
    { unfold size. rewrite length_map. fold (size tour').
      rewrite Hs. unfold sized in Hn; lia. }
    rewrite Et.
    pose proof (activate_neighborhood_triple _ _ _ _ _ Et) as Ht.
    rewrite map_triple_set_active in Ht.
    match goal with
    | |- context [if ?c then build ?k ?t else Some ?k] =>
        assert (exists k', (if c then build k t else Some k) = Some k')
          as (k' & ->)
    end.
    { match goal with |- context [if ?c then _ else _] => destruct c end;
        [|eauto].
      apply build_total. rewrite (size_map_triple _ _ Ht), Hs. apply Hn. }
    eexists; split; [reflexivity|].
    split; [reflexivity|]. split; [reflexivity|]. right.
    split; [reflexivity|].
    exists (best_i b), (best_j b), (best_gain b), tour'.
    repeat split; auto.
  - match goal with
    | |- context [reactivate_even ?n ?t] =>
        destruct (reactivate_even_total n t) as (t' & Et)
    end.
    rewrite Et. eexists; split; [reflexivity|].
    split; [reflexivity|]. split; [reflexivity|]. left.
    repeat split; auto. cbn [run_tour].
    apply reactivate_even_triple in Et.
    rewrite Et. apply map_triple_set_active.
Qed.

End Hybrid.

(** * Every pass permutes the tour, whatever its size *)

Lemma basic_pass_perm r r' :
  basic_pass r = Some r' ->
  Permutation (map triple (run_tour r)) (map triple (run_tour r')).
Proof.
  unfold basic_pass. destruct (basic_search _ _) as [b|]; [|discriminate].
  destruct (Rltb _ _).
  - destruct (perform_2opt_swap _ _ _) as [t|] eqn:E; [|discriminate].
    intros E'; injection E' as <-. cbn [run_tour].
    apply Permutation_map, perform_2opt_swap_perm with (1 := E).
  - intros E'; injection E' as <-. reflexivity.
Qed.

Lemma approximate_pass_perm rand r r' :
  approximate_pass rand r = Some r' ->
  Permutation (map triple (run_tour r)) (map triple (run_tour r')).
Proof.
  unfold approximate_pass.
  destruct (approximate_search _ _ _) as [b|]; [|discriminate].
  destruct (Rltb _ _).
  - destruct (perform_2opt_swap _ _ _) as [t|] eqn:E; [|discriminate].
    destruct (activate_neighborhood _ _ _ _) as [t'|] eqn:Ea; [|discriminate].
    intros E'; injection E' as <-. cbn [run_tour].
    apply activate_neighborhood_triple in Ea.
    rewrite Ea, map_triple_set_active.
    apply Permutation_map, perform_2opt_swap_perm with (1 := E).
  - destruct (random_top_up _ _ _ _ _) as [t'|] eqn:Ea; [|discriminate].
    intros E'; injection E' as <-. cbn [run_tour].
    apply random_top_up_triple in Ea. rewrite Ea. reflexivity.
Qed.

Section Perm.
Context `{StdNthElement}.

Lemma geometric_pass_perm r r' :
  geometric_pass r = Some r' ->
  Permutation (map triple (run_tour r)) (map triple (run_tour r')).
Proof.
  unfold geometric_pass.
  destruct (geometric_search _ _ _) as [[b kd]|]; [|discriminate].
  destruct (Rltb _ _).
  - destruct (perform_2opt_swap _ _ _) as [t|] eqn:E; [|discriminate].
    match goal with
    | |- context [if ?c then build ?k ?t else Some ?k] =>
        destruct (if c then build k t else Some k); [|discriminate]
    end.
    intros E'; injection E' as <-. cbn [run_tour].
    apply Permutation_map, perform_2opt_swap_perm with (1 := E).
  - intros E'; injection E' as <-. reflexivity.
Qed.

Lemma hybrid_pass_perm r r' :
  hybrid_pass r = Some r' ->
  Permutation (map triple (run_tour r)) (map triple (run_tour r')).
Proof.
  unfold hybrid_pass.
  destruct (hybrid_search _ _ _ _) as [[b kd]|]; [|discriminate].
  destruct (Rltb _ _).
  - destruct (perform_2opt_swap _ _ _) as [t|] eqn:E; [|discriminate].
    destruct (activate_neighborhood _ _ _ _) as [t'|] eqn:Ea; [|discriminate].
    match goal with
    | |- context [if ?c then build ?k ?t else Some ?k] =>
        destruct (if c then build k t else Some k); [|discriminate]
    end.
    intros E'; injection E' as <-. cbn [run_tour].
    apply activate_neighborhood_triple in Ea.
    rewrite Ea, map_triple_set_active.
    apply Permutation_map, perform_2opt_swap_perm with (1 := E).
  - destruct (reactivate_even _ _) as [t'|] eqn:Ea; [|discriminate].
    intros E'; injection E' as <-. cbn [run_tour].
    apply reactivate_even_triple in Ea.
    rewrite Ea, map_triple_set_active. reflexivity.
Qed.

End Perm.

Lemma while_improving_perm pass :
  (forall r r', pass r = Some r' ->
     Permutation (map triple (run_tour r)) (map triple (run_tour r'))) ->
  forall k r r', while_improving pass k r = Some r' ->
     Permutation (map triple (run_tour r)) (map triple (run_tour r')).
Proof.
  intros Hp k r r'.
  apply (while_improving_inv
    (fun r' => Permutation (map triple (run_tour r)) (map triple (run_tour r'))));
    [|reflexivity].
  intros r1 r2 H1 E. etransitivity; [eassumption|]. apply Hp, E.
Qed.

(** * [is_valid_tour] *)

Lemma all_distinct_spec ids :
  forall seen,
    NoDup ids -> (forall i, In i ids -> ~ In i seen) ->
    all_distinct ids seen = Some (rev ids ++ seen).
Proof.
  induction ids as [|i ids IH]; intros seen Hnd Hdis; [reflexivity|].
  cbn [all_distinct].
  destruct (existsb (Z.eqb i) seen) eqn:E.
  - apply existsb_exists in E as (j & Hj & Ej). apply Z.eqb_eq in Ej. subst j.
    exfalso. apply (Hdis i); [left; reflexivity|assumption].
  - inversion Hnd as [|? ? Hni Hnd']; subst.
    rewrite IH; [|assumption|].
    + cbn [rev]. rewrite <- app_assoc. reflexivity.
    + intros j Hj [<-|Hs]; [contradiction|].
      apply (Hdis j); [right; assumption|assumption].
Qed.

Lemma is_valid_tour_perm tour original_points :
  NoDup (map id original_points) ->
  Permutation (map triple original_points) (map triple tour) ->
  is_valid_tour tour original_points = true.
Proof.
  intros Hnd Hp.
  assert (Hid : Permutation (map id original_points) (map id tour)).
  { apply (Permutation_map (fun t : R * R * Z => snd t)) in Hp.
    rewrite !map_map in Hp. exact Hp. }
  unfold is_valid_tour.
  rewrite (size_triple _ _ Hp), Z.eqb_refl. cbn [negb].
  rewrite all_distinct_spec.
  - apply forallb_forall. intros p Hin. apply existsb_exists.
    exists (id p). split; [|apply Z.eqb_refl].
    rewrite app_nil_r, <- in_rev.
    apply (Permutation_in _ Hid), in_map, Hin.
  - apply (Permutation_NoDup Hid Hnd).
  - intros i _ [].
Qed.

(** * The runs of the four optimizers *)

Lemma run_total gainf pass tour0 :
  (forall r, sized (run_tour r) ->
     exists r', pass r = Some r' /\ pass_post gainf r r') ->
  forall k r, run_inv gainf tour0 r ->
  exists r', while_improving pass k r = Some r' /\ run_inv gainf tour0 r'.
Proof.
  intros Hp k r Hr.
  destruct (while_improving_total (run_inv gainf tour0) pass)
    with (k := k) (r := r) as (r' & E & Hr' & _); [|assumption|eauto].
  intros r1 Hr1 _ Hlt.
  destruct (Hp r1) as (r2 & E & Hpost); [apply Hr1|].
  exists r2. split; [assumption|]. split.
  - eapply run_inv_pass; eassumption.
  - eapply pass_post_iterations; [|eassumption].
    destruct Hr1 as (_ & _ & _ & Hit & _). lia.
Qed.

Lemma approximate_run rand tour passes :
  sized tour ->
  exists r, approximate_2opt_passes rand passes tour = Some r /\
            run_inv calculate_2opt_gain tour r.
Proof.
  intros Hn. unfold approximate_2opt_passes, start_run.
  cbn [run_stats run_kdtree swaps].
  apply run_total; [apply approximate_pass_spec|].
  apply run_inv_start; [assumption|apply map_triple_set_active].
Qed.

Section Runs.
Context `{StdNthElement}.

Lemma geometric_run tour passes :
  sized tour ->
  exists r, geometric_2opt_passes passes tour = Some r /\
            run_inv calculate_2opt_gain tour r.
Proof.
  intros Hn. unfold geometric_2opt_passes.
  destruct (build_total empty_tree tour) as (kd & ->); [apply Hn|].
  unfold start_run.
  apply run_total; [apply geometric_pass_spec|].
  apply run_inv_start; [assumption|reflexivity].
Qed.

Lemma hybrid_run tour passes :
  sized tour ->
  exists r, hybrid_2opt_passes passes tour = Some r /\
            run_inv calculate_2opt_gain_fast tour r.
Proof.
  intros Hn. unfold hybrid_2opt_passes.
  destruct (build_total empty_tree tour) as (kd & ->); [apply Hn|].
  unfold start_run. cbn [run_stats run_kdtree swaps].
  apply run_total; [apply hybrid_pass_spec|].
  apply run_inv_start; [assumption|apply map_triple_set_active].
Qed.

(** The four optimizers, one name each. *)
Inductive Optimizer := Basic | Geometric | Approximate | Hybrid.

Definition optimize_passes (rand : Z -> Z -> Z) (o : Optimizer)
  (passes : nat) (tour : list Point) : option Run :=
  match o with
  | Basic => basic_2opt_passes passes tour
  | Geometric => geometric_2opt_passes passes tour
  | Approximate => approximate_2opt_passes rand passes tour
  | Hybrid => hybrid_2opt_passes passes tour
  end.

Definition optimize (rand : Z -> Z -> Z) (o : Optimizer) (tour : list Point)
  : option Run :=
  match o with
  | Basic => basic_2opt tour
  | Geometric => geometric_2opt tour
  | Approximate => approximate_2opt rand tour
  | Hybrid => hybrid_2opt tour
  end.

Lemma optimize_finish rand o tour :
  optimize rand o tour
  = (r <- optimize_passes rand o (Z.to_nat max_iterations) tour ;;
     Some (finish_run r)).
Proof. destruct o; reflexivity. Qed.

Lemma optimize_passes_perm rand o passes tour r :
  optimize_passes rand o passes tour = Some r ->
  Permutation (map triple tour) (map triple (run_tour r)).
Proof.
  destruct o; cbn [optimize_passes].
  - unfold basic_2opt_passes. intros E.
    apply (while_improving_perm _ basic_pass_perm) in E. exact E.
  - unfold geometric_2opt_passes.
    destruct (build empty_tree tour); [|discriminate]. intros E.
    apply (while_improving_perm _ geometric_pass_perm) in E. exact E.
  - unfold approximate_2opt_passes. intros E.
    apply (while_improving_perm _ (approximate_pass_perm rand)) in E.
    cbn [run_tour] in E. rewrite map_triple_set_active in E. exact E.
  - unfold hybrid_2opt_passes.
    destruct (build empty_tree tour); [|discriminate]. intros E.
    apply (while_improving_perm _ hybrid_pass_perm) in E.
    cbn [run_tour] in E. rewrite map_triple_set_active in E. exact E.
Qed.

Lemma optimize_passes_total rand o passes tour :
  sized tour -> exists r, optimize_passes rand o passes tour = Some r.
Proof.
  intros Hn. destruct o; cbn [optimize_passes].
  - destruct (basic_run tour passes Hn) as (r & E & _). eauto.
  - destruct (geometric_run tour passes Hn) as (r & E & _). eauto.
  - destruct (approximate_run rand tour passes Hn) as (r & E & _). eauto.
  - destruct (hybrid_run tour passes Hn) as (r & E & _). eauto.
Qed.



End Runs.

(** * An implementation of [std::nth_element]

    Sorting the whole range meets the contract; it serves where a run is
    computed. *)

Fixpoint insert_sorted (comp : Point -> Point -> bool) (a : Point)
  (l : list Point) : list Point :=
  match l with
  | [] => [a]
  | b :: l' => if comp a b then a :: l else b :: insert_sorted comp a l'
  end.

Definition sort_points (comp : Point -> Point -> bool) (l : list Point)
  : list Point :=
  fold_right (insert_sorted comp) [] l.

Definition nth_element_by_sorting (comp : Point -> Point -> bool)
  (v : list Point) (first nth last : Z) : list Point :=
  let a := Z.to_nat first in
  let b := Z.to_nat last in
  firstn a v ++ sort_points comp (skipn a (firstn b v)) ++ skipn b v.

Lemma insert_sorted_perm comp a l : Permutation (a :: l) (insert_sorted comp a l).
Proof.
  induction l as [|b l IH]; cbn [insert_sorted]; [reflexivity|].
  destruct (comp a b); [reflexivity|].
  rewrite perm_swap. constructor. exact IH.
Qed.

Lemma sort_points_perm comp l : Permutation l (sort_points comp l).
Proof.
  induction l as [|a l IH]; [reflexivity|]. cbn [sort_points fold_right].
  rewrite <- insert_sorted_perm. constructor. exact IH.
Qed.

Section Sorting.
Variable comp : Point -> Point -> bool.
Hypothesis comp_ok : strict_weak comp.

(** [a] may stand before [b]. *)
Definition before (a b : Point) : Prop := comp b a = false.

Lemma before_trans a b c : before a b -> before b c -> before a c.
Proof.
  unfold before. intros Hab Hbc.
  destruct (comp c a) eqn:E; [|reflexivity].
  destruct (proj2 comp_ok c b a E) as [H|H]; congruence.
Qed.

Lemma insert_sorted_sorted a l :
  StronglySorted before l -> StronglySorted before (insert_sorted comp a l).
Proof.
  induction 1 as [|b l Hs IH Hb]; cbn [insert_sorted].
  - repeat constructor.
  - destruct (comp a b) eqn:E.
    + constructor; [constructor; assumption|].
      assert (Hab : before a b) by (apply (proj1 comp_ok), E).
      constructor; [assumption|].
      eapply Forall_impl; [|exact Hb]. intros c. apply before_trans, Hab.
    + constructor; [assumption|].
      apply (Permutation_Forall (insert_sorted_perm comp a l)).
      constructor; assumption.
Qed.

Lemma sort_points_sorted l : StronglySorted before (sort_points comp l).
Proof.
  induction l as [|a l IH]; [constructor|].
  apply insert_sorted_sorted, IH.
Qed.

Lemma sorted_split lo p hi :
  StronglySorted before (lo ++ p :: hi) ->
  Forall (fun a => comp p a = false) lo /\
  Forall (fun b => comp b p = false) hi.
Proof.
  induction lo as [|a lo IH]; cbn [app]; intros Hs.
  - split; [constructor|]. inversion Hs; subst. assumption.
  - inversion Hs as [|? ? Hs' Ha]; subst.
    destruct (IH Hs') as [H1 H2]. split; [|assumption].
    constructor; [|assumption].
    apply Forall_app in Ha as [_ Ha]. inversion Ha; subst. assumption.
Qed.

End Sorting.

Lemma nth_element_by_sorting_spec comp pre seg post (nth : nat) :
  strict_weak comp ->
  (nth < length seg)%nat ->
  exists lo p hi,
    nth_element_by_sorting comp (pre ++ seg ++ post)
      (size pre) (size pre + Z.of_nat nth) (size pre + size seg)
    = pre ++ (lo ++ p :: hi) ++ post /\
    length lo = nth /\
    Permutation seg (lo ++ p :: hi) /\
    Forall (fun a => comp p a = false) lo /\
    Forall (fun b => comp b p = false) hi.
Proof.
  intros Hc Hnth. unfold nth_element_by_sorting.
  replace (Z.to_nat (size pre)) with (length pre) by (unfold size; lia).
  replace (Z.to_nat (size pre + size seg)) with (length pre + length seg)%nat
    by (unfold size; lia).
  assert (F1 : firstn (length pre) (pre ++ seg ++ post) = pre).
  { rewrite firstn_app, Nat.sub_diag, firstn_all, firstn_O, app_nil_r.
    reflexivity. }
  assert (F2 : firstn (length pre + length seg) (pre ++ seg ++ post)
               = pre ++ seg).
  { rewrite app_assoc, <- length_app, firstn_app, Nat.sub_diag, firstn_all,
      firstn_O, app_nil_r. reflexivity. }
  assert (F3 : skipn (length pre + length seg) (pre ++ seg ++ post) = post).
  { rewrite app_assoc, <- length_app, skipn_app, Nat.sub_diag, skipn_all,
      skipn_O. reflexivity. }
  rewrite F1, F2, F3, skipn_app, Nat.sub_diag, skipn_all, skipn_O.
  cbn [app].
  set (s := sort_points comp seg).
  assert (Hp : Permutation seg s) by apply sort_points_perm.
  assert (Hl : (nth < length s)%nat)
    by (rewrite <- (Permutation_length Hp); assumption).
  destruct (skipn nth s) as [|p hi] eqn:Es.
  { apply (f_equal (@length Point)) in Es. rewrite length_skipn in Es.
    simpl in Es. lia. }
  exists (firstn nth s), p, hi.
  assert (E : firstn nth s ++ p :: hi = s)
    by (rewrite <- Es; apply firstn_skipn).
  rewrite E. split; [reflexivity|].
  split; [rewrite length_firstn; lia|].
  split; [assumption|].
  apply (sorted_split comp). rewrite E.
  apply sort_points_sorted, Hc.
Qed.

#[export] Instance nth_element_sorting : StdNthElement :=
  {| nth_element := nth_element_by_sorting;
     nth_element_spec := nth_element_by_sorting_spec |}.

(** * The claims *)

(** A tour of two points, to instantiate the theorems. *)
Definition two_points : list Point :=
  [mkPoint 0 0 true 0; mkPoint 1 0 true 1].

Lemma two_points_sized : sized two_points.
Proof. unfold sized, size. simpl. lia. Qed.

Lemma two_points_distinct : NoDup (map id two_points).
Proof.
  simpl. constructor; [intros [E|[]]; discriminate|].
  constructor; [intros []|constructor].
Qed.

(** C4. Whatever the optimizer and the number of passes, the tour reached
    from a tour of distinct ids passes [is_valid_tour] against the tour
    given; and on a tour of at least two points every pass does go through. *)
Theorem tour_valid_after_every_pass `{StdNthElement} (rand : Z -> Z -> Z)
  (o : Optimizer) (passes : nat) (tour0 : list Point) :
  NoDup (map id tour0) ->
  (forall r, optimize_passes rand o passes tour0 = Some r ->
             is_valid_tour (run_tour r) tour0 = true) /\
  (sized tour0 -> exists r, optimize_passes rand o passes tour0 = Some r).
Proof.
  intros Hnd. split.
  - intros r E. apply is_valid_tour_perm; [assumption|].
    eapply optimize_passes_perm, E.
  - apply optimize_passes_total.
Qed.

Lemma tour_valid_after_every_pass_witness :
  NoDup (map id two_points) /\
  ((forall r, optimize_passes (fun _ _ => 0) Approximate 3 two_points = Some r ->
              is_valid_tour (run_tour r) two_points = true) /\
   (sized two_points ->
    exists r, optimize_passes (fun _ _ => 0) Approximate 3 two_points = Some r)).
Proof.
  split; [exact two_points_distinct|].
  exact (tour_valid_after_every_pass (fun _ _ => 0) Approximate 3 two_points
           two_points_distinct).
Defined.

(** C10. An optimizer returns the points it was given: the list of the
    triples [(x, y, id)] of the final tour is a permutation of that of the
    input; and on a tour of at least two points it does return. *)
Theorem optimizer_keeps_points `{StdNthElement} (rand : Z -> Z -> Z)
  (o : Optimizer) (tour0 : list Point) :
  (forall r, optimize rand o tour0 = Some r ->
             Permutation (map triple tour0) (map triple (run_tour r))) /\
  (sized tour0 -> exists r, optimize rand o tour0 = Some r).
Proof.
  rewrite optimize_finish. split.
  - intros r E.
    destruct (optimize_passes rand o _ tour0) as [r0|] eqn:E0; [|discriminate].
    injection E as <-. cbn [finish_run run_tour].
    eapply optimize_passes_perm, E0.
  - intros Hn.
    destruct (optimize_passes_total rand o (Z.to_nat max_iterations) tour0 Hn)
      as (r & ->). eauto.
Qed.

(** C6, amended. When [basic_2opt] returns before [max_iterations] passes,
    no pair of positions of the final tour has a gain above
    [min_improvement]; on a tour of at least two points it returns. *)
Theorem basic_2opt_local_minimum (tour : list Point) :
  sized tour ->
  exists r,
    basic_2opt tour = Some r /\
    (iterations (run_stats r) < max_iterations ->
     local_minimum (run_tour r)).
Proof.
  intros Hn. unfold basic_2opt.
  destruct (basic_run tour (Z.to_nat max_iterations) Hn)
    as (r & -> & _ & Hm & Hx).
  eexists; split; [reflexivity|]. cbn.
  intros Hlt. apply Hm.
  destruct Hx as [Hx|Hx]; [unfold max_iterations; lia|assumption|lia].
Qed.

Lemma basic_2opt_local_minimum_witness :
  sized two_points /\
  exists r,
    basic_2opt two_points = Some r /\
    (iterations (run_stats r) < max_iterations ->
     local_minimum (run_tour r)).
Proof.
  split; [exact two_points_sized|].
  exact (basic_2opt_local_minimum two_points two_points_sized).
Defined.

(** C3, amended. [find_neighbors] on the tree built from [points] returns
    exactly the points of [points] that pass the test of the code: the
    squared distance to the query is at most the square of the radius,
    whatever the sign of the radius. *)
Theorem find_neighbors_complete `{StdNthElement} (points : list Point)
  (query : Point) (radius : R) (p : Point) :
  size points < 2 ^ 63 ->
  exists t,
    build empty_tree points = Some t /\
    (In p (fst (find_neighbors t query radius))
     <-> In p points
         /\ (distance_squared p query <= radius * radius)%R).
Proof.
  intros Hn. destruct (list_eq_dec_nil points) as [->|Hne].
  - exists empty_tree. split; [reflexivity|]. cbn. tauto.
  - destruct (build_spec empty_tree points Hne Hn) as (nd & -> & Hp & Hk).
    eexists; split; [reflexivity|].
    rewrite find_neighbors_spec by exact Hk. cbn [root]. unfold within.
    split; intros [Hi Hd]; (split; [|assumption]).
    + apply (Permutation_in _ Hp), Hi.
    + apply (Permutation_in _ (Permutation_sym Hp)), Hi.
Qed.

Lemma find_neighbors_complete_witness :
  size two_points < 2 ^ 63 /\
  exists t,
    build empty_tree two_points = Some t /\
    (In (mkPoint 1 0 true 1) (fst (find_neighbors t default_point (-1)))
     <-> In (mkPoint 1 0 true 1) two_points
         /\ (distance_squared (mkPoint 1 0 true 1) default_point
             <= -1 * -1)%R).
Proof.
  split; [unfold size; simpl; lia|].
  apply (find_neighbors_complete two_points default_point (-1)
           (mkPoint 1 0 true 1)).
  unfold size; simpl; lia.
Defined.

(** C3 as stated fails for a negative radius: the tree of one point
    returns that point for the radius -1, at distance 0. *)
Lemma find_neighbors_negative_radius :
  ~ (forall (E : StdNthElement) (points : list Point) (query : Point)
            (radius : R) (p : Point),
       In p points ->
       exists t,
         build empty_tree points = Some t /\
         (In p (fst (find_neighbors t query radius))
          <-> (distance p query <= radius)%R)).
Proof.
  intros Hc.
  destruct (Hc nth_element_sorting [default_point] default_point (-1)%R
               default_point)
    as (t & Et & Hiff); [left; reflexivity|].
  destruct (build_spec empty_tree [default_point]) as (nd & E & Hp & Hk);
    [discriminate|unfold size; simpl; lia|].
  rewrite E in Et. injection Et as <-.
  rewrite find_neighbors_spec in Hiff by exact Hk. cbn [root] in Hiff.
  rewrite distance_refl in Hiff.
  assert (Hin : In default_point (tree_points nd)
                /\ within default_point (-1) default_point).
  { split.
    - apply (Permutation_in _ (Permutation_sym Hp)). left; reflexivity.
    - unfold within, distance_squared. lra. }
  apply Hiff in Hin. lra.
Qed.

(** C9. [build] on an empty vector returns at once and leaves the tree as
    it was: after [build] of one point and then of none, [size()] is 1. *)
Theorem build_empty_keeps_size `{StdNthElement} (p : Point) :
  exists t1 t2,
    build empty_tree [p] = Some t1 /\
    build t1 [] = Some t2 /\
    size_ t2 = 1 /\ size (@nil Point) = 0.
Proof.
  destruct (build_spec empty_tree [p]) as (nd & E & _);
    [discriminate|unfold size; simpl; lia|].
  rewrite E. eexists; eexists. repeat split.
Qed.

(** On a vector that is not empty, [size()] is its size. *)
Lemma build_size `{StdNthElement} (t : KDTree) (points : list Point) :
  points <> [] -> size points < 2 ^ 63 ->
  exists t', build t points = Some t' /\ size_ t' = size points.
Proof.
  intros Hne Hn. destruct (build_spec t points Hne Hn) as (nd & -> & _).
  eexists; split; reflexivity.
Qed.

(** * Runs on given tours *)

Lemma while_improving_first pass k r :
  (0 < k)%nat -> run_improved r = true ->
  iterations (run_stats r) < max_iterations ->
  while_improving pass k r
  = (r' <- pass r ;; while_improving pass (pred k) r').
Proof.
  intros Hk Hi Hlt. destruct k; [lia|]. cbn [while_improving pred].
  rewrite Hi. destruct (Z.ltb_spec (iterations (run_stats r)) max_iterations);
    [reflexivity|lia].
Qed.

Lemma while_improving_stop pass k r :
  run_improved r = false -> while_improving pass k r = Some r.
Proof. intros Hi. destruct k; cbn [while_improving]; rewrite Hi; reflexivity. Qed.

Lemma while_improving_cap pass k r :
  max_iterations <= iterations (run_stats r) ->
  while_improving pass k r = Some r.
Proof.
  intros Hi. destruct k; cbn [while_improving];
    (destruct (Z.ltb_spec (iterations (run_stats r)) max_iterations); [lia|]);
    rewrite andb_false_r; reflexivity.
Qed.

Lemma for_range_fail {S} (body : Z -> S -> option S) lo hi s :
  lo < hi -> body lo s = None -> for_range lo hi body s = None.
Proof.
  intros Hlt E. unfold for_range.
  destruct (Z.to_nat (hi - lo)) eqn:Ek; [lia|].
  cbn [for_iter]. rewrite E. reflexivity.
Qed.

(** ** The empty tour *)

Lemma wrap_minus_2 : wrap (size (@nil Point) - 2) = 2 ^ 64 - 2.
Proof. reflexivity. Qed.

Lemma basic_search_empty b : basic_search [] b = Some b.
Proof.
  unfold basic_search, for_range.
  apply (for_iter_idle 1 _ (fun _ => True)); auto.
  intros i s _. apply for_range_empty.
  pose proof (wrap_range (i + 2)). change (size (@nil Point)) with 0. lia.
Qed.

(** [basic_2opt] on the empty tour: the outer loop runs its 2^64 - 2 turns
    without entering the inner one. *)
Lemma basic_2opt_empty :
  exists r,
    basic_2opt [] = Some r /\ run_tour r = [] /\
    initial_length (run_stats r) = 0%R /\ final_length (run_stats r) = 0%R /\
    num_swaps (run_stats r) = 0.
Proof.
  unfold basic_2opt, basic_2opt_passes.
  rewrite while_improving_first;
    [|unfold max_iterations; lia|reflexivity|unfold max_iterations; cbn; lia].
  unfold basic_pass. cbn [run_tour start_run]. rewrite basic_search_empty.
  cbn [best_gain]. rewrite Rltb_false by lra.
  rewrite while_improving_stop by reflexivity.
  eexists; split; [reflexivity|]. cbn. repeat split; reflexivity.
Qed.

Lemma approximate_2opt_empty rand :
  exists r,
    approximate_2opt rand [] = Some r /\ run_tour r = [] /\
    initial_length (run_stats r) = 0%R /\ final_length (run_stats r) = 0%R /\
    num_swaps (run_stats r) = 0.
Proof.
  unfold approximate_2opt, approximate_2opt_passes.
  rewrite while_improving_first;
    [|unfold max_iterations; lia|reflexivity|unfold max_iterations; cbn; lia].
  unfold approximate_pass. cbn [run_tour start_run map collect_active].
  unfold approximate_search. rewrite for_range_empty by reflexivity.
  cbn [best_gain]. rewrite Rltb_false by lra.
  unfold random_top_up. rewrite for_range_empty by (cbn; lia).
  rewrite while_improving_stop by reflexivity.
  eexists; split; [reflexivity|]. cbn. repeat split; reflexivity.
Qed.

Section Empty.
Context `{StdNthElement}.

Lemma hybrid_2opt_empty :
  exists r,
    hybrid_2opt [] = Some r /\ run_tour r = [] /\
    initial_length (run_stats r) = 0%R /\ final_length (run_stats r) = 0%R /\
    num_swaps (run_stats r) = 0.
Proof.
  unfold hybrid_2opt, hybrid_2opt_passes. cbn [build].
  rewrite while_improving_first;
    [|unfold max_iterations; lia|reflexivity|unfold max_iterations; cbn; lia].
  unfold hybrid_pass. cbn [run_tour start_run map collect_active].
  cbn [hybrid_search for_each best_gain]. rewrite Rltb_false by lra.
  cbn [reactivate_even]. unfold reactivate_even.
  replace (Z.to_nat _) with 0%nat by (cbn; lia). cbn [for_iter].
  rewrite while_improving_stop by reflexivity.
  eexists; split; [reflexivity|]. cbn. repeat split; reflexivity.
Qed.

(** C5. [geometric_2opt] on the empty tour: [tour.size() - 2] wraps to
    2^64 - 2, the first turn of the loop reads [tour[0]], and this read is
    outside the vector. *)
Theorem geometric_2opt_empty_tour : geometric_2opt [] = None.
Proof.
  unfold geometric_2opt, geometric_2opt_passes. cbn [build].
  rewrite while_improving_first;
    [|unfold max_iterations; lia|reflexivity|unfold max_iterations; cbn; lia].
  unfold geometric_pass. cbn [run_tour start_run].
  unfold geometric_search. rewrite wrap_minus_2.
  rewrite for_range_fail; [reflexivity|lia|reflexivity].
Qed.

End Empty.

(** ** Five points on a line *)

Lemma distance_line a b f g i j :
  distance (mkPoint a 0 f i) (mkPoint b 0 g j) = Rabs (a - b).
Proof.
  unfold distance; cbn [x y].
  replace ((a - b) * (a - b) + (0 - 0) * (0 - 0))%R with (Rsqr (a - b))
    by (unfold Rsqr; ring).
  apply sqrt_Rsqr_abs.
Qed.

(** The points 0, 3, 2, 1, 4 of the line [y = 0], visited in this order. *)
Definition line5 : list Point :=
  [mkPoint 0 0 true 0; mkPoint 3 0 true 1; mkPoint 2 0 true 2;
   mkPoint 1 0 true 3; mkPoint 4 0 true 4].

(** The edges of the closed tour, as pairs of ids. *)
Definition cyclic_edges (tour : list Point) : list (Z * Z) :=
  let n := length tour in
  map (fun i => (id (nth i tour default_point),
                 id (nth ((i + 1) mod n) tour default_point)))
      (seq 0 n).

(** Edges have no direction. *)
Definition same_edge (e f : Z * Z) : bool :=
  ((fst e =? fst f) && (snd e =? snd f))
  || ((fst e =? snd f) && (snd e =? fst f)).

Definition edges_included (es fs : list (Z * Z)) : bool :=
  forallb (fun e => existsb (same_edge e) fs) es.

Definition same_edge_set (es fs : list (Z * Z)) : bool :=
  edges_included es fs && edges_included fs es.

(** Resolves the absolute values of differences of numerals. *)
Ltac rabs :=
  repeat match goal with
  | |- context [Rabs ?a] =>
      first [ rewrite (Rabs_pos_eq a) by lra
            | rewrite (Rabs_left1 a) by lra ]
  end.

(** Steps of a computation on a given tour: everything is computed but the
    arithmetic of the reals, left to [lra]. *)
Ltac to_nat_step :=
  match goal with
  | |- context [Pos.to_nat ?p] =>
      let v := eval vm_compute in (Pos.to_nat p) in
      change (Pos.to_nat p) with v
  end.

Ltac compute_step :=
  first [ progress cbn -[distance distance_squared Rplus Rminus Rmult Rdiv
                         Rltb Rleb fmax min_improvement consider]
        | to_nat_step ].

(** C7. On five points, [smart_reverse_segment] of the positions 1 to 3
    takes its wrap-around branch and returns the whole tour reversed, whose
    edges are those of the tour given; [reverse_segment] of the same
    positions replaces two of them. *)
Theorem smart_reverse_segment_wrap_branch :
  smart_reverse_segment line5 1 3 = Some (rev line5) /\
  reverse_segment line5 1 3
  = Some [mkPoint 0 0 true 0; mkPoint 1 0 true 3; mkPoint 2 0 true 2;
          mkPoint 3 0 true 1; mkPoint 4 0 true 4] /\
  same_edge_set (cyclic_edges (rev line5)) (cyclic_edges line5) = true /\
  same_edge_set
    (cyclic_edges (rev line5))
    (cyclic_edges [mkPoint 0 0 true 0; mkPoint 1 0 true 3; mkPoint 2 0 true 2;
                   mkPoint 3 0 true 1; mkPoint 4 0 true 4]) = false.
Proof. repeat split; reflexivity. Qed.

Lemma line5_gain : calculate_2opt_gain line5 0 3 = Some 4%R.
Proof.
  unfold line5, calculate_2opt_gain. repeat compute_step.
  f_equal. rewrite !distance_line. rabs. lra.
Qed.

(** C2. On the same tour the pair (0, 3) has the gain 4, and
    [perform_2opt_swap] returns the whole tour reversed, as long as the tour
    given. *)
Theorem gain_without_effect :
  calculate_2opt_gain line5 0 3 = Some 4%R /\
  perform_2opt_swap line5 0 3 = Some (rev line5) /\
  (tour_length line5 - tour_length (rev line5) = 0)%R.
Proof.
  split; [|split].
  - exact line5_gain.
  - reflexivity.
  - rewrite tour_length_rev. lra.
Qed.

(** Decides a comparison of reals built from distances on the line. *)
Ltac line_arith :=
  rewrite ?distance_line; rabs; unfold min_improvement; lra.


Lemma consider_take g i j b :
  (best_gain b < g)%R -> consider g i j b = mkBest g i j (incr (comparisons b)).
Proof. intros Hg. unfold consider. rewrite Rltb_true by assumption. reflexivity. Qed.

Lemma consider_keep g i j b :
  (g <= best_gain b)%R ->
  consider g i j b
  = mkBest (best_gain b) (best_i b) (best_j b) (incr (comparisons b)).
Proof. intros Hg. unfold consider. rewrite Rltb_false by assumption. reflexivity. Qed.

(** Resolves the innermost [consider]. *)
Ltac consider_step solve :=
  match goal with
  | |- context [consider ?g ?i ?j (mkBest ?bg ?bi ?bj ?c)] =>
      first [ rewrite (consider_take g i j (mkBest bg bi bj c))
                by (cbn [best_gain]; solve)
            | rewrite (consider_keep g i j (mkBest bg bi bj c))
                by (cbn [best_gain]; solve) ];
      cbn [best_gain best_i best_j comparisons]
  end.

Lemma basic_search_line5 c :
  exists g c',
    basic_search line5 (mkBest min_improvement 0 0 c)
    = Some (mkBest g 0 3 c') /\ g = 4%R.
Proof.
  unfold line5, basic_search. repeat compute_step.
  repeat consider_step line_arith.
  eexists; eexists; split; [reflexivity|]. line_arith.
Qed.

Lemma basic_search_line5_rev c :
  exists g c',
    basic_search (rev line5) (mkBest min_improvement 0 0 c)
    = Some (mkBest g 0 3 c') /\ g = 4%R.
Proof.
  unfold line5, basic_search. repeat compute_step.
  repeat consider_step line_arith.
  eexists; eexists; split; [reflexivity|]. line_arith.
Qed.

Lemma basic_pass_line5 r :
  run_tour r = line5 ->
  exists r',
    basic_pass r = Some r' /\ run_tour r' = rev line5 /\
    run_improved r' = true /\
    iterations (run_stats r') = incr (iterations (run_stats r)).
Proof.
  intros E. unfold basic_pass. rewrite E.
  destruct (basic_search_line5
              (total_comparisons
                 (set_iterations (incr (iterations (run_stats r)))
                    (run_stats r)))) as (g & c' & -> & ->).
  cbn [best_gain best_i best_j].
  rewrite Rltb_true by (unfold min_improvement; lra).
  replace (perform_2opt_swap line5 0 3) with (Some (rev line5))
    by reflexivity.
  eexists; split; [reflexivity|]. cbn. repeat split; reflexivity.
Qed.

Lemma basic_pass_line5_rev r :
  run_tour r = rev line5 ->
  exists r',
    basic_pass r = Some r' /\ run_tour r' = line5 /\
    run_improved r' = true /\
    iterations (run_stats r') = incr (iterations (run_stats r)).
Proof.
  intros E. unfold basic_pass. rewrite E.
  destruct (basic_search_line5_rev
              (total_comparisons
                 (set_iterations (incr (iterations (run_stats r)))
                    (run_stats r)))) as (g & c' & -> & ->).
  cbn [best_gain best_i best_j].
  rewrite Rltb_true by (unfold min_improvement; lra).
  replace (perform_2opt_swap (rev line5) 0 3) with (Some line5)
    by reflexivity.
  eexists; split; [reflexivity|]. cbn. repeat split; reflexivity.
Qed.

(** Two passes of [basic_2opt] on [line5] reverse the tour twice. *)
Lemma basic_2opt_line5_cycle (k : nat) :
  forall r,
    run_tour r = line5 -> run_improved r = true ->
    0 <= iterations (run_stats r) ->
    iterations (run_stats r) + 2 * Z.of_nat k <= max_iterations ->
    exists r',
      while_improving basic_pass (2 * k) r = Some r' /\
      run_tour r' = line5 /\
      iterations (run_stats r')
      = iterations (run_stats r) + 2 * Z.of_nat k.
Proof.
  induction k as [|k IH]; intros r Et Ei H0 Hk.
  - exists r. cbn [Nat.mul Nat.add while_improving].
    destruct (run_improved r && (iterations (run_stats r) <? max_iterations));
      (split; [reflexivity|split; [assumption|simpl; lia]]).
  - replace (2 * S k)%nat with (S (S (2 * k))) by lia.
    unfold max_iterations in *.
    rewrite while_improving_first;
      [|lia|assumption|unfold max_iterations; lia].
    destruct (basic_pass_line5 r Et) as (r1 & -> & Et1 & Ei1 & It1).
    rewrite incr_small in It1 by lia.
    cbn [pred].
    rewrite while_improving_first;
      [|lia|assumption|unfold max_iterations; lia].
    destruct (basic_pass_line5_rev r1 Et1) as (r2 & -> & Et2 & Ei2 & It2).
    rewrite incr_small in It2 by lia.
    cbn [pred].
    destruct (IH r2 Et2 Ei2) as (r' & E & Et' & It'); [lia|lia|].
    exists r'. repeat split; auto. lia.
Qed.

(** C6 as stated fails: on [line5] every pass of [basic_2opt] applies the
    pair (0, 3), which reverses the whole tour, until [max_iterations]
    stops the loop; the pair (0, 3) still has the gain 4. *)
Lemma basic_2opt_no_local_minimum :
  ~ (forall tour r, basic_2opt tour = Some r -> local_minimum (run_tour r)).
Proof.
  intros Hc.
  destruct (basic_2opt_line5_cycle 500 (start_run line5 empty_tree))
    as (r & E & Et & _).
  { reflexivity. }
  { reflexivity. }
  { change (iterations (run_stats (start_run line5 empty_tree))) with 0. lia. }
  { change (iterations (run_stats (start_run line5 empty_tree))) with 0.
    unfold max_iterations. lia. }
  specialize (Hc line5 (finish_run r)).
  unfold basic_2opt, basic_2opt_passes in Hc.
  change (Z.to_nat max_iterations) with (2 * 500)%nat in Hc.
  rewrite E in Hc. specialize (Hc eq_refl).
  cbn [finish_run run_tour] in Hc. rewrite Et in Hc.
  specialize (Hc 0 3 4%R line5_gain). unfold min_improvement in Hc. lra.
Qed.

(** * The adaptive search *)

(** What a query at the radius [radius] finds. *)
Definition found_at (t : KDTree) (query : Point) (radius : R) : list Point :=
  fst (find_neighbors t query radius).

Lemma found_at_frnn t query radius :
  find_neighbors_frnn (root t) query radius ([], 0)
  = (found_at t query radius,
     snd (find_neighbors_frnn (root t) query radius ([], 0))).
Proof.
  unfold found_at, find_neighbors.
  destruct (find_neighbors_frnn (root t) query radius ([], 0)). reflexivity.
Qed.

Lemma found_at_visited t query radius v :
  found_at (set_nodes_visited v t) query radius = found_at t query radius.
Proof.
  unfold found_at, find_neighbors. cbn [root set_nodes_visited].
  destruct (find_neighbors_frnn (root t) query radius ([], 0)). reflexivity.
Qed.

(** Without a minimum to reach, or from a radius of 2 or more, the loop is
    not entered. *)
Lemma adaptive_loop_skipped fuel t query min_neighbors radius :
  min_neighbors <= 0 \/ (2 <= radius)%R ->
  adaptive_loop fuel t query min_neighbors radius [] = Some ([], t).
Proof.
  intros Hs.
  assert (E : (size (@nil Point) <? min_neighbors) && Rltb radius 2 = false).
  { destruct Hs as [Hm|Hr].
    - destruct (Z.ltb_spec (size (@nil Point)) min_neighbors);
        [change (size (@nil Point)) with 0 in *; lia|reflexivity].
    - rewrite Rltb_false by assumption. apply andb_false_r. }
  destruct fuel; cbn [adaptive_loop]; rewrite E; reflexivity.
Qed.

(** From a radius in (0, 2), the loop returns what the query finds at the
    first radius [radius * 1.5^k] that yields [min_neighbors] points or is
    the last one below 2. *)
Lemma adaptive_loop_spec query min_neighbors (fuel : nat) :
  forall t radius neighbors,
    size neighbors < min_neighbors ->
    (0 < radius < 2)%R -> (2 <= radius * 1.5 ^ fuel)%R ->
    exists (k : nat) t',
      adaptive_loop fuel t query min_neighbors radius neighbors
      = Some (found_at t query (radius * 1.5 ^ k), t') /\
      (radius * 1.5 ^ k < 2)%R /\
      (forall j, (j < k)%nat ->
                 size (found_at t query (radius * 1.5 ^ j)) < min_neighbors) /\
      (min_neighbors <= size (found_at t query (radius * 1.5 ^ k)) \/
       (2 <= radius * 1.5 ^ S k)%R).
Proof.
  induction fuel as [|fuel IH]; intros t radius neighbors Hnb Hr Hf.
  - simpl in Hf. lra.
  - cbn [adaptive_loop].
    destruct (Z.ltb_spec (size neighbors) min_neighbors); [|lia].
    rewrite Rltb_true by lra. cbn [andb].
    rewrite found_at_frnn.
    set (v := snd _).
    assert (E0 : (radius * 1.5 ^ 0 = radius)%R) by (simpl; lra).
    destruct (Z.ltb_spec (size (found_at t query radius)) min_neighbors)
      as [Hlt|Hge].
    + destruct (Rlt_le_dec (radius * 1.5) 2) as [Hr2|Hr2].
      * destruct (IH (set_nodes_visited v t) (radius * 1.5)%R
                    (found_at t query radius)) as (k & t' & E & Hk & Hj & Hx);
          [assumption|lra|simpl in Hf; lra|].
        assert (Ep : forall j, (radius * 1.5 * 1.5 ^ j
                                = radius * 1.5 ^ S j)%R)
          by (intros; simpl; ring).
        rewrite found_at_visited in E.
        exists (S k), t'. rewrite <- !Ep.
        split; [exact E|]. split; [exact Hk|]. split.
        -- intros [|j] Hlj; [rewrite E0; exact Hlt|].
           rewrite <- Ep, <- (found_at_visited t query _ v). apply Hj. lia.
        -- rewrite found_at_visited in Hx. exact Hx.
      * exists 0%nat, (set_nodes_visited v t). rewrite E0.
        split.
        { destruct fuel; cbn [adaptive_loop];
            rewrite (Rltb_false (radius * 1.5) 2), andb_false_r by assumption;
            reflexivity. }
        split; [lra|]. split; [intros j Hj; lia|].
        right. simpl. lra.
    + exists 0%nat, (set_nodes_visited v t). rewrite E0.
      split.
      { destruct fuel; cbn [adaptive_loop];
          (destruct (Z.ltb_spec (size (found_at t query radius)) min_neighbors);
           [lia|reflexivity]). }
      split; [lra|]. split; [intros j Hj; lia|]. left; lia.
Qed.

Lemma radius_reaches_2 (radius : R) :
  (0 < radius)%R -> exists fuel : nat, (2 <= radius * 1.5 ^ fuel)%R.
Proof.
  intros Hr.
  destruct (Pow_x_infinity 1.5 ltac:(rewrite Rabs_pos_eq; lra) (2 / radius)%R)
    as (N & HN).
  exists N. specialize (HN N (le_n N)).
  rewrite Rabs_pos_eq in HN by (apply pow_le; lra).
  apply Rge_le in HN.
  apply (Rmult_le_compat_l radius) in HN; [|lra].
  replace (radius * (2 / radius))%R with 2%R in HN by (field; lra).
  exact HN.
Qed.

Lemma within_mono query (r1 r2 : R) p :
  (0 <= r1 <= r2)%R -> within query r1 p -> within query r2 p.
Proof.
  unfold within. intros Hr Hw.
  pose proof (square_le r1 r2 Hr). lra.
Qed.

(** The radius after [k] turns of the loop, each of which multiplies it by
    1.5. *)
Fixpoint enlarged (k : nat) (radius : R) : R :=
  match k with
  | O => radius
  | S k' => enlarged k' (radius * 1.5)
  end.

Lemma enlarged_pow k : forall radius, enlarged k radius = (radius * 1.5 ^ k)%R.
Proof.
  induction k as [|k IH]; intros radius; cbn [enlarged pow]; [ring|].
  rewrite IH. ring.
Qed.

(** C8, amended. On the tree built from [points]: with no minimum to
    reach, or from a radius of 2 or more, [find_neighbors_adaptive] makes
    no query and returns nothing. With a minimum of at least one point and
    a radius in (0, 2) it ends, and returns what the query finds at the
    radius enlarged [k] times, the first of these radii to yield the
    minimum or to be the last one below 2; this holds every point of
    [points] that passes the test of the code at [base_radius]: its squared
    distance to the query is at most [base_radius * base_radius]. *)
Theorem find_neighbors_adaptive_result `{StdNthElement}
  (points : list Point) (query : Point) (base_radius : R)
  (min_neighbors : Z) :
  size points < 2 ^ 63 ->
  exists t,
    build empty_tree points = Some t /\
    (min_neighbors <= 0 \/ (2 <= base_radius)%R ->
     forall fuel,
       find_neighbors_adaptive fuel t query base_radius min_neighbors
       = Some ([], t)) /\
    (0 < min_neighbors -> (0 < base_radius < 2)%R ->
     exists fuel (k : nat) t',
       find_neighbors_adaptive fuel t query base_radius min_neighbors
       = Some (found_at t query (enlarged k base_radius), t') /\
       (enlarged k base_radius < 2)%R /\
       (forall j, (j < k)%nat ->
          size (found_at t query (enlarged j base_radius)) < min_neighbors) /\
       (min_neighbors <= size (found_at t query (enlarged k base_radius)) \/
        (2 <= enlarged (S k) base_radius)%R) /\
       (forall p, In p points ->
          (distance_squared p query <= base_radius * base_radius)%R ->
          In p (found_at t query (enlarged k base_radius)))).
Proof.
  intros Hn.
  assert (exists t, build empty_tree points = Some t /\ kd_ok (root t) /\
                    Permutation (tree_points (root t)) points)
    as (t & Et & Hk & Hp).
  { destruct (list_eq_dec_nil points) as [->|Hne].
    - exists empty_tree. cbn. auto.
    - destruct (build_spec empty_tree points Hne Hn) as (nd & -> & Hp & Hk).
      eexists; split; [reflexivity|]. cbn. auto. }
  exists t. split; [assumption|]. split.
  - intros Hs fuel. apply adaptive_loop_skipped, Hs.
  - intros Hm Hr.
    destruct (radius_reaches_2 base_radius) as (fuel & Hf); [lra|].
    destruct (adaptive_loop_spec query min_neighbors fuel t base_radius [])
      as (k & t' & E & Hk2 & Hj & Hx);
      [change (size (@nil Point)) with 0; lia|assumption|assumption|].
    exists fuel, k, t'. rewrite !enlarged_pow.
    split; [exact E|]. split; [exact Hk2|]. split.
    { intros j Hlt. rewrite enlarged_pow. apply Hj, Hlt. }
    split; [exact Hx|].
    intros p Hin Hd. unfold found_at.
    apply find_neighbors_spec; [assumption|].
    split; [apply (Permutation_in _ (Permutation_sym Hp)), Hin|].
    assert (H1 : (1 <= 1.5 ^ k)%R) by (apply pow_R1_Rle; lra).
    apply (within_mono query base_radius); [nra|exact Hd].
Qed.

Lemma find_neighbors_adaptive_result_witness :
  size two_points < 2 ^ 63 /\
  exists t,
    build empty_tree two_points = Some t /\
    (5 <= 0 \/ (2 <= 1)%R ->
     forall fuel,
       find_neighbors_adaptive fuel t default_point 1 5 = Some ([], t)) /\
    (0 < 5 -> (0 < 1 < 2)%R ->
     exists fuel (k : nat) t',
       find_neighbors_adaptive fuel t default_point 1 5
       = Some (found_at t default_point (enlarged k 1), t') /\
       (enlarged k 1 < 2)%R /\
       (forall j, (j < k)%nat ->
          size (found_at t default_point (enlarged j 1)) < 5) /\
       (5 <= size (found_at t default_point (enlarged k 1)) \/
        (2 <= enlarged (S k) 1)%R) /\
       (forall p, In p two_points ->
          (distance_squared p default_point <= 1 * 1)%R ->
          In p (found_at t default_point (enlarged k 1)))).
Proof.
  split; [unfold size; simpl; lia|].
  apply (find_neighbors_adaptive_result two_points default_point 1 5).
  unfold size; simpl; lia.
Defined.

(** The loop as the specification words it: query at [radius]; while the
    result has fewer than [min_neighbors] points and [radius < 2.0],
    multiply [radius] by 1.5 and query again. *)
Fixpoint adaptive_as_specified (fuel : nat) (t : KDTree) (query : Point)
  (min_neighbors : Z) (radius : R) : option (list Point) :=
  let neighbors := found_at t query radius in
  if (size neighbors <? min_neighbors) && Rltb radius 2 then
    match fuel with
    | O => None
    | S fuel' =>
        adaptive_as_specified fuel' t query min_neighbors (radius * 1.5)
    end
  else Some neighbors.

(** C8 as stated fails: from the radius 2, on the tree of one point that is
    the query itself, the specified loop returns this point and
    [find_neighbors_adaptive] returns nothing. *)
Lemma find_neighbors_adaptive_capped_at_start :
  ~ (forall (E : StdNthElement) (points : list Point) (query : Point)
            (base_radius : R) (min_neighbors : Z) (p : Point),
       In p points -> (distance p query <= base_radius)%R ->
       exists fuel t found t',
         build empty_tree points = Some t /\
         find_neighbors_adaptive fuel t query base_radius min_neighbors
         = Some (found, t') /\
         adaptive_as_specified fuel t query min_neighbors base_radius
         = Some found /\
         found <> []).
Proof.
  intros Hc.
  destruct (Hc nth_element_sorting [default_point] default_point 2%R 1
               default_point)
    as (fuel & t & found & t' & _ & E & _ & Hne).
  - left; reflexivity.
  - rewrite distance_refl. lra.
  - unfold find_neighbors_adaptive in E.
    rewrite adaptive_loop_skipped in E by (right; lra).
    injection E as <- _. apply Hne. reflexivity.
Qed.

(** * A run of the hybrid optimizer *)

(** ** Four points in the plane *)


Lemma distance_value (v : R) (p q : Point) :
  (0 <= v)%R -> distance_squared p q = (v * v)%R -> distance p q = v.
Proof.
  intros Hv E. unfold distance. unfold distance_squared in E.
  rewrite E. apply sqrt_square, Hv.
Qed.



















Definition plane4_crossed : list Point :=
  [mkPoint 0 0 true 0; mkPoint 0.04 0.03 true 2;
   mkPoint 0.08 0 true 1; mkPoint 0.04 0.03 true 3].


Lemma plane4_activate :
  activate_neighborhood [-4; -3; -2; -1; 0; 1; 2; 3; 4] 0 2
    (map (set_active false) plane4_crossed)
  = Some plane4_crossed.
Proof. reflexivity. Qed.










(** * Further properties of the code *)

(** * The reversal of a segment *)

Lemma reverse_segment_idle tour start end_ :
  end_ <= start -> reverse_segment tour start end_ = Some tour.
Proof.
  intros H. unfold reverse_segment.
  destruct (Z.to_nat (end_ - start)); cbn [reverse_segment_loop];
    (destruct (Z.ltb_spec start end_); [lia|reflexivity]).
Qed.

Lemma split_segment (tour : list Point) start end_ :
  0 <= start -> start <= end_ -> end_ < size tour ->
  exists pre seg post,
    tour = pre ++ seg ++ post /\ size pre = start /\
    size seg = end_ - start + 1 /\ seg <> [].
Proof.
  intros H0 H1 H2.
  exists (firstn (Z.to_nat start) tour),
         (firstn (Z.to_nat (end_ - start + 1)) (skipn (Z.to_nat start) tour)),
         (skipn (Z.to_nat (end_ - start + 1)) (skipn (Z.to_nat start) tour)).
  unfold size in *.
  assert (L1 : length (firstn (Z.to_nat start) tour) = Z.to_nat start)
    by (rewrite length_firstn; lia).
  assert (L2 : length (firstn (Z.to_nat (end_ - start + 1))
                         (skipn (Z.to_nat start) tour))
               = Z.to_nat (end_ - start + 1))
    by (rewrite length_firstn, length_skipn; lia).
  split; [rewrite !firstn_skipn; reflexivity|].
  split; [lia|]. split; [lia|].
  intros E. rewrite E in L2. cbn in L2. lia.
Qed.

(** X1. [reverse_segment] on a segment that lies inside the vector reverses
    that segment and leaves the points before and after it in place. *)
Theorem reverse_segment_reverses (pre seg post : list Point) :
  seg <> [] ->
  size (pre ++ seg ++ post) < 2 ^ 64 ->
  reverse_segment (pre ++ seg ++ post) (size pre) (size pre + size seg - 1)
  = Some (pre ++ rev seg ++ post).
Proof. apply reverse_segment_spec. Qed.

Lemma reverse_segment_reverses_witness :
  two_points <> [] /\
  size ([default_point] ++ two_points ++ []) < 2 ^ 64 /\
  reverse_segment ([default_point] ++ two_points ++ [])
    (size [default_point]) (size [default_point] + size two_points - 1)
  = Some ([default_point] ++ rev two_points ++ []).
Proof.
  split; [discriminate|]. split; [reflexivity|].
  apply (reverse_segment_reverses [default_point] two_points []);
    [discriminate|reflexivity].
Defined.

(** X2. Reversing the same segment twice gives the vector back. *)
Theorem reverse_segment_twice (tour tour' : list Point) (start end_ : Z) :
  size tour < 2 ^ 64 -> 0 <= start -> 0 <= end_ < size tour ->
  reverse_segment tour start end_ = Some tour' ->
  reverse_segment tour' start end_ = Some tour.
Proof.
  intros Hn H0 [_ H1] E.
  destruct (Z.le_gt_cases end_ start) as [Hle|Hlt].
  - rewrite reverse_segment_idle in E by assumption. injection E as <-.
    apply reverse_segment_idle; assumption.
  - destruct (split_segment tour start end_)
      as (pre & seg & post & -> & Ea & Eb & Hne);
      [lia..|].
    replace start with (size pre) in * by exact Ea.
    replace end_ with (size pre + size seg - 1) in * by lia.
    rewrite reverse_segment_spec in E by assumption. injection E as <-.
    replace (size seg) with (size (rev seg))
      by (unfold size; rewrite length_rev; reflexivity).
    rewrite reverse_segment_spec.
    + rewrite rev_involutive. reflexivity.
    + intros E. apply (f_equal (@rev Point)) in E.
      rewrite rev_involutive in E. contradiction.
    + revert Hn. unfold size. rewrite !length_app, length_rev. trivial.
Qed.

Lemma reverse_segment_twice_witness :
  size two_points < 2 ^ 64 /\ 0 <= 0 /\ 0 <= 1 < size two_points /\
  reverse_segment two_points 0 1 = Some (rev two_points) /\
  reverse_segment (rev two_points) 0 1 = Some two_points.
Proof.
  assert (E : reverse_segment two_points 0 1 = Some (rev two_points))
    by reflexivity.
  split; [reflexivity|]. split; [lia|]. split; [split; [lia|reflexivity]|].
  split; [exact E|].
  apply (reverse_segment_twice two_points (rev two_points) 0 1);
    [reflexivity|lia|split; [lia|reflexivity]|exact E].
Defined.

(** * The 2-opt move *)

(** X3. [perform_2opt_swap] on a pair [i < j]: with [a] the points up to
    position [i], [b] those of the positions [i+1] to [j] and [c] the rest,
    the result is [a ++ rev b ++ c] when [b] is not longer than the rest of
    the tour, and [c ++ rev b ++ a] otherwise. *)
Theorem perform_2opt_swap_result (a b c : list Point) :
  a <> [] -> b <> [] ->
  size (a ++ b ++ c) < 2 ^ 64 ->
  perform_2opt_swap (a ++ b ++ c) (size a - 1) (size a + size b - 1)
  = Some (if size b <=? size a + size c then a ++ rev b ++ c
          else c ++ rev b ++ a).
Proof. apply perform_2opt_swap_spec. Qed.

Lemma perform_2opt_swap_result_witness :
  [default_point] <> [] /\ two_points <> [] /\
  size ([default_point] ++ two_points ++ []) < 2 ^ 64 /\
  perform_2opt_swap ([default_point] ++ two_points ++ [])
    (size [default_point] - 1) (size [default_point] + size two_points - 1)
  = Some (if size two_points <=? size [default_point] + size (@nil Point)
          then [default_point] ++ rev two_points ++ []
          else [] ++ rev two_points ++ [default_point]).
Proof.
  split; [discriminate|]. split; [discriminate|]. split; [reflexivity|].
  apply (perform_2opt_swap_result [default_point] two_points []);
    [discriminate|discriminate|reflexivity].
Defined.

(** The edges of the closed tour, in the order in which [tour_length] adds
    up their lengths. *)
Definition tour_edges (tour : list Point) : list (Point * Point) :=
  let n := length tour in
  map (fun i => (nth i tour default_point,
                 nth ((i + 1) mod n) tour default_point))
      (seq 0 n).

(** The edges of the open polyline through the points of [l]. *)
Fixpoint path_edges (l : list Point) : list (Point * Point) :=
  match l with
  | [] => []
  | p :: l' =>
      match l' with
      | [] => []
      | q :: _ => (p, q) :: path_edges l'
      end
  end.

(** An edge has no direction. *)
Definition flip (e : Point * Point) : Point * Point := (snd e, fst e).

Definition alike (e f : Point * Point) : Prop := e = f \/ e = flip f.

(** The same edges, in any order and direction. *)
Definition same_edges (es fs : list (Point * Point)) : Prop :=
  exists gs, Permutation es gs /\ Forall2 alike gs fs.

Lemma path_edges_nth (c : list Point) :
  path_edges c
  = map (fun i => (nth i c default_point, nth (S i) c default_point))
        (seq 0 (pred (length c))).
Proof.
  induction c as [|p c IH]; [reflexivity|].
  destruct c as [|q c]; [reflexivity|].
  cbn [length pred]. rewrite <- cons_seq. cbn [map nth].
  change (path_edges (p :: q :: c)) with ((p, q) :: path_edges (q :: c)).
  f_equal. rewrite IH. cbn [length pred].
  rewrite <- seq_shift, map_map. reflexivity.
Qed.

Lemma tour_edges_path (l : list Point) :
  tour_edges l = path_edges (l ++ [hd default_point l]).
Proof.
  rewrite path_edges_nth, length_app. cbn [length].
  replace (pred (length l + 1)) with (length l) by lia.
  unfold tour_edges. apply map_ext_in. intros i Hi. apply in_seq in Hi.
  rewrite (app_nth1 l _ default_point (n:=i)) by lia.
  f_equal.
  destruct (Nat.eq_dec (S i) (length l)) as [E|E].
  - replace ((i + 1) mod length l)%nat with 0%nat
      by (replace (i + 1)%nat with (length l) by lia;
          rewrite Nat.Div0.mod_same; reflexivity).
    rewrite app_nth2 by lia. rewrite E, Nat.sub_diag.
    destruct l; reflexivity.
  - rewrite Nat.mod_small by lia.
    rewrite app_nth1 by lia. replace (i + 1)%nat with (S i) by lia.
    reflexivity.
Qed.

(** [tour_length] adds up the lengths of the edges of the closed tour. *)
Lemma tour_length_edges (tour : list Point) :
  tour_length tour
  = fold_left (fun length_ e => (length_ + distance (fst e) (snd e))%R)
              (tour_edges tour) 0%R.
Proof.
  unfold tour_length, tour_edges.
  destruct (Nat.ltb_spec (length tour) 2) as [H|H].
  - destruct tour as [|p [|q l]]; simpl in *; try lia; [reflexivity|].
    rewrite distance_refl. ring.
  - rewrite fold_left_map'. reflexivity.
Qed.

Lemma path_edges_app u v :
  u <> [] -> v <> [] ->
  path_edges (u ++ v)
  = path_edges u
    ++ (last u default_point, hd default_point v) :: path_edges v.
Proof.
  intros Hu Hv. induction u as [|p u IH]; [contradiction|].
  destruct u as [|q u].
  - destruct v as [|r v]; [contradiction|]. reflexivity.
  - change (path_edges ((p :: q :: u) ++ v))
      with ((p, q) :: path_edges ((q :: u) ++ v)).
    rewrite IH by discriminate. reflexivity.
Qed.

Lemma rev_not_nil (l : list Point) : l <> [] -> rev l <> [].
Proof.
  intros Hl E. apply (f_equal (@length Point)) in E.
  rewrite length_rev in E. destruct l; [contradiction|discriminate].
Qed.

Lemma path_edges_rev l : path_edges (rev l) = rev (map flip (path_edges l)).
Proof.
  induction l as [|p l IH]; [reflexivity|].
  destruct l as [|q l]; [reflexivity|].
  change (rev (p :: q :: l)) with (rev (q :: l) ++ [p]).
  rewrite path_edges_app; [|apply rev_not_nil; discriminate|discriminate].
  rewrite IH. cbn [path_edges map rev hd].
  change (rev (q :: l)) with (rev l ++ [q]). rewrite last_last.
  reflexivity.
Qed.

Lemma alike_refl e : alike e e.
Proof. left; reflexivity. Qed.

Lemma alike_flip e : alike (flip e) e.
Proof. right; reflexivity. Qed.

Lemma Forall2_alike_refl es : Forall2 alike es es.
Proof. induction es; constructor; [apply alike_refl|assumption]. Qed.

Lemma Forall2_alike_flip es : Forall2 alike (map flip es) es.
Proof. induction es; constructor; [apply alike_flip|assumption]. Qed.

Lemma perm_reconnect {A} (x1 x2 o1 o2 : A) (F C : list A) :
  Permutation (x1 :: rev F ++ x2 :: C ++ [o1; o2])
              (o1 :: F ++ o2 :: C ++ [x1; x2]).
Proof.
  rewrite <- Permutation_rev.
  replace (o1 :: F ++ o2 :: C ++ [x1; x2])
    with ((o1 :: F ++ o2 :: C) ++ x1 :: [x2])
    by (cbn [app]; rewrite <- app_assoc; reflexivity).
  apply Permutation_cons_app.
  etransitivity; [apply Permutation_sym, Permutation_middle|].
  etransitivity; [|apply Permutation_cons_append]. apply perm_skip.
  apply Permutation_sym.
  rewrite app_assoc. apply Permutation_cons_app.
  rewrite <- app_assoc. apply Permutation_app_head.
  apply Permutation_cons_append.
Qed.

(** Reversing the middle part of a polyline exchanges the two edges at its
    ends and keeps all others. *)
Lemma path_edges_reversed a b c :
  a <> [] -> b <> [] -> c <> [] ->
  same_edges
    (path_edges (a ++ rev b ++ c)
     ++ [(last a default_point, hd default_point b);
         (last b default_point, hd default_point c)])
    (path_edges (a ++ b ++ c)
     ++ [(last a default_point, last b default_point);
         (hd default_point b, hd default_point c)]).
Proof.
  intros Ha Hb Hc.
  pose proof (rev_not_nil b Hb) as Hr.
  rewrite (path_edges_app a (rev b ++ c)), (path_edges_app (rev b) c),
    (path_edges_app a (b ++ c)), (path_edges_app b c);
    try assumption;
    try (destruct b; [contradiction|discriminate]);
    try (destruct (rev b); [contradiction|discriminate]).
  rewrite !hd_app_l by assumption.
  rewrite hd_rev, path_edges_rev.
  replace (last (rev b) default_point) with (hd default_point b)
    by (rewrite <- hd_rev, rev_involutive; reflexivity).
  set (ti := last a default_point). set (ti_next := hd default_point b).
  set (tj := last b default_point). set (tj_next := hd default_point c).
  exists (path_edges a
          ++ (ti, ti_next) :: map flip (path_edges b)
          ++ (tj, tj_next) :: path_edges c
          ++ [(ti, tj); (ti_next, tj_next)]).
  split.
  - repeat first [rewrite <- app_assoc | progress cbn [app]].
    apply Permutation_app_head, perm_reconnect.
  - repeat first [rewrite <- app_assoc | progress cbn [app]].
    apply Forall2_app; [apply Forall2_alike_refl|].
    constructor; [apply alike_refl|].
    apply Forall2_app; [apply Forall2_alike_flip|].
    constructor; [apply alike_refl|].
    apply Forall2_app; apply Forall2_alike_refl.
Qed.

(** X4. A swap whose segment is reversed in place is a 2-opt move on the
    four points that [calculate_2opt_gain] reads: the edges of the tour
    returned are those of the tour given, with [(ti, ti_next)] and
    [(tj, tj_next)] replaced by [(ti, tj)] and [(ti_next, tj_next)]; the
    gain is the length of the two edges removed minus that of the two
    edges added. *)
Theorem swap_exchanges_edges (tour : list Point) (i j : Z) :
  size tour < 2 ^ 64 -> 0 <= i -> i + 2 <= j -> j < size tour ->
  2 * (j - i) <= size tour ->
  exists ti ti_next tj tj_next tour',
    at_ tour i = Some ti /\ at_ tour (i + 1) = Some ti_next /\
    at_ tour j = Some tj /\
    at_ tour ((j + 1) mod size tour) = Some tj_next /\
    calculate_2opt_gain tour i j
    = Some (distance ti ti_next + distance tj tj_next
            - (distance ti tj + distance ti_next tj_next))%R /\
    perform_2opt_swap tour i j = Some tour' /\
    same_edges (tour_edges tour' ++ [(ti, ti_next); (tj, tj_next)])
               (tour_edges tour ++ [(ti, tj); (ti_next, tj_next)]).
Proof.
  intros Hn H0 H1 H2 Hp.
  destruct (split_tour tour i j) as (a & b & c & -> & Ea & Eb & Ha & Hb);
    try assumption; [lia|].
  assert (Hs : size (a ++ b ++ c) = size a + size b + size c)
    by (rewrite !size_app; lia).
  pose proof (size_nonneg c) as Hc0.
  assert (Hbc : b ++ c <> []) by (destruct b; [contradiction|discriminate]).
  assert (Hab : a ++ b <> []) by (destruct a; [contradiction|discriminate]).
  exists (last a default_point), (hd default_point b),
    (last b default_point), (hd default_point (c ++ a)),
    (a ++ rev b ++ c).
  replace i with (size a - 1) by lia.
  replace j with (size a + size b - 1) by lia.
  split; [apply at_last, Ha|].
  split.
  { replace (size a - 1 + 1) with (size a) by lia.
    rewrite (at_hd a (b ++ c)) by assumption.
    rewrite hd_app_l by assumption. reflexivity. }
  split.
  { rewrite (app_assoc a b c).
    replace (size a + size b - 1) with (size (a ++ b) - 1)
      by (rewrite size_app; lia).
    rewrite (at_last (a ++ b) c) by assumption.
    rewrite last_app_r by assumption. reflexivity. }
  split.
  { rewrite Hs. replace (size a + size b - 1 + 1) with (size a + size b) by lia.
    destruct c as [|q c].
    - rewrite size_nil, Z.add_0_r, Z.mod_same by lia.
      rewrite app_nil_r, at_0 by assumption.
      rewrite hd_app_l by assumption. reflexivity.
    - rewrite Z.mod_small by (rewrite size_cons; pose proof (size_nonneg c); lia).
      rewrite (app_assoc a b (q :: c)).
      replace (size a + size b) with (size (a ++ b)) by (rewrite size_app; lia).
      rewrite at_hd by discriminate. reflexivity. }
  split.
  { rewrite calculate_2opt_gain_spec by assumption. reflexivity. }
  split.
  { rewrite perform_2opt_swap_spec by assumption.
    destruct (Z.leb_spec (size b) (size a + size c)); [reflexivity|lia]. }
  rewrite !tour_edges_path.
  rewrite (hd_app_l a (rev b ++ c)), (hd_app_l a (b ++ c)) by assumption.
  rewrite <- !app_assoc.
  replace (hd default_point (c ++ a))
    with (hd default_point (c ++ [hd default_point a]))
    by (destruct c; [destruct a; [contradiction|reflexivity]|reflexivity]).
  apply path_edges_reversed; try assumption.
  destruct c; discriminate.
Qed.

(** The corners of a rectangle of 3 by 4, in the order of its boundary and,
    below, with the second and the third exchanged: a tour that crosses
    itself. Every distance is 3, 4 or 5. *)
Definition rectangle : list Point :=
  [mkPoint 0 0 true 0; mkPoint 3 0 true 1; mkPoint 3 4 true 2;
   mkPoint 0 4 true 3].

Definition crossed_rectangle : list Point :=
  [mkPoint 0 0 true 0; mkPoint 3 4 true 2; mkPoint 3 0 true 1;
   mkPoint 0 4 true 3].

Lemma swap_exchanges_edges_witness :
  size crossed_rectangle < 2 ^ 64 /\ 0 <= 0 /\ 0 + 2 <= 2 /\
  2 < size crossed_rectangle /\ 2 * (2 - 0) <= size crossed_rectangle /\
  exists ti ti_next tj tj_next tour',
    at_ crossed_rectangle 0 = Some ti /\
    at_ crossed_rectangle (0 + 1) = Some ti_next /\
    at_ crossed_rectangle 2 = Some tj /\
    at_ crossed_rectangle ((2 + 1) mod size crossed_rectangle)
    = Some tj_next /\
    calculate_2opt_gain crossed_rectangle 0 2
    = Some (distance ti ti_next + distance tj tj_next
            - (distance ti tj + distance ti_next tj_next))%R /\
    perform_2opt_swap crossed_rectangle 0 2 = Some tour' /\
    same_edges (tour_edges tour' ++ [(ti, ti_next); (tj, tj_next)])
               (tour_edges crossed_rectangle
                ++ [(ti, tj); (ti_next, tj_next)]).
Proof.
  split; [reflexivity|]. split; [lia|]. split; [lia|].
  split; [reflexivity|]. split; [vm_compute; discriminate|].
  apply (swap_exchanges_edges crossed_rectangle 0 2);
    [reflexivity|lia|lia|reflexivity|vm_compute; discriminate].
Defined.

(** X5. A swap whose segment is reversed in place is undone by the same
    swap. *)
Theorem swap_twice (tour tour' : list Point) (i j : Z) :
  size tour < 2 ^ 64 -> 0 <= i -> i < j -> j < size tour ->
  2 * (j - i) <= size tour ->
  perform_2opt_swap tour i j = Some tour' ->
  perform_2opt_swap tour' i j = Some tour.
Proof.
  intros Hn H0 H1 H2 Hp E.
  destruct (split_tour tour i j) as (a & b & c & -> & Ea & Eb & Ha & Hb);
    try assumption.
  assert (Hs : size (a ++ b ++ c) = size a + size b + size c)
    by (rewrite !size_app; lia).
  replace i with (size a - 1) in * by lia.
  replace j with (size a + size b - 1) in * by lia.
  rewrite perform_2opt_swap_spec in E by assumption.
  destruct (Z.leb_spec (size b) (size a + size c)) as [Hle|Hgt]; [|lia].
  injection E as <-.
  assert (Er : size (rev b) = size b)
    by (unfold size; rewrite length_rev; reflexivity).
  rewrite <- Er.
  rewrite perform_2opt_swap_spec.
  - rewrite Er. destruct (Z.leb_spec (size b) (size a + size c)); [|lia].
    rewrite rev_involutive. reflexivity.
  - assumption.
  - intros E. apply (f_equal (@rev Point)) in E.
    rewrite rev_involutive in E. contradiction.
  - rewrite !size_app, Er. lia.
Qed.

Lemma swap_twice_witness :
  size (two_points ++ two_points) < 2 ^ 64 /\ 0 <= 0 /\ 0 < 2 /\
  2 < size (two_points ++ two_points) /\
  2 * (2 - 0) <= size (two_points ++ two_points) /\
  perform_2opt_swap (two_points ++ two_points) 0 2
  = Some [mkPoint 0 0 true 0; mkPoint 0 0 true 0; mkPoint 1 0 true 1;
          mkPoint 1 0 true 1] /\
  perform_2opt_swap [mkPoint 0 0 true 0; mkPoint 0 0 true 0;
                     mkPoint 1 0 true 1; mkPoint 1 0 true 1] 0 2
  = Some (two_points ++ two_points).
Proof.
  assert (E : perform_2opt_swap (two_points ++ two_points) 0 2
              = Some [mkPoint 0 0 true 0; mkPoint 0 0 true 0;
                      mkPoint 1 0 true 1; mkPoint 1 0 true 1])
    by reflexivity.
  split; [reflexivity|]. split; [lia|]. split; [lia|]. split; [reflexivity|].
  split; [vm_compute; discriminate|]. split; [exact E|].
  apply (swap_twice (two_points ++ two_points) _ 0 2);
    [reflexivity|lia|lia|reflexivity|vm_compute; discriminate|exact E].
Defined.

(** * The length of a tour *)

Lemma fold_left_lengths (es : list (Point * Point)) :
  forall acc : R,
    (acc <= fold_left (fun length_ e => length_ + distance (fst e) (snd e))
                      es acc)%R /\
    (forall e, In e es ->
       (acc + distance (fst e) (snd e)
        <= fold_left (fun length_ e => length_ + distance (fst e) (snd e))
                     es acc)%R).
Proof.
  induction es as [|f es IH]; intros acc; cbn [fold_left].
  - split; [lra|intros e []].
  - destruct (IH (acc + distance (fst f) (snd f))%R) as [H1 H2].
    pose proof (distance_nonneg (fst f) (snd f)) as Hf.
    split; [lra|].
    intros e [<-|Hin]; [exact H1|].
    specialize (H2 e Hin). lra.
Qed.

(** X6. [tour_length] adds up the lengths of the edges of the closed tour,
    each once and in the order of the tour, the edge from the last point
    back to the first included; it is never negative, and no edge of the
    tour is longer than it. *)
Theorem tour_length_sums_edges (tour : list Point) :
  tour_length tour
  = fold_left (fun length_ e => (length_ + distance (fst e) (snd e))%R)
              (tour_edges tour) 0%R /\
  tour_edges tour = path_edges (tour ++ [hd default_point tour]) /\
  (0 <= tour_length tour)%R /\
  (forall e, In e (tour_edges tour) ->
     (distance (fst e) (snd e) <= tour_length tour)%R).
Proof.
  split; [apply tour_length_edges|]. split; [apply tour_edges_path|].
  rewrite tour_length_edges.
  destruct (fold_left_lengths (tour_edges tour) 0%R) as [H1 H2].
  split; [exact H1|].
  intros e Hin. specialize (H2 e Hin). lra.
Qed.

(** * is_valid_tour *)

Lemma existsb_eqb_In (i : Z) (seen : list Z) :
  existsb (Z.eqb i) seen = true <-> In i seen.
Proof.
  rewrite existsb_exists. split.
  - intros (k & Hk & E). apply Z.eqb_eq in E. subst. assumption.
  - intros Hi. exists i. split; [assumption|apply Z.eqb_refl].
Qed.

Lemma all_distinct_inv ids :
  forall seen s,
    all_distinct ids seen = Some s ->
    NoDup ids /\ (forall i, In i ids -> ~ In i seen) /\ s = rev ids ++ seen.
Proof.
  induction ids as [|i ids IH]; intros seen s E; cbn [all_distinct] in E.
  - injection E as <-. split; [constructor|]. split; [intros i []|reflexivity].
  - destruct (existsb (Z.eqb i) seen) eqn:Ei; [discriminate|].
    apply IH in E as (Hnd & Hs & ->).
    assert (Hi : ~ In i seen).
    { intros Hi. apply existsb_eqb_In in Hi. congruence. }
    split; [|split].
    + constructor; [|assumption]. intros Hin. apply (Hs i Hin). left; reflexivity.
    + intros k [<-|Hk]; [assumption|].
      intros Hin. apply (Hs k Hk). right; assumption.
    + cbn [rev]. rewrite <- app_assoc. reflexivity.
Qed.

(** X7. [is_valid_tour] holds exactly when the two vectors have the same
    size, no id occurs twice in the tour, and every id of the original
    points occurs in the tour. Coordinates are not compared. *)
Theorem is_valid_tour_iff (tour original_points : list Point) :
  is_valid_tour tour original_points = true <->
  size tour = size original_points /\
  NoDup (map id tour) /\
  (forall p, In p original_points -> In (id p) (map id tour)).
Proof.
  unfold is_valid_tour.
  destruct (Z.eqb_spec (size tour) (size original_points)) as [Es|Es];
    cbn [negb]; [|split; [discriminate|intros (E & _); contradiction]].
  destruct (all_distinct (map id tour) []) as [seen|] eqn:Ed.
  - apply all_distinct_inv in Ed as (Hnd & _ & ->). rewrite app_nil_r.
    rewrite forallb_forall. split.
    + intros Hall. split; [assumption|]. split; [assumption|].
      intros p Hp. apply in_rev, existsb_eqb_In, Hall, Hp.
    + intros (_ & _ & Hall) p Hp. apply existsb_eqb_In. rewrite <- in_rev.
      apply Hall, Hp.
  - split; [discriminate|]. intros (_ & Hnd & _).
    rewrite all_distinct_spec in Ed; [discriminate|assumption|intros i _ []].
Qed.

(** * The shape of the tree that [build] makes *)

(** The field [depth] of a node is its level in the tree. *)
Fixpoint kd_depths (d : Z) (nd : KDNode) : Prop :=
  match nd with
  | null => True
  | node _ l r depth =>
      depth = d /\ kd_depths (d + 1) l /\ kd_depths (d + 1) r
  end.

Fixpoint height (nd : KDNode) : nat :=
  match nd with
  | null => O
  | node _ l r _ => S (Nat.max (height l) (height r))
  end.

Section Shape.
Context `{StdNthElement}.

Lemma build_range_shape (fuel : nat) :
  forall points depth start end_ nd points',
    build_range fuel points depth start end_ = Some (nd, points') ->
    0 <= start -> end_ < 2 ^ 63 ->
    kd_depths depth nd /\
    forall k : nat, end_ - start < 2 ^ Z.of_nat k -> (height nd <= k)%nat.
Proof.
  induction fuel as [|fuel IH]; intros points depth start end_ nd points' E H0 H1;
    cbn [build_range] in E;
    destruct (Z.leb_spec end_ start) as [Hle|Hlt]; try discriminate;
    try (injection E as <- <-; split; [exact I|intros k _; cbn; lia]).
  set (mid := wrap (start + end_) / 2) in *.
  assert (Hmid : mid = (start + end_) / 2)
    by (subst mid; rewrite wrap_small by lia; reflexivity).
  set (points1 := nth_element _ points start mid end_) in *.
  destruct (at_ points1 mid) as [p|]; [|discriminate].
  destruct (build_range fuel points1 (depth + 1) start mid)
    as [[l points2]|] eqn:El; [|discriminate].
  destruct (build_range fuel points2 (depth + 1) (wrap (mid + 1)) end_)
    as [[r points3]|] eqn:Er; [|discriminate].
  injection E as <- <-.
  assert (Hm : start <= mid < end_)
    by (rewrite Hmid; split;
        [apply Z.div_le_lower_bound|apply Z.div_lt_upper_bound]; lia).
  rewrite wrap_small in Er by lia.
  apply IH in El as (Dl & Hl); [|lia|lia].
  apply IH in Er as (Dr & Hr); [|lia|lia].
  split; [cbn [kd_depths]; auto|].
  intros k Hk. destruct k as [|k].
  { cbn in Hk. lia. }
  rewrite Nat2Z.inj_succ, Z.pow_succ_r in Hk by lia.
  cbn [height]. apply le_n_S, Nat.max_lub.
  - apply Hl.
    assert (2 * mid <= start + end_)
      by (rewrite Hmid; apply Z.mul_div_le; lia).
    lia.
  - apply Hr.
    assert (start + end_ < 2 * mid + 2).
    { rewrite Hmid.
      pose proof (Z.mod_pos_bound (start + end_) 2 ltac:(lia)).
      pose proof (Z.div_mod (start + end_) 2 ltac:(lia)). lia. }
    lia.
Qed.

(** X8. [build] on a vector that is not empty replaces the tree: the new
    tree holds the points given, each once, whatever the tree held before;
    every left subtree lies on or below the point of its node on the axis of
    the node, every right subtree on or above; the field [depth] of a node
    is its level; [size()] is the number of points, [nodes_visited] zero. *)
Theorem build_tree (t : KDTree) (points : list Point) :
  points <> [] -> size points < 2 ^ 63 ->
  exists nd,
    build t points = Some (mkKDTree nd (size points) 0) /\
    Permutation (tree_points nd) points /\ kd_ok nd /\ kd_depths 0 nd.
Proof.
  intros Hne Hn.
  destruct (build_spec t points Hne Hn) as (nd & E & Hp & Hk).
  exists nd. repeat split; try assumption.
  unfold build in E. destruct points as [|p0 points]; [contradiction|].
  destruct (build_range _ _ 0 0 _) as [[rt pts]|] eqn:Er; [|discriminate].
  injection E as <-.
  apply build_range_shape in Er as (Hd & _); [assumption|lia|assumption].
Qed.

(** X9. The tree is balanced: on [n] points its height is at most
    [log2 n + 1]. *)
Theorem build_height (t : KDTree) (points : list Point) :
  points <> [] -> size points < 2 ^ 63 ->
  exists nd,
    build t points = Some (mkKDTree nd (size points) 0) /\
    Z.of_nat (height nd) <= Z.log2 (size points) + 1.
Proof.
  intros Hne Hn.
  destruct (build_spec t points Hne Hn) as (nd & E & _).
  exists nd. split; [assumption|].
  unfold build in E. destruct points as [|p0 points]; [contradiction|].
  destruct (build_range _ _ 0 0 _) as [[rt pts]|] eqn:Er; [|discriminate].
  injection E as <-.
  apply build_range_shape in Er as (_ & Hh); [|lia|assumption].
  set (n := size (p0 :: points)) in *.
  assert (Hpos : 0 < n) by (subst n; unfold size; cbn [length]; lia).
  pose proof (Z.log2_nonneg n) as Hl.
  specialize (Hh (Z.to_nat (Z.log2 n + 1))).
  rewrite Z2Nat.id in Hh by lia.
  pose proof (Z.log2_spec n Hpos) as Hs.
  replace (Z.succ (Z.log2 n)) with (Z.log2 n + 1) in Hs by lia.
  specialize (Hh ltac:(lia)). lia.
Qed.

End Shape.

Lemma build_tree_witness :
  two_points <> [] /\ size two_points < 2 ^ 63 /\
  exists nd,
    build empty_tree two_points = Some (mkKDTree nd (size two_points) 0) /\
    Permutation (tree_points nd) two_points /\ kd_ok nd /\ kd_depths 0 nd.
Proof.
  split; [discriminate|]. split; [reflexivity|].
  apply (build_tree empty_tree two_points); [discriminate|reflexivity].
Defined.

Lemma build_height_witness :
  two_points <> [] /\ size two_points < 2 ^ 63 /\
  exists nd,
    build empty_tree two_points = Some (mkKDTree nd (size two_points) 0) /\
    Z.of_nat (height nd) <= Z.log2 (size two_points) + 1.
Proof.
  split; [discriminate|]. split; [reflexivity|].
  apply (build_height empty_tree two_points); [discriminate|reflexivity].
Defined.

(** * What a fixed-radius query returns and visits *)

(** The test [dist_sq <= radius * radius] of [find_neighbors_frnn]. *)
Definition withinb (query : Point) (radius : R) (p : Point) : bool :=
  Rleb (distance_squared p query) (radius * radius).

Lemma withinb_spec query radius p :
  reflect (within query radius p) (withinb query radius p).
Proof. unfold within, withinb. apply Rleb_spec. Qed.

Lemma filter_none {A} (f : A -> bool) (l : list A) :
  (forall a, In a l -> f a = false) -> filter f l = [].
Proof.
  induction l as [|a l IH]; intros Hf; [reflexivity|].
  cbn [filter]. rewrite (Hf a) by (left; reflexivity).
  apply IH. intros b Hb. apply Hf. right; assumption.
Qed.

Lemma incr_wrap v k : incr (wrap (v + k)) = wrap (v + (k + 1)).
Proof.
  unfold incr, wrap. rewrite Zplus_mod_idemp_l. f_equal. lia.
Qed.

(** [find_neighbors_frnn] appends the points of the subtree that pass the
    test, each as often as the subtree holds it, and counts the nodes it
    looks at. *)
Lemma find_neighbors_frnn_exact nd query radius :
  kd_ok nd ->
  forall neighbors visited,
  exists found (k : nat),
    find_neighbors_frnn nd query radius (neighbors, wrap visited)
    = (neighbors ++ found, wrap (visited + Z.of_nat k)) /\
    Permutation found (filter (withinb query radius) (tree_points nd)) /\
    (k <= length (tree_points nd))%nat /\
    (nd <> null -> (1 <= k)%nat).
Proof.
  induction nd as [|p l IHl r IHr depth]; intros Hk neighbors visited.
  - exists [], O. cbn. rewrite app_nil_r, Z.add_0_r.
    repeat split; auto. intros []. reflexivity.
  - destruct Hk as (Fl & Fr & Kl & Kr).
    specialize (IHl Kl). specialize (IHr Kr).
    cbn [find_neighbors_frnn tree_points filter].
    fold (withinb query radius p).
    set (axis := Z.rem depth 2 =? 0) in *.
    set (diff := if axis then (x query - x p)%R else (y query - y p)%R).
    set (rr := (radius * radius)%R).
    set (here := if withinb query radius p then [p] else []).
    assert (Eh : (if withinb query radius p then neighbors ++ [p]
                  else neighbors) = neighbors ++ here)
      by (subst here; destruct (withinb query radius p);
          [reflexivity|rewrite app_nil_r; reflexivity]).
    rewrite Eh.
    assert (Ef : (if withinb query radius p
                  then p :: filter (withinb query radius)
                              (tree_points l ++ tree_points r)
                  else filter (withinb query radius)
                         (tree_points l ++ tree_points r))
                 = here ++ filter (withinb query radius) (tree_points l)
                        ++ filter (withinb query radius) (tree_points r))
      by (subst here; rewrite filter_app;
          destruct (withinb query radius p); reflexivity).
    rewrite Ef.
    replace (incr (wrap visited)) with (wrap (visited + 1))
      by (rewrite <- (Z.add_0_r visited) at 2; rewrite incr_wrap; reflexivity).
    rewrite Forall_forall in Fl, Fr. cbn [length]. rewrite length_app.
    destruct (Rleb_spec diff 0) as [Hd|Hd].
    + destruct (IHl (neighbors ++ here) (visited + 1))
        as (fl & kl & -> & Pl & Bl & _).
      destruct (Rleb_spec (diff * diff) rr) as [Hp|Hp].
      * destruct (IHr ((neighbors ++ here) ++ fl) (visited + 1 + Z.of_nat kl))
          as (fr & kr & -> & Pr & Br & _).
        exists (here ++ fl ++ fr), (1 + kl + kr)%nat.
        split; [rewrite <- !app_assoc; f_equal; f_equal; lia|].
        split; [rewrite Pl, Pr; reflexivity|]. split; [lia|intros _; lia].
      * exists (here ++ fl), (1 + kl)%nat.
        split; [rewrite <- !app_assoc; f_equal; f_equal; lia|].
        split; [|split; [lia|intros _; lia]].
        rewrite (filter_none _ (tree_points r)), app_nil_r, Pl; [reflexivity|].
        intros b Hb. destruct (withinb_spec query radius b) as [Hw|]; [|reflexivity].
        exfalso.
        apply (far_side_right axis p b query radius);
          [exact Hd|apply Fr, Hb|fold diff rr; lra|exact Hw].
    + destruct (IHr (neighbors ++ here) (visited + 1))
        as (fr & kr & -> & Pr & Br & _).
      destruct (Rleb_spec (diff * diff) rr) as [Hp|Hp].
      * destruct (IHl ((neighbors ++ here) ++ fr) (visited + 1 + Z.of_nat kr))
          as (fl & kl & -> & Pl & Bl & _).
        exists (here ++ fr ++ fl), (1 + kr + kl)%nat.
        split; [rewrite <- !app_assoc; f_equal; f_equal; lia|].
        split; [|split; [lia|intros _; lia]].
        rewrite Pl, Pr. apply Permutation_app_head, Permutation_app_comm.
      * exists (here ++ fr), (1 + kr)%nat.
        split; [rewrite <- !app_assoc; f_equal; f_equal; lia|].
        split; [|split; [lia|intros _; lia]].
        rewrite (filter_none _ (tree_points l)), Pr; [reflexivity|].
        intros a Ha. destruct (withinb_spec query radius a) as [Hw|]; [|reflexivity].
        exfalso.
        apply (far_side_left axis p a query radius);
          [fold diff; lra|apply Fl, Ha|fold diff rr; lra|exact Hw].
Qed.

(** X10. [find_neighbors] on the tree built from [points] returns the
    points of [points] whose squared distance to the query is at most
    [radius * radius], each as often as [points] holds it. *)
Theorem find_neighbors_exact `{StdNthElement} (points : list Point)
  (query : Point) (radius : R) :
  size points < 2 ^ 63 ->
  exists t,
    build empty_tree points = Some t /\
    Permutation (fst (find_neighbors t query radius))
                (filter (withinb query radius) points).
Proof.
  intros Hn. destruct (list_eq_dec_nil points) as [->|Hne].
  - exists empty_tree. split; reflexivity.
  - destruct (build_spec empty_tree points Hne Hn) as (nd & -> & Hp & Hk).
    eexists; split; [reflexivity|].
    unfold find_neighbors. cbn [root].
    destruct (find_neighbors_frnn_exact nd query radius Hk [] 0)
      as (found & k & E & Pf & _).
    change (wrap 0) with 0 in E. rewrite E. cbn [fst app].
    rewrite Pf. clear - Hp.
    induction Hp as [|a l l' Hp IH|a b l|l l' l'' Hp1 IH1 Hp2 IH2];
      cbn [filter].
    + reflexivity.
    + destruct (withinb query radius a); [constructor|]; assumption.
    + destruct (withinb query radius a), (withinb query radius b);
        try reflexivity. constructor.
    + etransitivity; eassumption.
Qed.

Lemma find_neighbors_exact_witness :
  size two_points < 2 ^ 63 /\
  exists t,
    build empty_tree two_points = Some t /\
    Permutation (fst (find_neighbors t default_point 1))
                (filter (withinb default_point 1) two_points).
Proof.
  split; [reflexivity|].
  apply (find_neighbors_exact two_points default_point 1). reflexivity.
Defined.

(** X11. A query changes nothing of the tree but the counter
    [nodes_visited], which it sets to the number of nodes it looked at: at
    least one and at most the number of points. *)
Theorem find_neighbors_visits `{StdNthElement} (points : list Point)
  (query : Point) (radius : R) :
  points <> [] -> size points < 2 ^ 63 ->
  exists t,
    build empty_tree points = Some t /\
    root (snd (find_neighbors t query radius)) = root t /\
    size_ (snd (find_neighbors t query radius)) = size points /\
    1 <= get_nodes_visited (snd (find_neighbors t query radius))
      <= size points.
Proof.
  intros Hne Hn.
  destruct (build_spec empty_tree points Hne Hn) as (nd & -> & Hp & Hk).
  eexists; split; [reflexivity|].
  unfold find_neighbors. cbn [root].
  destruct (find_neighbors_frnn_exact nd query radius Hk [] 0)
    as (found & k & E & _ & Bk & B1).
  change (wrap 0) with 0 in E. rewrite E.
  cbn [snd set_nodes_visited root size_ get_nodes_visited nodes_visited].
  split; [reflexivity|]. split; [reflexivity|].
  assert (Hnd : nd <> null).
  { intros ->. cbn in Hp. apply Permutation_nil in Hp. contradiction. }
  specialize (B1 Hnd).
  rewrite (Permutation_length Hp) in Bk.
  rewrite Z.add_0_l, wrap_small; unfold size in *; lia.
Qed.

Lemma find_neighbors_visits_witness :
  two_points <> [] /\ size two_points < 2 ^ 63 /\
  exists t,
    build empty_tree two_points = Some t /\
    root (snd (find_neighbors t default_point 1)) = root t /\
    size_ (snd (find_neighbors t default_point 1)) = size two_points /\
    1 <= get_nodes_visited (snd (find_neighbors t default_point 1))
      <= size two_points.
Proof.
  split; [discriminate|]. split; [reflexivity|].
  apply (find_neighbors_visits two_points default_point 1);
    [discriminate|reflexivity].
Defined.

(** * Nearest neighbour *)

Lemma far_side_right_sq (axis : bool) (p b query : Point) :
  let diff := if axis then (x query - x p)%R else (y query - y p)%R in
  (diff <= 0)%R -> less axis b p = false ->
  (diff * diff <= distance_squared b query)%R.
Proof.
  intros diff Hd Hl. unfold distance_squared.
  unfold less in Hl. subst diff.
  pose proof (Rle_0_sqr (x b - x query)) as Sx.
  pose proof (Rle_0_sqr (y b - y query)) as Sy.
  unfold Rsqr in Sx, Sy.
  destruct axis.
  - destruct (Rltb_spec (x b) (x p)); [discriminate|].
    pose proof (square_le (x p - x query) (x b - x query)).
    replace ((x query - x p) * (x query - x p))%R
      with ((x p - x query) * (x p - x query))%R by ring.
    lra.
  - destruct (Rltb_spec (y b) (y p)); [discriminate|].
    pose proof (square_le (y p - y query) (y b - y query)).
    replace ((y query - y p) * (y query - y p))%R
      with ((y p - y query) * (y p - y query))%R by ring.
    lra.
Qed.

Lemma far_side_left_sq (axis : bool) (p a query : Point) :
  let diff := if axis then (x query - x p)%R else (y query - y p)%R in
  (0 < diff)%R -> less axis p a = false ->
  (diff * diff <= distance_squared a query)%R.
Proof.
  intros diff Hd Hl. unfold distance_squared.
  unfold less in Hl. subst diff.
  pose proof (Rle_0_sqr (x a - x query)) as Sx.
  pose proof (Rle_0_sqr (y a - y query)) as Sy.
  unfold Rsqr in Sx, Sy.
  destruct axis.
  - destruct (Rltb_spec (x p) (x a)); [discriminate|].
    pose proof (square_le (x query - x p) (x query - x a)).
    replace ((x a - x query) * (x a - x query))%R
      with ((x query - x a) * (x query - x a))%R in * by ring.
    lra.
  - destruct (Rltb_spec (y p) (y a)); [discriminate|].
    pose proof (square_le (y query - y p) (y query - y a)).
    replace ((y a - y query) * (y a - y query))%R
      with ((y query - y a) * (y query - y a))%R in * by ring.
    lra.
Qed.

(** [find_nearest] leaves in [best] a point at least as near as the one it
    was given and as every point of the subtree. *)
Lemma find_nearest_spec nd query :
  kd_ok nd ->
  forall best visited,
  exists best' visited',
    find_nearest nd query (best, distance_squared best query, visited)
    = (best', distance_squared best' query, visited') /\
    (best' = best \/ In best' (tree_points nd)) /\
    (distance_squared best' query <= distance_squared best query)%R /\
    (forall p, In p (tree_points nd) ->
       (distance_squared best' query <= distance_squared p query)%R).
Proof.
  induction nd as [|p l IHl r IHr depth]; intros Hk best visited.
  - exists best, visited. cbn. repeat split; auto; try lra. intros p [].
  - destruct Hk as (Fl & Fr & Kl & Kr).
    specialize (IHl Kl). specialize (IHr Kr).
    rewrite Forall_forall in Fl, Fr.
    cbn [find_nearest tree_points].
    set (axis := Z.rem depth 2 =? 0) in *.
    set (diff := if axis then (x query - x p)%R else (y query - y p)%R).
    assert (exists b1,
      (if Rltb (distance_squared p query) (distance_squared best query)
       then (p, distance_squared p query)
       else (best, distance_squared best query))
      = (b1, distance_squared b1 query) /\
      (b1 = best \/ b1 = p) /\
      (distance_squared b1 query <= distance_squared best query)%R /\
      (distance_squared b1 query <= distance_squared p query)%R)
      as (b1 & -> & Hb1 & Hle1 & Hp1).
    { destruct (Rltb_spec (distance_squared p query)
                          (distance_squared best query)).
      - exists p. repeat split; auto; lra.
      - exists best. repeat split; auto; lra. }
    destruct (Rleb_spec diff 0) as [Hd|Hd].
    + destruct (IHl b1 (incr visited)) as (b2 & v2 & -> & Hb2 & Hle2 & Hl2).
      cbn [fst snd].
      destruct (Rltb_spec (diff * diff) (distance_squared b2 query)) as [Hp|Hp].
      * destruct (IHr b2 v2) as (b3 & v3 & -> & Hb3 & Hle3 & Hr3).
        exists b3, v3. split; [reflexivity|].
        split; [|split; [lra|]].
        { cbn [In]. rewrite in_app_iff.
          destruct Hb3 as [->|]; [|auto].
          destruct Hb2 as [->|]; [|auto].
          destruct Hb1 as [->| ->]; auto. }
        intros p' [<-|Hi]; [lra|].
        apply in_app_iff in Hi as [Hi|Hi]; [|auto].
        specialize (Hl2 p' Hi). lra.
      * exists b2, v2. split; [reflexivity|].
        split; [|split; [lra|]].
        { cbn [In]. rewrite in_app_iff.
          destruct Hb2 as [->|]; [|auto].
          destruct Hb1 as [->| ->]; auto. }
        intros p' [<-|Hi]; [lra|].
        apply in_app_iff in Hi as [Hi|Hi]; [auto|].
        pose proof (far_side_right_sq axis p p' query Hd (Fr p' Hi)) as Hf.
        fold diff in Hf. lra.
    + destruct (IHr b1 (incr visited)) as (b2 & v2 & -> & Hb2 & Hle2 & Hr2).
      cbn [fst snd].
      destruct (Rltb_spec (diff * diff) (distance_squared b2 query)) as [Hp|Hp].
      * destruct (IHl b2 v2) as (b3 & v3 & -> & Hb3 & Hle3 & Hl3).
        exists b3, v3. split; [reflexivity|].
        split; [|split; [lra|]].
        { cbn [In]. rewrite in_app_iff.
          destruct Hb3 as [->|]; [|auto].
          destruct Hb2 as [->|]; [|auto].
          destruct Hb1 as [->| ->]; auto. }
        intros p' [<-|Hi]; [lra|].
        apply in_app_iff in Hi as [Hi|Hi]; [auto|].
        specialize (Hr2 p' Hi). lra.
      * exists b2, v2. split; [reflexivity|].
        split; [|split; [lra|]].
        { cbn [In]. rewrite in_app_iff.
          destruct Hb2 as [->|]; [|auto].
          destruct Hb1 as [->| ->]; auto. }
        intros p' [<-|Hi]; [lra|].
        apply in_app_iff in Hi as [Hi|Hi]; [|auto].
        assert (Hd' : (0 < diff)%R) by lra.
        pose proof (far_side_left_sq axis p p' query Hd' (Fl p' Hi)) as Hf.
        fold diff in Hf. lra.
Qed.

Lemma distance_squared_sym a b : distance_squared a b = distance_squared b a.
Proof. unfold distance_squared. ring. Qed.

Lemma distance_sqrt a b : distance a b = sqrt (distance_squared a b).
Proof. reflexivity. Qed.

(** X12. [find_nearest_neighbor] on the tree built from [points] returns a
    point of [points] that no point of [points] is nearer to the query
    than; on the empty tree it returns [Point()]. *)
Theorem find_nearest_neighbor_nearest `{StdNthElement} (points : list Point)
  (query : Point) :
  size points < 2 ^ 63 ->
  exists t,
    build empty_tree points = Some t /\
    (points = [] -> fst (find_nearest_neighbor t query) = default_point) /\
    (points <> [] ->
     In (fst (find_nearest_neighbor t query)) points /\
     forall p, In p points ->
       (distance (fst (find_nearest_neighbor t query)) query
        <= distance p query)%R).
Proof.
  intros Hn. destruct (list_eq_dec_nil points) as [->|Hne].
  - exists empty_tree. split; [reflexivity|].
    split; [reflexivity|]. intros Hne. contradiction.
  - destruct (build_spec empty_tree points Hne Hn) as (nd & -> & Hp & Hk).
    eexists; split; [reflexivity|]. split; [contradiction|]. intros _.
    unfold find_nearest_neighbor. cbn [root].
    destruct nd as [|p0 l r depth].
    { cbn in Hp. apply Permutation_nil in Hp. contradiction. }
    rewrite (distance_squared_sym query p0).
    destruct (find_nearest_spec (node p0 l r depth) query Hk p0 0)
      as (best & v & -> & Hb & _ & Hmin).
    cbn [fst]. split.
    + apply (Permutation_in _ Hp).
      destruct Hb as [->|Hb]; [left; reflexivity|assumption].
    + intros p Hi. rewrite !distance_sqrt. apply sqrt_le_1_alt, Hmin.
      apply (Permutation_in _ (Permutation_sym Hp)), Hi.
Qed.

Lemma find_nearest_neighbor_nearest_witness :
  size two_points < 2 ^ 63 /\
  exists t,
    build empty_tree two_points = Some t /\
    (two_points = [] ->
     fst (find_nearest_neighbor t default_point) = default_point) /\
    (two_points <> [] ->
     In (fst (find_nearest_neighbor t default_point)) two_points /\
     forall p, In p two_points ->
       (distance (fst (find_nearest_neighbor t default_point)) default_point
        <= distance p default_point)%R).
Proof.
  split; [reflexivity|].
  apply (find_nearest_neighbor_nearest two_points default_point). reflexivity.
Defined.

(** * The k nearest neighbours *)

Section KNearest.
Context `{StdPriorityQueue}.
Variable query : Point.
Variable k : Z.
Hypothesis Hk : 1 <= k.

Definition dq (p : Point) : R := distance_squared p query.

(** The queue holds the [k] nearest of the points [A] met so far, each with
    its squared distance; [rest] are the others. *)
Definition knn_inv (A : list Point) (q : pq) : Prop :=
  exists rest,
    Permutation A (map snd (pq_items q) ++ rest) /\
    Forall (fun e => fst e = dq (snd e)) (pq_items q) /\
    pq_size q <= k /\
    (pq_size q < k -> rest = []) /\
    (forall e r, In e (pq_items q) -> In r rest -> (fst e <= dq r)%R).

Lemma pair_lt_first m e : pair_lt m e = false -> (fst e <= fst m)%R.
Proof.
  unfold pair_lt. intros E. apply orb_false_iff in E as [E _].
  destruct (Rltb_spec (fst m) (fst e)); [discriminate|lra].
Qed.

Lemma pq_top_some q :
  pq_items q <> [] ->
  exists m, pq_top q = Some m /\ In m (pq_items q) /\
            forall e, In e (pq_items q) -> (fst e <= fst m)%R.
Proof.
  intros Hne. pose proof (pq_top_spec q) as Ht.
  destruct (pq_top q) as [m|]; [|contradiction].
  exists m. split; [reflexivity|]. destruct Ht as [Hin Hmax].
  split; [assumption|]. intros e He. apply pair_lt_first, Hmax, He.
Qed.

Lemma pq_pop_some q m :
  pq_top q = Some m ->
  exists q', pq_pop q = Some q' /\ Permutation (pq_items q) (m :: pq_items q').
Proof.
  intros Et. pose proof (pq_pop_spec q) as Hp.
  destruct (pq_pop q) as [q'|].
  - destruct Hp as (m' & Et' & Hp). exists q'. split; [reflexivity|].
    rewrite Et in Et'. injection Et' as <-. exact Hp.
  - pose proof (pq_top_spec q) as Ht. rewrite Et in Ht.
    destruct Ht as [Hin _]. rewrite Hp in Hin. destruct Hin.
Qed.

Lemma pq_size_perm q l :
  Permutation (pq_items q) l -> pq_size q = size l.
Proof.
  intros Hp. unfold pq_size, size. rewrite (Permutation_length Hp). reflexivity.
Qed.

Lemma pq_nonempty q : 1 <= pq_size q -> pq_items q <> [].
Proof. unfold pq_size, size. intros Hs E. rewrite E in Hs. cbn in Hs. lia. Qed.

(** The step [if (best_k.size() < k) push; else if (dist < top) pop, push]. *)
Lemma offer_spec A q p :
  knn_inv A q ->
  exists q1,
    (if pq_size q <? k then Some (pq_push (dq p, p) q)
     else
       top <- pq_top q ;;
       if Rltb (dq p) (fst top) then
         best_k <- pq_pop q ;;
         Some (pq_push (dq p, p) best_k)
       else Some q) = Some q1 /\
    knn_inv (p :: A) q1 /\ 1 <= pq_size q1.
Proof.
  intros (rest & Hp & Hf & Hs & Hr & Hle).
  destruct (Z.ltb_spec (pq_size q) k) as [Hlt|Hge].
  - eexists; split; [reflexivity|].
    pose proof (pq_push_spec (dq p, p) q) as Hpush.
    assert (Es : pq_size (pq_push (dq p, p) q) = pq_size q + 1).
    { rewrite (pq_size_perm _ _ Hpush), size_cons. reflexivity. }
    split.
    + exists []. rewrite (Hr Hlt) in Hp. rewrite app_nil_r in *.
      split; [|split; [|split; [|split]]].
      * rewrite (Permutation_map snd Hpush). cbn [map snd].
        constructor. exact Hp.
      * apply (Permutation_Forall (Permutation_sym Hpush)).
        constructor; [reflexivity|assumption].
      * lia.
      * reflexivity.
      * intros e r _ [].
    + unfold pq_size in *. pose proof (size_nonneg (pq_items q)). lia.
  - assert (Hne : pq_items q <> []) by (apply pq_nonempty; lia).
    destruct (pq_top_some q Hne) as (m & Et & Hm & Hmax). rewrite Et.
    assert (Em : fst m = dq (snd m)).
    { rewrite Forall_forall in Hf. apply Hf, Hm. }
    assert (Ek : pq_size q = k) by lia.
    destruct (Rltb_spec (dq p) (fst m)) as [Hlt|Hnl].
    + destruct (pq_pop_some q m Et) as (q' & -> & Hpop).
      eexists; split; [reflexivity|].
      pose proof (pq_push_spec (dq p, p) q') as Hpush.
      assert (Es : pq_size (pq_push (dq p, p) q') = pq_size q).
      { rewrite (pq_size_perm _ _ Hpush), (pq_size_perm _ _ Hpop), !size_cons.
        reflexivity. }
      split; [|lia].
      exists (snd m :: rest).
      split; [|split; [|split; [|split]]].
      * rewrite (Permutation_map snd Hpush). cbn [map snd app].
        constructor. rewrite Hp, (Permutation_map snd Hpop). cbn [map app].
        apply Permutation_middle.
      * apply (Permutation_Forall (Permutation_sym Hpush)).
        constructor; [reflexivity|].
        apply (Permutation_Forall Hpop) in Hf. inversion Hf; assumption.
      * lia.
      * lia.
      * intros e r He Hr'.
        apply (Permutation_in _ Hpush) in He.
        assert (Hm' : forall e', In e' (pq_items q') -> In e' (pq_items q)).
        { intros e' He'. apply (Permutation_in _ (Permutation_sym Hpop)).
          right. exact He'. }
        destruct He as [<-|He]; cbn [fst]; destruct Hr' as [<-|Hr'].
        -- lra.
        -- specialize (Hle m r Hm Hr'). lra.
        -- specialize (Hmax e (Hm' e He)). lra.
        -- apply Hle; [apply Hm', He|assumption].
    + eexists; split; [reflexivity|]. split; [|lia].
      exists (p :: rest).
      split; [|split; [|split; [|split]]].
      * rewrite Hp. apply Permutation_middle.
      * assumption.
      * lia.
      * lia.
      * intros e r He [<-|Hr'].
        -- specialize (Hmax e He). lra.
        -- apply Hle; assumption.
Qed.


Lemma knn_inv_perm A A' q : Permutation A A' -> knn_inv A q -> knn_inv A' q.
Proof.
  intros Hp (rest & Hq & Hrest). exists rest.
  split; [rewrite <- Hp; exact Hq|exact Hrest].
Qed.

Lemma knn_inv_prune A far q w :
  knn_inv A q -> pq_size q = k ->
  (forall e, In e (pq_items q) -> (fst e <= w)%R) ->
  (forall s, In s far -> (w <= dq s)%R) ->
  knn_inv (far ++ A) q.
Proof.
  intros (rest & Hp & Hf & Hs & Hr & Hle) Ek Hw Hfar.
  exists (far ++ rest). split; [|split; [|split; [|split]]].
  - rewrite Hp, !app_assoc. apply Permutation_app_tail, Permutation_app_comm.
  - assumption.
  - assumption.
  - lia.
  - intros e r He Hi. apply in_app_iff in Hi as [Hi|Hi].
    + specialize (Hw e He). specialize (Hfar r Hi). lra.
    + apply Hle; assumption.
Qed.

Lemma worst_dist_spec A q :
  knn_inv A q ->
  exists w,
    worst_dist q k = Some w /\
    ((pq_size q < k /\ w = double_max)
     \/ (pq_size q = k /\ forall e, In e (pq_items q) -> (fst e <= w)%R)).
Proof.
  intros (rest & _ & _ & Hs & _). unfold worst_dist.
  destruct (Z.ltb_spec (pq_size q) k) as [Hlt|Hge].
  - exists double_max. split; [reflexivity|]. left. split; [assumption|reflexivity].
  - destruct (pq_top_some q) as (m & -> & _ & Hmax); [apply pq_nonempty; lia|].
    exists (fst m). split; [reflexivity|]. right. split; [lia|exact Hmax].
Qed.

Lemma diff_le_dq (axis : bool) (p : Point) :
  let diff := if axis then (x query - x p)%R else (y query - y p)%R in
  (diff * diff <= dq p)%R.
Proof.
  unfold dq, distance_squared.
  pose proof (Rle_0_sqr (x p - x query)) as Sx.
  pose proof (Rle_0_sqr (y p - y query)) as Sy.
  unfold Rsqr in Sx, Sy.
  destruct axis; cbv zeta.
  - replace ((x query - x p) * (x query - x p))%R
      with ((x p - x query) * (x p - x query))%R by ring. lra.
  - replace ((y query - y p) * (y query - y p))%R
      with ((y p - y query) * (y p - y query))%R by ring. lra.
Qed.

Lemma perm_node_rl {T} (p : T) (l r A : list T) :
  Permutation (r ++ l ++ p :: A) ((p :: l ++ r) ++ A).
Proof.
  rewrite app_assoc. etransitivity; [apply Permutation_sym, Permutation_middle|].
  cbn [app]. constructor. apply Permutation_app_tail, Permutation_app_comm.
Qed.

Lemma perm_node_lr {T} (p : T) (l r A : list T) :
  Permutation (l ++ r ++ p :: A) ((p :: l ++ r) ++ A).
Proof.
  rewrite app_assoc. etransitivity; [apply Permutation_sym, Permutation_middle|].
  reflexivity.
Qed.

Lemma find_k_nearest_spec nd :
  kd_ok nd ->
  (forall p, In p (tree_points nd) -> (dq p < double_max)%R) ->
  forall A q v,
    knn_inv A q ->
    exists q' v',
      find_k_nearest nd query k (q, v) = Some (q', v') /\
      knn_inv (tree_points nd ++ A) q'.
Proof.
  induction nd as [|p l IHl r IHr depth]; intros Hkd Hb A q v Hinv.
  - exists q, v. split; [reflexivity|exact Hinv].
  - destruct Hkd as (Fl & Fr & Kl & Kr).
    rewrite Forall_forall in Fl, Fr.
    cbn [tree_points] in Hb.
    assert (Hbl : forall s, In s (tree_points l) -> (dq s < double_max)%R)
      by (intros s Hs; apply Hb; right; apply in_or_app; left; exact Hs).
    assert (Hbr : forall s, In s (tree_points r) -> (dq s < double_max)%R)
      by (intros s Hs; apply Hb; right; apply in_or_app; right; exact Hs).
    specialize (IHl Kl Hbl). specialize (IHr Kr Hbr).
    cbn [find_k_nearest tree_points].
    change (distance_squared p query) with (dq p).
    set (axis := Z.rem depth 2 =? 0) in *.
    set (diff := if axis then (x query - x p)%R else (y query - y p)%R).
    pose proof (diff_le_dq axis p) as Hdiff. cbv zeta in Hdiff. fold diff in Hdiff.
    pose proof (Hb p (or_introl eq_refl)) as Hp.
    destruct (offer_spec A q p Hinv) as (q1 & -> & Hinv1 & H1).
    destruct (worst_dist_spec _ q1 Hinv1) as (w1 & -> & _).
    destruct (Rleb_spec diff 0) as [Hd|Hd].
    + destruct (IHl (p :: A) q1 (incr v) Hinv1) as (q2 & v2 & -> & Hinv2).
      destruct (worst_dist_spec _ q2 Hinv2) as (w2 & -> & Hw2).
      destruct (Rltb_spec (diff * diff) w2) as [Hlt|Hge].
      * destruct (IHr _ q2 v2 Hinv2) as (q3 & v3 & -> & Hinv3).
        exists q3, v3. split; [reflexivity|].
        eapply knn_inv_perm; [apply perm_node_rl|exact Hinv3].
      * exists q2, v2. split; [reflexivity|].
        destruct Hw2 as [[_ ->]|[Ek Hw]]; [lra|].
        eapply knn_inv_perm;
          [apply perm_node_rl
          |apply (knn_inv_prune _ (tree_points r) q2 w2 Hinv2 Ek Hw)].
        intros s Hs.
        pose proof (far_side_right_sq axis p s query Hd (Fr s Hs)) as Hf.
        cbv zeta in Hf. fold diff in Hf. unfold dq. lra.
    + destruct (IHr (p :: A) q1 (incr v) Hinv1) as (q2 & v2 & -> & Hinv2).
      destruct (worst_dist_spec _ q2 Hinv2) as (w2 & -> & Hw2).
      destruct (Rltb_spec (diff * diff) w2) as [Hlt|Hge].
      * destruct (IHl _ q2 v2 Hinv2) as (q3 & v3 & -> & Hinv3).
        exists q3, v3. split; [reflexivity|].
        eapply knn_inv_perm; [apply perm_node_lr|exact Hinv3].
      * exists q2, v2. split; [reflexivity|].
        destruct Hw2 as [[_ ->]|[Ek Hw]]; [lra|].
        eapply knn_inv_perm;
          [apply perm_node_lr
          |apply (knn_inv_prune _ (tree_points l) q2 w2 Hinv2 Ek Hw)].
        intros s Hs. assert (Hd' : (0 < diff)%R) by lra.
        pose proof (far_side_left_sq axis p s query Hd' (Fl s Hs)) as Hf.
        cbv zeta in Hf. fold diff in Hf. unfold dq. lra.
Qed.

Lemma drain_spec (fuel : nat) :
  forall q result,
    (length (pq_items q) <= fuel)%nat ->
    Forall (fun e => fst e = dq (snd e)) (pq_items q) ->
    exists out,
      drain fuel q result = Some (result ++ out) /\
      Permutation out (map snd (pq_items q)) /\
      StronglySorted (fun a b => (dq b <= dq a)%R) out.
Proof.
  induction fuel as [|fuel IH]; intros q result Hl Hf.
  - destruct (pq_items q) eqn:Ei; [|cbn in Hl; lia].
    exists []. cbn [drain]. unfold pq_is_empty. rewrite Ei, app_nil_r.
    split; [reflexivity|]. split; [reflexivity|constructor].
  - cbn [drain]. unfold pq_is_empty.
    destruct (pq_items q) as [|e0 items0] eqn:Ei.
    { exists []. rewrite app_nil_r.
      split; [reflexivity|]. split; [reflexivity|constructor]. }
    destruct (pq_top_some q) as (m & Et & Hm & Hmax);
      [rewrite Ei; discriminate|].
    rewrite Et.
    destruct (pq_pop_some q m Et) as (q' & -> & Hpop).
    rewrite Ei in Hpop, Hmax. 
    assert (Hf' : Forall (fun e => fst e = dq (snd e)) (m :: pq_items q'))
      by (apply (Permutation_Forall Hpop), Hf).
    inversion Hf' as [|? ? Em Hf'']; subst.
    destruct (IH q' (result ++ [snd m])) as (out & -> & Hp & Hs).
    + apply Permutation_length in Hpop. cbn [length] in *. lia.
    + assumption.
    + exists (snd m :: out). split; [rewrite <- app_assoc; reflexivity|].
      split.
      * rewrite (Permutation_map snd Hpop). cbn [map]. constructor. exact Hp.
      * constructor; [assumption|].
        rewrite Forall_forall. intros b Hb.
        apply (Permutation_in _ Hp) in Hb.
        apply in_map_iff in Hb as (e & <- & He).
        rewrite Forall_forall in Hf''. rewrite <- (Hf'' e He), <- Em.
        apply Hmax, (Permutation_in _ (Permutation_sym Hpop)).
        right. exact He.
Qed.

Lemma sorted_app {T} (Rel : T -> T -> Prop) (l1 l2 : list T) :
  StronglySorted Rel l1 -> StronglySorted Rel l2 ->
  (forall a b, In a l1 -> In b l2 -> Rel a b) ->
  StronglySorted Rel (l1 ++ l2).
Proof.
  induction 1 as [|a l1 Hs IH Ha]; intros H2 Hab; cbn [app]; [assumption|].
  constructor.
  - apply IH; [assumption|]. intros; apply Hab; [right|]; assumption.
  - apply Forall_app. split; [assumption|].
    rewrite Forall_forall. intros b Hb. apply Hab; [left; reflexivity|assumption].
Qed.

Lemma sorted_rev {T} (Rel : T -> T -> Prop) (l : list T) :
  StronglySorted Rel l -> StronglySorted (fun a b => Rel b a) (rev l).
Proof.
  induction 1 as [|a l Hs IH Ha]; cbn [rev]; [constructor|].
  apply sorted_app; [assumption|repeat constructor|].
  intros b c Hb [<-|[]]. rewrite Forall_forall in Ha.
  apply Ha, in_rev, Hb.
Qed.

Lemma sorted_later {T} (Rel : T -> T -> Prop) (a : list T) x b :
  StronglySorted Rel (a ++ x :: b) -> Forall (Rel x) b.
Proof.
  induction a as [|c a IH]; cbn [app]; intros Hs; inversion Hs; subst; auto.
Qed.

(** What [find_k_nearest_neighbors] returns on a tree. *)
Lemma find_k_nearest_neighbors_spec t :
  kd_ok (root t) ->
  (forall p, In p (tree_points (root t)) -> (dq p < double_max)%R) ->
  exists result t',
    find_k_nearest_neighbors t query k = Some (result, t') /\
    size result = Z.min k (size (tree_points (root t))) /\
    (exists rest,
       Permutation (tree_points (root t)) (result ++ rest) /\
       forall r s, In r result -> In s rest -> (dq r <= dq s)%R) /\
    StronglySorted (fun a b => (dq a <= dq b)%R) result.
Proof.
  intros Hkd Hb. unfold find_k_nearest_neighbors.
  assert (Hinv0 : knn_inv [] pq_new).
  { exists []. unfold pq_size. rewrite pq_new_spec.
    change (size (@nil (R * Point))) with 0.
    split; [reflexivity|]. split; [constructor|]. split; [lia|].
    split; [reflexivity|]. intros e r []. }
  destruct (find_k_nearest_spec (root t) Hkd Hb [] pq_new 0 Hinv0)
    as (q & v & -> & rest & Hp & Hf & Hs & Hr & Hle).
  rewrite app_nil_r in Hp.
  destruct (drain_spec (length (pq_items q)) q [] (le_n _) Hf)
    as (out & -> & Ho & Hsorted).
  cbn [app]. exists (rev out), (set_nodes_visited v t).
  split; [reflexivity|].
  assert (Hro : Permutation (rev out) (map snd (pq_items q)))
    by (rewrite <- Ho; apply Permutation_sym, Permutation_rev).
  assert (Esz : size (rev out) = pq_size q).
  { unfold pq_size, size. rewrite (Permutation_length Hro), length_map.
    reflexivity. }
  split; [|split].
  - rewrite Esz.
    assert (En : size (tree_points (root t)) = pq_size q + size rest).
    { unfold pq_size, size. rewrite (Permutation_length Hp), length_app,
        length_map. lia. }
    destruct (Z.lt_ge_cases (pq_size q) k) as [Hlt|Hge].
    + rewrite (Hr Hlt) in En. change (size (@nil Point)) with 0 in En. lia.
    + pose proof (size_nonneg rest). lia.
  - exists rest. split; [rewrite Hro; exact Hp|].
    intros r s Hi Hs'. apply (Permutation_in _ Hro) in Hi.
    apply in_map_iff in Hi as (e & <- & He).
    rewrite Forall_forall in Hf. rewrite <- (Hf e He).
    apply Hle; assumption.
  - apply (sorted_rev _ _ Hsorted).
Qed.

End KNearest.

Section KNearestBuilt.
Context `{StdNthElement} `{StdPriorityQueue}.

(** X13. For [k >= 1], [find_k_nearest_neighbors] on the tree built from
    [points] returns [min(k, n)] of the points, nearest first, and no point
    it leaves out is nearer to the query than one it returns. *)
Theorem find_k_nearest_neighbors_nearest (points : list Point)
  (query : Point) (k : Z) :
  1 <= k -> size points < 2 ^ 63 ->
  (forall p, In p points -> (distance_squared p query < double_max)%R) ->
  exists t result t',
    build empty_tree points = Some t /\
    find_k_nearest_neighbors t query k = Some (result, t') /\
    size result = Z.min k (size points) /\
    (exists rest,
       Permutation points (result ++ rest) /\
       forall r s, In r result -> In s rest ->
                   (distance r query <= distance s query)%R) /\
    (forall a p b, result = a ++ p :: b ->
       forall s, In s b -> (distance p query <= distance s query)%R).
Proof.
  intros Hk Hn Hb.
  assert (G : exists nd,
    build empty_tree points = Some (mkKDTree nd (size points) 0) /\
    Permutation (tree_points nd) points /\ kd_ok nd).
  { destruct (list_eq_dec_nil points) as [->|Hne].
    - exists null. split; [reflexivity|]. split; [reflexivity|exact I].
    - apply build_spec; assumption. }
  destruct G as (nd & E & Hp & Hkd).
  destruct (find_k_nearest_neighbors_spec query k Hk
              (mkKDTree nd (size points) 0))
    as (result & t' & Ef & Es & (rest & Hr & Hle) & Hsorted).
  { exact Hkd. }
  { cbn [root]. intros p Hi. apply Hb, (Permutation_in _ Hp), Hi. }
  cbn [root] in *.
  exists (mkKDTree nd (size points) 0), result, t'.
  split; [exact E|]. split; [exact Ef|]. split; [|split].
  - rewrite Es. unfold size. rewrite (Permutation_length Hp). reflexivity.
  - exists rest. split; [rewrite <- Hp; exact Hr|].
    intros r s Hi Hs. rewrite !distance_sqrt. apply sqrt_le_1_alt.
    apply (Hle r s Hi Hs).
  - intros a p b Er s Hs. rewrite Er in Hsorted.
    apply sorted_later in Hsorted. rewrite Forall_forall in Hsorted.
    rewrite !distance_sqrt. apply sqrt_le_1_alt. apply (Hsorted s Hs).
Qed.

(** X14. With [k = 0] on a tree that is not empty, [find_k_nearest] calls
    [top()] on the empty queue: the call is undefined. *)
Theorem find_k_nearest_neighbors_zero (points : list Point) (query : Point) :
  points <> [] -> size points < 2 ^ 63 ->
  exists t,
    build empty_tree points = Some t /\
    find_k_nearest_neighbors t query 0 = None.
Proof.
  intros Hne Hn.
  destruct (build_spec empty_tree points Hne Hn) as (nd & -> & Hp & _).
  eexists; split; [reflexivity|].
  destruct nd as [|p l r depth].
  { cbn in Hp. apply Permutation_nil in Hp. contradiction. }
  unfold find_k_nearest_neighbors. cbn [root find_k_nearest].
  unfold pq_size. rewrite pq_new_spec.
  change (size (@nil (R * Point)) <? 0) with false. cbv iota.
  pose proof (pq_top_spec pq_new) as Ht.
  destruct (pq_top pq_new) as [m|]; [|reflexivity].
  destruct Ht as [Hin _]. rewrite pq_new_spec in Hin. destruct Hin.
Qed.

End KNearestBuilt.

(** * A queue that meets the contract *)

Fixpoint extract_max (l : list (R * Point))
  : option ((R * Point) * list (R * Point)) :=
  match l with
  | [] => None
  | a :: l' =>
      match extract_max l' with
      | None => Some (a, [])
      | Some (m, rest) =>
          if pair_lt m a then Some (a, m :: rest) else Some (m, a :: rest)
      end
  end.

Definition pair_below (a b : R * Point) : Prop :=
  (fst a < fst b)%R \/
  (fst a = fst b /\
   ((x (snd a) < x (snd b))%R \/
    (x (snd a) = x (snd b) /\ (y (snd a) < y (snd b))%R))).

Lemma pair_lt_spec a b : reflect (pair_below a b) (pair_lt a b).
Proof.
  unfold pair_lt, pair_below, point_lt, Reqb.
  destruct (Rltb_spec (fst a) (fst b)) as [H1|H1]; cbn [orb].
  - constructor. left. exact H1.
  - destruct (Rltb_spec (fst b) (fst a)) as [H2|H2]; cbn [negb andb].
    + constructor. intros [?|[? _]]; lra.
    + destruct (Req_dec_T (x (snd a)) (x (snd b))) as [Ex|Ex]; cbn [negb].
      * destruct (Rltb_spec (y (snd a)) (y (snd b))); constructor.
        -- right. split; [lra|]. right. split; assumption.
        -- intros [?|[_ [?|[_ ?]]]]; lra.
      * destruct (Rltb_spec (x (snd a)) (x (snd b))); constructor.
        -- right. split; [lra|]. left. assumption.
        -- intros [?|[_ [?|[? _]]]]; try lra; contradiction.
Qed.

Lemma pair_below_irrefl a : ~ pair_below a a.
Proof. unfold pair_below. intros [?|[_ [?|[_ ?]]]]; lra. Qed.

Lemma pair_below_trans a b c :
  pair_below a b -> pair_below b c -> pair_below a c.
Proof.
  unfold pair_below.
  intros [?|[? [?|[? ?]]]] [?|[? [?|[? ?]]]];
    try (left; lra);
    right; (split; [lra|]);
    try (left; lra); right; split; lra.
Qed.

Lemma extract_max_spec l :
  match extract_max l with
  | None => l = []
  | Some (m, rest) =>
      Permutation l (m :: rest) /\
      forall e, In e l -> pair_lt m e = false
  end.
Proof.
  induction l as [|a l IH]; cbn [extract_max]; [reflexivity|].
  destruct (extract_max l) as [[m rest]|].
  - destruct IH as [Hp Hmax].
    destruct (pair_lt_spec m a) as [Hma|Hma].
    + split; [constructor; exact Hp|].
      intros e [<-|He].
      * destruct (pair_lt_spec a a) as [Haa|]; [|reflexivity].
        destruct (pair_below_irrefl a Haa).
      * destruct (pair_lt_spec a e) as [Hae|]; [|reflexivity].
        exfalso. specialize (Hmax e He).
        destruct (pair_lt_spec m e) as [|Hme]; [discriminate|].
        apply Hme, (pair_below_trans m a e); assumption.
    + split.
      * rewrite Hp. apply perm_swap.
      * intros e [<-|He]; [|apply Hmax, He].
        destruct (pair_lt_spec m a); [contradiction|reflexivity].
  - subst l. split; [reflexivity|].
    intros e [<-|[]].
    destruct (pair_lt_spec a a) as [Haa|]; [|reflexivity].
    destruct (pair_below_irrefl a Haa).
Qed.

#[export] Instance pq_by_list : StdPriorityQueue.
Proof.
  refine {|
    pq := list (R * Point);
    pq_items := fun q => q;
    pq_new := [];
    pq_push := fun e q => e :: q;
    pq_top := fun q => option_map fst (extract_max q);
    pq_pop := fun q => option_map snd (extract_max q)
  |}.
  - reflexivity.
  - intros e q. reflexivity.
  - intros q. pose proof (extract_max_spec q) as Hs.
    destruct (extract_max q) as [[m rest]|]; cbn [option_map fst];
      [|exact Hs].
    destruct Hs as [Hp Hmax]. split; [|exact Hmax].
    apply (Permutation_in _ (Permutation_sym Hp)). left. reflexivity.
  - intros q. pose proof (extract_max_spec q) as Hs.
    destruct (extract_max q) as [[m rest]|]; cbn [option_map fst snd];
      [|exact Hs].
    exists m. split; [reflexivity|apply Hs].
Defined.

Lemma two_points_squared p :
  In p two_points -> (distance_squared p default_point < double_max)%R.
Proof.
  assert (Hm : (2 < double_max)%R).
  { unfold double_max. apply (IZR_lt 2). reflexivity. }
  intros [<-|[<-|[]]]; unfold distance_squared, default_point; cbn [x y]; lra.
Qed.

Lemma find_k_nearest_neighbors_nearest_witness :
  1 <= 1 /\ size two_points < 2 ^ 63 /\
  (forall p, In p two_points ->
     (distance_squared p default_point < double_max)%R) /\
  exists t result t',
    build empty_tree two_points = Some t /\
    find_k_nearest_neighbors t default_point 1 = Some (result, t') /\
    size result = Z.min 1 (size two_points) /\
    (exists rest,
       Permutation two_points (result ++ rest) /\
       forall r s, In r result -> In s rest ->
                   (distance r default_point <= distance s default_point)%R) /\
    (forall a p b, result = a ++ p :: b ->
       forall s, In s b ->
         (distance p default_point <= distance s default_point)%R).
Proof.
  split; [lia|]. split; [reflexivity|]. split; [exact two_points_squared|].
  apply (find_k_nearest_neighbors_nearest two_points default_point 1);
    [lia|reflexivity|exact two_points_squared].
Defined.

Lemma find_k_nearest_neighbors_zero_witness :
  two_points <> [] /\ size two_points < 2 ^ 63 /\
  exists t,
    build empty_tree two_points = Some t /\
    find_k_nearest_neighbors t default_point 0 = None.
Proof.
  split; [discriminate|]. split; [reflexivity|].
  apply (find_k_nearest_neighbors_zero two_points default_point);
    [discriminate|reflexivity].
Defined.

(** * The nearest-neighbour tour *)

(** The point at an index. *)
Definition pt (points : list Point) (i : Z) : Point :=
  nth (Z.to_nat i) points default_point.

Lemma at_pt points i : 0 <= i < size points -> at_ points i = Some (pt points i).
Proof.
  intros Hi. rewrite at_nth_error by lia. unfold pt.
  apply nth_error_nth'. unfold size in Hi. lia.
Qed.

Lemma at_pt_inv points i p : at_ points i = Some p -> p = pt points i.
Proof.
  intros E. pose proof (at_some _ _ _ E) as Hi.
  rewrite at_pt in E by assumption. congruence.
Qed.

Lemma pt_In points i : 0 <= i < size points -> In (pt points i) points.
Proof. intros Hi. eapply at_In, at_pt, Hi. Qed.

Definition listed (i : Z) (idxs : list Z) : bool := existsb (Z.eqb i) idxs.

Lemma listed_spec i idxs : reflect (In i idxs) (listed i idxs).
Proof.
  unfold listed. destruct (existsb (Z.eqb i) idxs) eqn:E; constructor.
  - apply existsb_exists in E as (k & Hk & Ek). apply Z.eqb_eq in Ek.
    subst; assumption.
  - intros Hi. assert (existsb (Z.eqb i) idxs = true); [|congruence].
    apply existsb_exists. exists i. split; [assumption|apply Z.eqb_refl].
Qed.

(** What [visited] holds after the points at [idxs] were visited. *)
Definition marks (n : Z) (visited : list bool) (idxs : list Z) : Prop :=
  size visited = n /\
  forall i, 0 <= i < n -> at_ visited i = Some (listed i idxs).

Lemma marks_assign n visited idxs i :
  marks n visited idxs -> 0 <= i < n ->
  exists visited',
    assign visited i true = Some visited' /\ marks n visited' (idxs ++ [i]).
Proof.
  intros [Hs Hm] Hi.
  destruct (at_in_range visited i) as (b & Eb); [lia|].
  apply nth_error_split_at in Eb as (u & w & -> & Eu). subst i.
  rewrite assign_middle. eexists; split; [reflexivity|].
  split; [rewrite <- Hs, !size_app, !size_cons; reflexivity|].
  intros j Hj. specialize (Hm j Hj).
  unfold listed in *. rewrite existsb_app. cbn [existsb]. rewrite orb_false_r.
  destruct (Z.eqb_spec j (size u)) as [->|Hne].
  - rewrite at_middle, orb_true_r. reflexivity.
  - rewrite orb_false_r, <- Hm.
    rewrite !at_nth_error by lia.
    destruct (Z.lt_ge_cases j (size u)) as [Hlt|Hge].
    + rewrite !nth_error_app1 by (unfold size in Hlt; lia). reflexivity.
    + rewrite !nth_error_app2 by (unfold size in Hge; lia).
      destruct (Z.to_nat j - length u)%nat eqn:Ed;
        [unfold size in *; lia|reflexivity].
Qed.

Section Scan.
Variable points : list Point.
Hypothesis Hn : size points < 2 ^ 64.
Hypothesis Hfar :
  forall p q, In p points -> In q points -> (distance p q < double_max)%R.

(** The scan returns the nearest point that was not visited, when there is
    one. *)
Lemma nearest_scan_spec visited idxs current u :
  marks (size points) visited idxs ->
  0 <= current < size points ->
  0 <= u < size points -> ~ In u idxs ->
  exists d next,
    nearest_scan points visited current = Some (d, next) /\
    0 <= next < size points /\ ~ In next idxs /\
    forall i, 0 <= i < size points -> ~ In i idxs ->
      (distance (pt points current) (pt points next)
       <= distance (pt points current) (pt points i))%R.
Proof.
  intros [Hs Hm] Hc Hu Hui. unfold nearest_scan.
  pose proof (size_nonneg points) as H0.
  destruct (for_range_total
    (fun i (s : R * Z) =>
       (snd s = current /\ fst s = double_max /\
        forall j, 0 <= j < i -> In j idxs)
       \/
       (0 <= snd s < size points /\ ~ In (snd s) idxs /\
        fst s = distance (pt points current) (pt points (snd s)) /\
        forall j, 0 <= j < i -> ~ In j idxs ->
          (fst s <= distance (pt points current) (pt points j))%R))
    (fun i '(min_dist, next) =>
       vi <- at_ visited i ;;
       if vi then Some (min_dist, next)
       else
         pc <- at_ points current ;;
         pi <- at_ points i ;;
         let dist := distance pc pi in
         if Rltb dist min_dist then Some (dist, i) else Some (min_dist, next))
    0 (size points)) with (s := (double_max, current))
    as ([d next] & E & HQ).
  - lia.
  - assumption.
  - intros i [md nx] Hi HQ. rewrite (Hm i) by lia.
    destruct (listed_spec i idxs) as [Hin|Hnin].
    + eexists; split; [reflexivity|]. cbn [fst snd] in *.
      destruct HQ as [(E1 & E2 & Hall)|(R1 & R2 & R3 & Hall)]; [left|right].
      * repeat split; auto. intros j Hj.
        destruct (Z.eq_dec j i) as [->|]; [assumption|apply Hall; lia].
      * split; [lia|]. split; [assumption|]. split; [assumption|].
        intros j Hj Hnj.
        destruct (Z.eq_dec j i) as [->|]; [contradiction|apply Hall; [lia|assumption]].
    + rewrite (at_pt points current), (at_pt points i) by lia.
      cbn [fst snd] in *.
      destruct (Rltb_spec (distance (pt points current) (pt points i)) md)
        as [Hlt|Hge]; (eexists; split; [reflexivity|]); cbn [fst snd]; right.
      * split; [lia|]. split; [assumption|]. split; [reflexivity|].
        intros j Hj Hnj.
        destruct (Z.eq_dec j i) as [->|Hne]; [lra|].
        destruct HQ as [(_ & _ & Hall)|(_ & _ & _ & Hall)].
        -- exfalso. apply Hnj, Hall. lia.
        -- specialize (Hall j ltac:(lia) Hnj). lra.
      * destruct HQ as [(_ & E2 & _)|(R1 & R2 & R3 & Hall)].
        -- exfalso. subst md.
           assert (Hi' : 0 <= i < size points) by lia.
           pose proof (Hfar (pt points current) (pt points i)
                         (pt_In _ _ Hc) (pt_In _ _ Hi')). lra.
        -- split; [lia|]. split; [assumption|]. split; [assumption|].
           intros j Hj Hnj.
           destruct (Z.eq_dec j i) as [->|Hne]; [lra|].
           apply Hall; [lia|assumption].
  - left. cbn. repeat split; auto. intros j Hj. lia.
  - exists d, next. split; [exact E|]. cbn [fst snd] in HQ.
    destruct HQ as [(_ & _ & Hall)|(R1 & R2 & R3 & Hall)].
    + exfalso. apply Hui, Hall, Hu.
    + split; [lia|]. split; [assumption|]. intros i Hi Hni.
      rewrite <- R3. apply Hall; assumption.
Qed.

End Scan.

Definition zseq (n : nat) : list Z := map Z.of_nat (seq 0 n).

Lemma zseq_In n i : In i (zseq n) <-> 0 <= i < Z.of_nat n.
Proof.
  unfold zseq. rewrite in_map_iff. split.
  - intros (k & <- & Hk). apply in_seq in Hk. lia.
  - intros Hi. exists (Z.to_nat i). split; [lia|]. apply in_seq. lia.
Qed.

Lemma zseq_NoDup n : NoDup (zseq n).
Proof.
  unfold zseq. apply Finite.Injective_map_NoDup; [|apply seq_NoDup].
  intros a b. lia.
Qed.

Lemma map_nth_seq {A} (l : list A) (d : A) :
  map (fun k => nth k l d) (seq 0 (length l)) = l.
Proof.
  induction l as [|a l IH]; [reflexivity|].
  cbn [length seq map nth]. f_equal.
  rewrite <- seq_shift, map_map. exact IH.
Qed.

Lemma map_pt_zseq points : map (pt points) (zseq (length points)) = points.
Proof.
  unfold zseq. rewrite map_map.
  erewrite map_ext; [apply map_nth_seq|].
  intros k. unfold pt. rewrite Nat2Z.id. reflexivity.
Qed.

(** Among [n] indices, fewer than [n] visited ones leave one out. *)
Lemma unvisited_index (n : nat) (idxs : list Z) :
  (length idxs < n)%nat -> NoDup idxs ->
  exists u, 0 <= u < Z.of_nat n /\ ~ In u idxs.
Proof.
  intros Hl Hnd.
  destruct (Forall_Exists_dec (fun i => In i idxs)
              (fun i => in_dec Z.eq_dec i idxs) (zseq n)) as [Hall|Hex].
  - exfalso. rewrite Forall_forall in Hall.
    pose proof (NoDup_incl_length (zseq_NoDup n) Hall) as Hle.
    unfold zseq in Hle. rewrite length_map, length_seq in Hle. lia.
  - apply Exists_exists in Hex as (u & Hu & Hnu).
    exists u. split; [apply zseq_In, Hu|assumption].
Qed.

Lemma all_visited (n : nat) (idxs : list Z) :
  length idxs = n -> NoDup idxs -> (forall i, In i idxs -> 0 <= i < Z.of_nat n) ->
  Permutation idxs (zseq n).
Proof.
  intros Hl Hnd Hr. apply NoDup_Permutation_bis; [assumption| |].
  - unfold zseq. rewrite length_map, length_seq. lia.
  - intros i Hi. apply zseq_In, Hr, Hi.
Qed.

(** Every index is followed by the index of the nearest point among those
    that do not come before it. *)
Definition greedy (points : list Point) (idxs : list Z) : Prop :=
  forall a i j b, idxs = a ++ i :: j :: b ->
  forall r, 0 <= r < size points -> ~ In r (a ++ [i]) ->
    (distance (pt points i) (pt points j)
     <= distance (pt points i) (pt points r))%R.

(** The state of [nearest_neighbor_tour] after [k] points. *)
Definition tour_inv (points : list Point) (start_idx k : Z)
  (st : list Point * list bool * Z) : Prop :=
  let '(tour, visited, current) := st in
  exists idxs,
    marks (size points) visited idxs /\
    NoDup idxs /\ (forall i, In i idxs -> 0 <= i < size points) /\
    size idxs = k /\
    tour = map (pt points) idxs /\
    hd_error idxs = Some start_idx /\
    (exists a, idxs = a ++ [current]) /\
    greedy points idxs.

Lemma marks_start (n : nat) :
  marks (Z.of_nat n) (repeat false n) [].
Proof.
  split; [unfold size; rewrite repeat_length; reflexivity|].
  intros i Hi. rewrite at_nth_error by lia. cbn.
  apply nth_error_repeat. lia.
Qed.

Section Tour.
Variable points : list Point.
Hypothesis Hn : size points < 2 ^ 64.
Hypothesis Hfar :
  forall p q, In p points -> In q points -> (distance p q < double_max)%R.

Lemma nearest_neighbor_tour_spec start_idx :
  0 <= start_idx < size points ->
  exists idxs,
    nearest_neighbor_tour points start_idx = Some (map (pt points) idxs) /\
    Permutation idxs (zseq (length points)) /\
    hd_error idxs = Some start_idx /\
    greedy points idxs.
Proof.
  intros Hs. unfold nearest_neighbor_tour.
  destruct points as [|p0 rest] eqn:Ep; [unfold size in Hs; cbn in Hs; lia|].
  rewrite <- Ep in *. clear p0 rest Ep.
  rewrite (at_pt points start_idx) by assumption.
  destruct (marks_assign (size points) (repeat false (length points)) []
              start_idx (marks_start _) Hs) as (visited & -> & Hm).
  cbn [app] in Hm.
  destruct (for_range_total
    (fun k st => tour_inv points start_idx k st)
    (fun (step : Z) '(tour, visited, current) =>
       '(_, next) <- nearest_scan points visited current ;;
       pn <- at_ points next ;;
       visited <- assign visited next true ;;
       Some (tour ++ [pn], visited, next))
    1 (size points))
    with (s := ([pt points start_idx], visited, start_idx))
    as ([[tour vis] cur] & -> & idxs & Hm' & Hnd & Hr & Hk & -> & Hhd & Hlast
        & Hg).
  - lia.
  - assumption.
  - intros k [[tour vis] cur] Hk
      (idxs & Hm' & Hnd & Hr & Hsz & -> & Hhd & (a & Ea) & Hg).
    assert (Hcur : 0 <= cur < size points)
      by (apply Hr; rewrite Ea; apply in_or_app; right; left; reflexivity).
    destruct (unvisited_index (length points) idxs) as (u & Hu & Hnu);
      [unfold size in *; lia|assumption|].
    destruct (nearest_scan_spec points Hn Hfar vis idxs cur u)
      as (d & next & -> & Hnx & Hnn & Hmin); try assumption.
    rewrite (at_pt points next) by assumption.
    destruct (marks_assign _ _ _ next Hm' Hnx) as (vis' & -> & Hm'').
    eexists; split; [reflexivity|].
    exists (idxs ++ [next]). split; [assumption|].
    split.
    { apply NoDup_app; [assumption|repeat constructor; intros []|].
      intros i Hi [<-|[]]. contradiction. }
    split.
    { intros i Hi. apply in_app_iff in Hi as [Hi|[<-|[]]]; auto. }
    split; [rewrite size_app; unfold size in *; cbn [length]; lia|].
    split; [rewrite map_app; reflexivity|].
    split; [destruct idxs; [discriminate|exact Hhd]|].
    split; [eexists; reflexivity|].
    intros a' i j b E r Hrr Hnr.
    destruct (list_eq_dec_nil b) as [->|Hb].
    + change (a' ++ [i; j]) with (a' ++ [i] ++ [j]) in E.
      rewrite app_assoc in E. apply app_inj_tail in E as [E <-].
      assert (Ei : i = cur).
      { rewrite Ea in E. apply app_inj_tail in E as [_ E']. congruence. }
      subst i. apply Hmin; [assumption|]. rewrite E. exact Hnr.
    + destruct (exists_last Hb) as (b' & z & ->).
      change (a' ++ i :: j :: b' ++ [z]) with (a' ++ (i :: j :: b') ++ [z]) in E.
      rewrite app_assoc in E. apply app_inj_tail in E as [E _].
      apply (Hg a' i j b' E r Hrr Hnr).
  - exists [start_idx]. split; [assumption|].
    split; [repeat constructor; intros []|].
    split; [intros i [<-|[]]; assumption|].
    split; [reflexivity|]. split; [reflexivity|]. split; [reflexivity|].
    split; [exists []; reflexivity|].
    intros a i j b E. destruct a as [|? [|? ?]]; discriminate.
  - exists idxs. split; [reflexivity|]. split; [|split; assumption].
    apply all_visited; [unfold size in Hk; lia|assumption|].
    intros i Hi. apply Hr, Hi.
Qed.

End Tour.

Lemma zseq_range_perm n idxs i :
  Permutation idxs (zseq n) -> In i idxs -> 0 <= i < Z.of_nat n.
Proof. intros Hp Hi. apply zseq_In, (Permutation_in _ Hp), Hi. Qed.

(** X15. From a start index inside the vector, on points whose distances
    are below [DBL_MAX], [nearest_neighbor_tour] returns every point once,
    the point at the start index first. *)
Theorem nearest_neighbor_tour_visits_all (points : list Point)
  (start_idx : Z) :
  size points < 2 ^ 64 ->
  (forall p q, In p points -> In q points -> (distance p q < double_max)%R) ->
  0 <= start_idx < size points ->
  exists tour,
    nearest_neighbor_tour points start_idx = Some tour /\
    Permutation tour points /\
    hd_error tour = at_ points start_idx.
Proof.
  intros Hn Hfar Hs.
  destruct (nearest_neighbor_tour_spec points Hn Hfar start_idx Hs)
    as (idxs & E & Hp & Hhd & _).
  exists (map (pt points) idxs). split; [exact E|]. split.
  - rewrite <- (map_pt_zseq points) at 2. apply Permutation_map, Hp.
  - rewrite (at_pt points start_idx) by assumption.
    destruct idxs as [|i idxs]; [discriminate|].
    cbn in *. congruence.
Qed.

Lemma two_points_distances p q :
  In p two_points -> In q two_points -> (distance p q < double_max)%R.
Proof.
  assert (Hm : (2 < double_max)%R).
  { unfold double_max. apply (IZR_lt 2). reflexivity. }
  assert (E01 : distance (mkPoint 0 0 true 0) (mkPoint 1 0 true 1) = 1%R).
  { unfold distance. cbn [x y].
    replace ((0 - 1) * (0 - 1) + (0 - 0) * (0 - 0))%R with (1 * 1)%R by ring.
    apply sqrt_square. lra. }
  intros [<-|[<-|[]]] [<-|[<-|[]]];
    rewrite ?distance_refl, ?E01, ?(distance_sym (mkPoint 1 0 true 1)), ?E01;
    lra.
Qed.

Lemma nearest_neighbor_tour_visits_all_witness :
  size two_points < 2 ^ 64 /\
  (forall p q, In p two_points -> In q two_points ->
     (distance p q < double_max)%R) /\
  0 <= 1 < size two_points /\
  exists tour,
    nearest_neighbor_tour two_points 1 = Some tour /\
    Permutation tour two_points /\
    hd_error tour = at_ two_points 1.
Proof.
  split; [reflexivity|]. split; [exact two_points_distances|].
  split; [split; [lia|reflexivity]|].
  apply (nearest_neighbor_tour_visits_all two_points 1);
    [reflexivity|exact two_points_distances|split; [lia|reflexivity]].
Defined.

(** X16. In the tour of [nearest_neighbor_tour] every point is followed by
    one that is nearest to it among the points after it. *)
Theorem nearest_neighbor_tour_greedy (points : list Point) (start_idx : Z) :
  size points < 2 ^ 64 ->
  (forall p q, In p points -> In q points -> (distance p q < double_max)%R) ->
  0 <= start_idx < size points ->
  exists tour,
    nearest_neighbor_tour points start_idx = Some tour /\
    forall a p q b, tour = a ++ p :: q :: b ->
    forall r, In r (q :: b) -> (distance p q <= distance p r)%R.
Proof.
  intros Hn Hfar Hs.
  destruct (nearest_neighbor_tour_spec points Hn Hfar start_idx Hs)
    as (idxs & E & Hp & _ & Hg).
  exists (map (pt points) idxs). split; [exact E|].
  intros a p q b Et r Hr.
  apply map_eq_app in Et as (ia & rest & -> & <- & Erest).
  destruct rest as [|i [|j ib]]; try discriminate.
  cbn [map] in Erest. injection Erest as <- <- <-.
  change (pt points j :: map (pt points) ib)
    with (map (pt points) (j :: ib)) in Hr.
  apply in_map_iff in Hr as (ri & <- & Hri).
  apply (Hg ia i j ib eq_refl).
  - apply (zseq_range_perm (length points) (ia ++ i :: j :: ib)); [exact Hp|].
    apply in_or_app. right. right. exact Hri.
  - assert (Hnd : NoDup (ia ++ i :: j :: ib))
      by (apply (Permutation_NoDup (Permutation_sym Hp)), zseq_NoDup).
    change (ia ++ i :: j :: ib) with (ia ++ [i] ++ j :: ib) in Hnd.
    rewrite app_assoc in Hnd.
    intros Hin. apply NoDup_app_remove_l in Hnd as Hnd'.
    clear Hnd'.
    revert Hin Hri. generalize (ia ++ [i]) (j :: ib) Hnd. clear.
    intros u w Hnd Hu Hw.
    induction u as [|c u IH]; [destruct Hu|].
    cbn [app] in Hnd. inversion Hnd as [|? ? Hc Hnd']; subst.
    destruct Hu as [->|Hu]; [|auto].
    apply Hc, in_or_app. right. exact Hw.
Qed.

Lemma nearest_neighbor_tour_greedy_witness :
  size two_points < 2 ^ 64 /\
  (forall p q, In p two_points -> In q two_points ->
     (distance p q < double_max)%R) /\
  0 <= 1 < size two_points /\
  exists tour,
    nearest_neighbor_tour two_points 1 = Some tour /\
    forall a p q b, tour = a ++ p :: q :: b ->
    forall r, In r (q :: b) -> (distance p q <= distance p r)%R.
Proof.
  split; [reflexivity|]. split; [exact two_points_distances|].
  split; [split; [lia|reflexivity]|].
  apply (nearest_neighbor_tour_greedy two_points 1);
    [reflexivity|exact two_points_distances|split; [lia|reflexivity]].
Defined.

(** X17. A start index outside the vector: on points that are not empty the
    access [points[current]] is undefined; on no points the result is the
    empty tour whatever the index. *)
Theorem nearest_neighbor_tour_out_of_range (points : list Point)
  (start_idx : Z) :
  size points <= start_idx ->
  nearest_neighbor_tour points start_idx
  = match points with [] => Some [] | _ => None end.
Proof.
  intros Hs. unfold nearest_neighbor_tour.
  destruct points as [|p0 rest]; [reflexivity|].
  destruct (at_ (p0 :: rest) start_idx) as [p|] eqn:E; [|reflexivity].
  apply at_some in E. lia.
Qed.

Lemma nearest_neighbor_tour_out_of_range_witness :
  size two_points <= 2 /\
  nearest_neighbor_tour two_points 2 = None.
Proof.
  split; [vm_compute; discriminate|].
  apply (nearest_neighbor_tour_out_of_range two_points 2).
  vm_compute; discriminate.
Defined.

(** * The best of several nearest-neighbour tours *)

Lemma best_nearest_neighbor_tour_unfold points num_starts :
  points <> [] ->
  best_nearest_neighbor_tour points num_starts
  = ('(best_tour, _) <-
       for_range 0 (umin num_starts (size points))
         (fun start '(best_tour, best_length) =>
            tour <- nearest_neighbor_tour points start ;;
            if Rltb (tour_length tour) best_length
            then Some (tour, tour_length tour)
            else Some (best_tour, best_length))
         ([], double_max) ;;
     Some best_tour).
Proof. intros Hne. destruct points; [contradiction|reflexivity]. Qed.

Section Best.
Variable points : list Point.
Hypothesis Hne : points <> [].
Hypothesis Hn : size points < 2 ^ 64.
Hypothesis Hspread :
  forall p q, In p points -> In q points ->
    (distance p q * IZR (size points) < double_max)%R.

Lemma size_positive : (1 <= IZR (size points))%R.
Proof.
  apply (IZR_le 1). destruct points; [contradiction|].
  unfold size. cbn [length]. lia.
Qed.

Lemma spread_far p q :
  In p points -> In q points -> (distance p q < double_max)%R.
Proof.
  intros Hp Hq. pose proof (Hspread p q Hp Hq) as H.
  pose proof (distance_nonneg p q). pose proof size_positive. nra.
Qed.

Lemma path_length_below (l : list Point) :
  (forall p, In p l -> In p points) -> (2 <= length l)%nat ->
  (path_length l * IZR (size points)
   < IZR (Z.of_nat (length l) - 1) * double_max)%R.
Proof.
  induction l as [|p [|q l] IH]; intros Hin Hl; cbn [length] in Hl; try lia.
  change (path_length (p :: q :: l))
    with (distance p q + path_length (q :: l))%R.
  pose proof (Hspread p q (Hin p ltac:(left; reflexivity))
                (Hin q ltac:(right; left; reflexivity))) as Hpq.
  destruct l as [|q' l].
  - change (Z.of_nat (length [p; q]) - 1) with 1.
    cbn [path_length]. lra.
  - assert (Hrec : (path_length (q :: q' :: l) * IZR (size points)
                    < IZR (Z.of_nat (length (q :: q' :: l)) - 1) * double_max)%R).
    { apply IH; [|cbn [length]; lia].
      intros r Hr. apply Hin. right. exact Hr. }
    replace (Z.of_nat (length (p :: q :: q' :: l)) - 1)
      with (1 + (Z.of_nat (length (q :: q' :: l)) - 1))
      by (cbn [length]; lia).
    rewrite plus_IZR. lra.
Qed.

Lemma tour_length_below (tour : list Point) :
  Permutation tour points -> (tour_length tour < double_max)%R.
Proof.
  intros Hp. rewrite tour_length_path.
  assert (Hl : length tour = length points) by (apply Permutation_length, Hp).
  assert (Ht : tour <> [])
    by (intros ->; apply Hne, Permutation_nil; assumption).
  pose proof (path_length_below (tour ++ [hd default_point tour])) as H.
  rewrite length_app in H. cbn [length] in H.
  replace (Z.of_nat (length tour + 1) - 1) with (size points) in H
    by (unfold size; lia).
  pose proof size_positive as H1.
  assert (H2 : (path_length (tour ++ [hd default_point tour])
                * IZR (size points) < IZR (size points) * double_max)%R).
  { apply H.
    - intros p Hi. apply in_app_iff in Hi as [Hi|[<-|[]]].
      + apply (Permutation_in _ Hp), Hi.
      + apply (Permutation_in _ Hp). destruct tour; [contradiction|].
        left; reflexivity.
    - destruct tour; [contradiction|]. cbn [length]. lia. }
  nra.
Qed.

Lemma umin_spec a b : umin a b = Z.min a b.
Proof. unfold umin. destruct (Z.ltb_spec b a); lia. Qed.

Lemma best_nearest_neighbor_tour_spec num_starts :
  0 <= num_starts ->
  exists best_tour,
    best_nearest_neighbor_tour points num_starts = Some best_tour /\
    (num_starts = 0 -> best_tour = []) /\
    (0 < num_starts ->
     exists start,
       0 <= start < Z.min num_starts (size points) /\
       nearest_neighbor_tour points start = Some best_tour /\
       Permutation best_tour points /\
       forall start' tour',
         0 <= start' < Z.min num_starts (size points) ->
         nearest_neighbor_tour points start' = Some tour' ->
         (tour_length best_tour <= tour_length tour')%R).
Proof.
  intros H0. rewrite best_nearest_neighbor_tour_unfold by exact Hne.
  rewrite umin_spec. set (m := Z.min num_starts (size points)).
  pose proof (size_nonneg points) as Hs0.
  destruct (for_range_total
    (fun s (st : list Point * R) =>
       (s = 0 /\ st = ([], double_max))
       \/
       (exists start,
          0 <= start < s /\
          nearest_neighbor_tour points start = Some (fst st) /\
          Permutation (fst st) points /\
          snd st = tour_length (fst st) /\
          forall start' tour',
            0 <= start' < s ->
            nearest_neighbor_tour points start' = Some tour' ->
            (snd st <= tour_length tour')%R))
    (fun start '(best_tour, best_length) =>
       tour <- nearest_neighbor_tour points start ;;
       if Rltb (tour_length tour) best_length
       then Some (tour, tour_length tour)
       else Some (best_tour, best_length))
    0 m) with (s := (@nil Point, double_max))
    as ([bt bl] & -> & HQ).
  - subst m. lia.
  - subst m. lia.
  - intros s [bt bl] Hs HQ.
    destruct (nearest_neighbor_tour_visits_all points s Hn spread_far)
      as (tour & E & Hp & _); [subst m; lia|].
    rewrite E.
    pose proof (tour_length_below tour Hp) as Hlt.
    destruct (Rltb_spec (tour_length tour) bl) as [Hb|Hb];
      (eexists; split; [reflexivity|]); right; cbn [fst snd].
    + exists s. split; [lia|]. split; [assumption|]. split; [assumption|].
      split; [reflexivity|].
      intros s' t' Hs' E'.
      destruct (Z.eq_dec s' s) as [->|Hd]; [rewrite E in E'; injection E' as <-; lra|].
      destruct HQ as [[-> _]|(s0 & _ & _ & _ & _ & Hmin)]; [lia|].
      cbn [fst snd] in Hmin. specialize (Hmin s' t' ltac:(lia) E'). lra.
    + destruct HQ as [[_ Est]|(s0 & R0 & R1 & R2 & R3 & Hmin)].
      { injection Est as -> ->. lra. }
      cbn [fst snd] in *. exists s0. split; [lia|].
      split; [assumption|]. split; [assumption|]. split; [assumption|].
      intros s' t' Hs' E'.
      destruct (Z.eq_dec s' s) as [->|Hd]; [rewrite E in E'; injection E' as <-; lra|].
      apply (Hmin s' t'); [lia|assumption].
  - left. split; reflexivity.
  - exists bt. split; [reflexivity|]. split.
    + intros ->. subst m. destruct HQ as [[_ E]|(s0 & R0 & _)]; [congruence|lia].
    + intros Hpos. destruct HQ as [[Em _]|(s0 & R0 & R1 & R2 & R3 & Hmin)].
      { exfalso. subst m. pose proof size_positive as H1.
        apply le_IZR in H1. lia. }
      cbn [fst snd] in *. exists s0. split; [assumption|].
      split; [assumption|]. split; [assumption|].
      intros s' t' Hs' E'. rewrite <- R3. apply (Hmin s' t'); assumption.
Qed.

End Best.

Lemma two_points_spread p q :
  In p two_points -> In q two_points ->
  (distance p q * IZR (size two_points) < double_max)%R.
Proof.
  assert (Hm : (2 < double_max)%R).
  { unfold double_max. apply (IZR_lt 2). reflexivity. }
  assert (E01 : distance (mkPoint 0 0 true 0) (mkPoint 1 0 true 1) = 1%R).
  { unfold distance. cbn [x y].
    replace ((0 - 1) * (0 - 1) + (0 - 0) * (0 - 0))%R with (1 * 1)%R by ring.
    apply sqrt_square. lra. }
  change (IZR (size two_points)) with 2%R.
  intros [<-|[<-|[]]] [<-|[<-|[]]];
    rewrite ?distance_refl, ?E01, ?(distance_sym (mkPoint 1 0 true 1)), ?E01;
    lra.
Qed.

(** X18. With at least one start, [best_nearest_neighbor_tour] returns the
    nearest-neighbour tour of one of the first [min(num_starts, n)] start
    indices, and none of these tours is shorter. *)
Theorem best_nearest_neighbor_tour_shortest (points : list Point)
  (num_starts : Z) :
  points <> [] -> size points < 2 ^ 64 ->
  (forall p q, In p points -> In q points ->
     (distance p q * IZR (size points) < double_max)%R) ->
  0 < num_starts ->
  exists best_tour start,
    best_nearest_neighbor_tour points num_starts = Some best_tour /\
    0 <= start < Z.min num_starts (size points) /\
    nearest_neighbor_tour points start = Some best_tour /\
    forall start' tour',
      0 <= start' < Z.min num_starts (size points) ->
      nearest_neighbor_tour points start' = Some tour' ->
      (tour_length best_tour <= tour_length tour')%R.
Proof.
  intros Hne Hn Hspread Hpos.
  destruct (best_nearest_neighbor_tour_spec points Hne Hn Hspread num_starts)
    as (bt & E & _ & Hbest); [lia|].
  destruct (Hbest Hpos) as (start & Hs & En & _ & Hmin).
  exists bt, start. auto.
Qed.

Lemma best_nearest_neighbor_tour_shortest_witness :
  two_points <> [] /\ size two_points < 2 ^ 64 /\
  (forall p q, In p two_points -> In q two_points ->
     (distance p q * IZR (size two_points) < double_max)%R) /\
  0 < 10 /\
  exists best_tour start,
    best_nearest_neighbor_tour two_points 10 = Some best_tour /\
    0 <= start < Z.min 10 (size two_points) /\
    nearest_neighbor_tour two_points start = Some best_tour /\
    forall start' tour',
      0 <= start' < Z.min 10 (size two_points) ->
      nearest_neighbor_tour two_points start' = Some tour' ->
      (tour_length best_tour <= tour_length tour')%R.
Proof.
  split; [discriminate|]. split; [reflexivity|].
  split; [exact two_points_spread|]. split; [lia|].
  apply (best_nearest_neighbor_tour_shortest two_points 10);
    [discriminate|reflexivity|exact two_points_spread|lia].
Defined.

(** X19. The check of [run_complete_benchmark]: on points of distinct ids
    the tour of [best_nearest_neighbor_tour] passes [is_valid_tour] against
    the points, unless [num_starts] is zero: then the tour is empty and the
    check fails. *)
Theorem initial_tour_valid (points : list Point) (num_starts : Z) :
  points <> [] -> size points < 2 ^ 64 ->
  (forall p q, In p points -> In q points ->
     (distance p q * IZR (size points) < double_max)%R) ->
  NoDup (map id points) ->
  0 <= num_starts ->
  exists initial_tour,
    best_nearest_neighbor_tour points num_starts = Some initial_tour /\
    is_valid_tour initial_tour points = (0 <? num_starts).
Proof.
  intros Hne Hn Hspread Hnd H0.
  destruct (best_nearest_neighbor_tour_spec points Hne Hn Hspread num_starts)
    as (bt & E & Hzero & Hbest); [lia|].
  exists bt. split; [exact E|].
  destruct (Z.ltb_spec 0 num_starts) as [Hpos|Hle].
  - destruct (Hbest Hpos) as (start & _ & _ & Hp & _).
    apply is_valid_tour_perm; [assumption|].
    apply Permutation_map, Permutation_sym, Hp.
  - rewrite Hzero by lia. unfold is_valid_tour.
    destruct points as [|p0 rest]; [contradiction|].
    unfold size. cbn [length]. 
    destruct (Z.eqb_spec (Z.of_nat 0) (Z.of_nat (S (length rest)))); [lia|].
    reflexivity.
Qed.

Lemma initial_tour_valid_witness :
  two_points <> [] /\ size two_points < 2 ^ 64 /\
  (forall p q, In p two_points -> In q two_points ->
     (distance p q * IZR (size two_points) < double_max)%R) /\
  NoDup (map id two_points) /\
  0 <= 10 /\
  exists initial_tour,
    best_nearest_neighbor_tour two_points 10 = Some initial_tour /\
    is_valid_tour initial_tour two_points = (0 <? 10).
Proof.
  split; [discriminate|]. split; [reflexivity|].
  split; [exact two_points_spread|]. split; [exact two_points_distinct|].
  split; [lia|].
  apply (initial_tour_valid two_points 10);
    [discriminate|reflexivity|exact two_points_spread
    |exact two_points_distinct|lia].
Defined.

(** * find_best_2opt_swap *)

(** The pairs that [find_best_2opt_swap] looks at. *)
Definition in_search (n start end_ : Z) (i j : Z) : Prop :=
  start <= i /\ i + 2 <= j /\ j < end_ /\ ~ (i = 0 /\ j = n - 1).

(** The gain of the pair is defined and at most [g]. *)
Definition gain_at_most (tour : list Point) (g : R) (i j : Z) : Prop :=
  exists g', calculate_2opt_gain tour i j = Some g' /\ (g' <= g)%R.

(** What the search holds in [best_gain] and [best_swap]. *)
Definition search_inv (tour : list Point) (start end_ : Z) (min_gain : R)
  (st : R * (Z * Z)) : Prop :=
  (snd st = (0, 0) /\ fst st = min_gain)
  \/
  (in_search (size tour) start end_ (fst (snd st)) (snd (snd st)) /\
   calculate_2opt_gain tour (fst (snd st)) (snd (snd st)) = Some (fst st) /\
   (min_gain < fst st)%R).

Lemma find_best_2opt_swap_spec tour start end_ min_gain :
  0 <= start -> end_ <= size tour -> size tour < 2 ^ 63 ->
  exists g best_swap,
    for_range start end_ (fun i st =>
      for_range (wrap (i + 2)) end_ (fun j '(best_gain, best_swap) =>
        if (j =? wrap (size tour - 1)) && (i =? 0)
        then Some (best_gain, best_swap)
        else
          gain <- calculate_2opt_gain tour i j ;;
          if Rltb best_gain gain then Some (gain, (i, j))
          else Some (best_gain, best_swap)) st)
      (min_gain, (0, 0))
    = Some (g, best_swap) /\
    search_inv tour start end_ min_gain (g, best_swap) /\
    forall i j, in_search (size tour) start end_ i j ->
                gain_at_most tour g i j.
Proof.
  intros H0 He Hn.
  set (n := size tour) in *.
  destruct (Z.le_gt_cases end_ start) as [Hse|Hse].
  { rewrite for_range_empty by assumption.
    exists min_gain, (0, 0). split; [reflexivity|].
    split; [left; split; reflexivity|].
    intros i j (H1 & H2 & H3 & _). lia. }
  assert (Hn1 : wrap (n - 1) = n - 1) by (apply wrap_small; lia).
  rewrite Hn1.
  pose (Q := fun (i : Z) (st : R * (Z * Z)) =>
    search_inv tour start end_ min_gain st /\
    forall i' j, in_search n start end_ i' j -> i' < i ->
                 gain_at_most tour (fst st) i' j).
  destruct (for_range_total Q
    (fun i st =>
      for_range (wrap (i + 2)) end_ (fun j '(best_gain, best_swap) =>
        if (j =? n - 1) && (i =? 0)
        then Some (best_gain, best_swap)
        else
          gain <- calculate_2opt_gain tour i j ;;
          if Rltb best_gain gain then Some (gain, (i, j))
          else Some (best_gain, best_swap)) st) start end_)
    with (s := (min_gain, (0, 0))) as ([g bs] & E & Hinv & Hcov).
  - lia.
  - lia.
  - intros i st Hi [Hs Hc].
    rewrite (wrap_small (i + 2)) by lia.
    destruct (Z.le_gt_cases end_ (i + 2)) as [Hie|Hie].
    { rewrite for_range_empty by assumption.
      exists st. split; [reflexivity|]. split; [assumption|].
      intros i' j Hs' Hlt.
      destruct (Z.eq_dec i' i) as [->|]; [|apply Hc; [assumption|lia]].
      destruct Hs' as (_ & ? & ? & _). lia. }
    pose (Qi := fun (j : Z) (st : R * (Z * Z)) =>
      search_inv tour start end_ min_gain st /\
      (forall i' j', in_search n start end_ i' j' -> i' < i ->
                     gain_at_most tour (fst st) i' j') /\
      (forall j', in_search n start end_ i j' -> j' < j ->
                  gain_at_most tour (fst st) i j')).
    destruct (for_range_total Qi
      (fun j '(best_gain, best_swap) =>
        if (j =? n - 1) && (i =? 0)
        then Some (best_gain, best_swap)
        else
          gain <- calculate_2opt_gain tour i j ;;
          if Rltb best_gain gain then Some (gain, (i, j))
          else Some (best_gain, best_swap)) (i + 2) end_) with (s := st)
      as (st' & Es & Hs' & Hc1 & Hc2).
    + lia.
    + lia.
    + intros j [bg bsw] Hj (Ht & Ht1 & Ht2). cbn [fst snd] in *.
      destruct ((j =? n - 1) && (i =? 0)) eqn:Eskip.
      { eexists; split; [reflexivity|]. split; [assumption|].
        split; [assumption|]. cbn [fst].
        intros j' Hs' Hlt.
        destruct (Z.eq_dec j' j) as [->|]; [|apply Ht2; [assumption|lia]].
        apply andb_true_iff in Eskip as [E1 E2].
        apply Z.eqb_eq in E1, E2. destruct Hs' as (_ & _ & _ & Hne).
        exfalso. apply Hne. split; assumption. }
      assert (Hne : ~ (i = 0 /\ j = n - 1)).
      { intros [-> ->]. rewrite !Z.eqb_refl in Eskip. discriminate. }
      destruct (calculate_2opt_gain_total tour i j) as (gn & Eg);
        try (fold n; lia).
      rewrite Eg.
      destruct (Rltb_spec bg gn) as [Hlt|Hge];
        (eexists; split; [reflexivity|]); cbn [fst snd].
      * split; [|split].
        -- right. cbn [fst snd]. split; [|split; [assumption|]].
           ++ unfold in_search. fold n. repeat split; try lia.
           ++ destruct Ht as [[_ Eb]|(_ & _ & Hb)]; cbn [fst snd] in *; lra.
        -- intros i' j' Hs' Hlt'. destruct (Ht1 i' j' Hs' Hlt') as (g' & E' & Hg').
           exists g'. split; [assumption|cbn [fst]; lra].
        -- intros j' Hs' Hlt'.
           destruct (Z.eq_dec j' j) as [->|].
           ++ exists gn. split; [assumption|cbn [fst]; lra].
           ++ destruct (Ht2 j' Hs' ltac:(lia)) as (g' & E' & Hg').
              exists g'. split; [assumption|cbn [fst]; lra].
      * split; [assumption|]. split; [assumption|].
        intros j' Hs' Hlt'.
        destruct (Z.eq_dec j' j) as [->|].
        -- exists gn. split; [assumption|cbn [fst]; lra].
        -- cbn [fst]. apply Ht2; [assumption|lia].
    + split; [assumption|]. split; [assumption|].
      intros j' (_ & ? & _) ?. lia.
    + exists st'. split; [assumption|]. split; [assumption|].
      intros i' j Hs'' Hlt.
      destruct (Z.eq_dec i' i) as [->|].
      * apply Hc2; [assumption|]. destruct Hs'' as (_ & _ & ? & _). assumption.
      * apply Hc1; [assumption|lia].
  - split; [left; split; reflexivity|].
    intros i' j (? & _) ?. lia.
  - exists g, bs. split; [assumption|]. split; [assumption|].
    intros i j Hs. apply Hcov; [assumption|].
    destruct Hs as (_ & ? & ? & _). lia.
Qed.

(** X20. [find_best_2opt_swap] on a range inside the tour returns a pair of
    the range whose gain is above [min_gain] and is the largest of the
    range; when no gain of the range is above [min_gain] it returns
    [(0, 0)]. *)
Theorem find_best_2opt_swap_best (tour : list Point) (start end_ : Z)
  (min_gain : R) :
  0 <= start -> end_ <= size tour -> size tour < 2 ^ 63 ->
  exists i j,
    find_best_2opt_swap tour start end_ min_gain = Some (i, j) /\
    ((in_search (size tour) start end_ i j /\
      exists g,
        calculate_2opt_gain tour i j = Some g /\ (min_gain < g)%R /\
        forall i' j', in_search (size tour) start end_ i' j' ->
                      gain_at_most tour g i' j')
     \/
     ((i, j) = (0, 0) /\
      forall i' j', in_search (size tour) start end_ i' j' ->
                    gain_at_most tour min_gain i' j')).
Proof.
  intros H0 He Hn. unfold find_best_2opt_swap.
  destruct (find_best_2opt_swap_spec tour start end_ min_gain H0 He Hn)
    as (g & [i j] & -> & Hinv & Hcov).
  exists i, j. split; [reflexivity|].
  destruct Hinv as [[Eb Eg]|(Hs & Eg & Hlt)]; cbn [fst snd] in *.
  - right. split; [assumption|]. subst g. assumption.
  - left. split; [assumption|]. exists g. auto.
Qed.

Lemma find_best_2opt_swap_best_witness :
  0 <= 0 /\ size two_points <= size two_points /\ size two_points < 2 ^ 63 /\
  exists i j,
    find_best_2opt_swap two_points 0 (size two_points) 0 = Some (i, j) /\
    ((in_search (size two_points) 0 (size two_points) i j /\
      exists g,
        calculate_2opt_gain two_points i j = Some g /\ (0 < g)%R /\
        forall i' j', in_search (size two_points) 0 (size two_points) i' j' ->
                      gain_at_most two_points g i' j')
     \/
     ((i, j) = (0, 0) /\
      forall i' j', in_search (size two_points) 0 (size two_points) i' j' ->
                    gain_at_most two_points 0 i' j')).
Proof.
  split; [lia|]. split; [lia|]. split; [reflexivity|].
  apply (find_best_2opt_swap_best two_points 0 (size two_points) 0);
    [lia|lia|reflexivity].
Defined.

(** * find_all_improvements *)

(** The pair [(i', j')] comes before [(i, j)] in the double loop. *)
Definition earlier (i j i' j' : Z) : Prop := i' < i \/ (i' = i /\ j' < j).

Definition improving (tour : list Point) (i j : Z) (g : R) : Prop :=
  in_search (size tour) 0 (size tour) i j /\
  calculate_2opt_gain tour i j = Some g /\ (1e-9 < g)%R.

Definition collected (tour : list Point) (i j : Z) (acc : list (Z * Z * R))
  : Prop :=
  NoDup acc /\
  forall i' j' g, In (i', j', g) acc <->
                  improving tour i' j' g /\ earlier i j i' j'.

Lemma collected_skip tour i j acc :
  collected tour i j acc ->
  (forall g, ~ improving tour i j g) ->
  collected tour i (j + 1) acc.
Proof.
  intros [Hnd Hin] Hno. split; [assumption|].
  intros i' j' g. rewrite Hin. unfold earlier. split.
  - intros [Hi He]. split; [assumption|]. lia.
  - intros [Hi He]. split; [assumption|].
    destruct (Z.eq_dec i' i) as [->|]; [|lia].
    destruct (Z.eq_dec j' j) as [->|]; [|lia].
    exfalso. apply (Hno g Hi).
Qed.

Lemma collected_add tour i j g acc :
  collected tour i j acc ->
  improving tour i j g ->
  collected tour i (j + 1) (acc ++ [(i, j, g)]).
Proof.
  intros [Hnd Hin] Hi. split.
  - apply NoDup_app; [assumption|repeat constructor; intros []|].
    intros t Ht [<-|[]]. apply Hin in Ht as [_ He].
    unfold earlier in He. lia.
  - intros i' j' g'. rewrite in_app_iff, Hin. cbn [In]. unfold earlier. split.
    + intros [[H1 H2]|[E|[]]].
      * split; [assumption|lia].
      * injection E as <- <- <-. split; [assumption|lia].
    + intros [H1 H2].
      destruct (Z.eq_dec i' i) as [->|]; [|left; split; [assumption|lia]].
      destruct (Z.eq_dec j' j) as [->|]; [|left; split; [assumption|lia]].
      right. left. destruct Hi as (_ & E & _), H1 as (_ & E' & _).
      congruence.
Qed.

Lemma collect_improvements tour :
  sized tour ->
  exists improvements,
    for_range 0 (wrap (size tour - 2)) (fun i improvements =>
      for_range (wrap (i + 2)) (size tour) (fun j improvements =>
        if (j =? wrap (size tour - 1)) && (i =? 0) then Some improvements
        else
          gain <- calculate_2opt_gain tour i j ;;
          if Rltb 1e-9 gain then Some (improvements ++ [(i, j, gain)])
          else Some improvements) improvements) []
    = Some improvements /\
    NoDup improvements /\
    forall i j g, In (i, j, g) improvements <-> improving tour i j g.
Proof.
  intros Hn. unfold sized in Hn.
  set (n := size tour) in *.
  rewrite (wrap_small (n - 2)), (wrap_small (n - 1)) by lia.
  destruct (for_range_total
    (fun i acc => collected tour i 0 acc)
    (fun i improvements =>
      for_range (wrap (i + 2)) n (fun j improvements =>
        if (j =? n - 1) && (i =? 0) then Some improvements
        else
          gain <- calculate_2opt_gain tour i j ;;
          if Rltb 1e-9 gain then Some (improvements ++ [(i, j, gain)])
          else Some improvements) improvements) 0 (n - 2))
    with (s := @nil (Z * Z * R)) as (l & E & Hnd & Hin).
  - lia.
  - lia.
  - intros i acc Hi Hacc. rewrite (wrap_small (i + 2)) by lia.
    destruct (for_range_total
      (fun j acc => collected tour i j acc)
      (fun j improvements =>
        if (j =? n - 1) && (i =? 0) then Some improvements
        else
          gain <- calculate_2opt_gain tour i j ;;
          if Rltb 1e-9 gain then Some (improvements ++ [(i, j, gain)])
          else Some improvements) (i + 2) n) with (s := acc)
      as (acc' & E' & Hacc').
    + lia.
    + lia.
    + intros j a Hj Ha.
      destruct ((j =? n - 1) && (i =? 0)) eqn:Eskip.
      { eexists; split; [reflexivity|]. apply collected_skip; [assumption|].
        intros g ((_ & _ & _ & Hne) & _).
        apply andb_true_iff in Eskip as [E1 E2].
        apply Z.eqb_eq in E1, E2. apply Hne. fold n. split; assumption. }
      assert (Hne : ~ (i = 0 /\ j = n - 1)).
      { intros [-> ->]. rewrite !Z.eqb_refl in Eskip. discriminate. }
      destruct (calculate_2opt_gain_total tour i j) as (gn & Eg);
        try (fold n; lia).
      rewrite Eg.
      destruct (Rltb_spec 1e-9 gn) as [Hlt|Hge];
        (eexists; split; [reflexivity|]).
      * apply collected_add; [assumption|].
        split; [|split; assumption].
        unfold in_search. fold n. repeat split; try lia.
      * apply collected_skip; [assumption|].
        intros g (_ & Eg' & Hg). rewrite Eg in Eg'. injection Eg' as <-. lra.
    + destruct Hacc as [Hnd Hin]. split; [assumption|].
      intros i' j' g. rewrite Hin. unfold earlier. split.
      * intros [H1 H2]. split; [assumption|lia].
      * intros [H1 H2]. split; [assumption|].
        destruct H1 as ((_ & ? & _) & _). lia.
    + exists acc'. split; [assumption|].
      destruct Hacc' as [Hnd Hin]. split; [assumption|].
      intros i' j' g. rewrite Hin. unfold earlier. split.
      * intros [H1 H2]. split; [assumption|]. lia.
      * intros [H1 H2]. split; [assumption|].
        destruct H1 as ((_ & ? & ? & _) & _). unfold n in *; lia.
  - split; [constructor|]. intros i' j' g. cbn [In]. unfold earlier.
    split; [intros []|]. intros [((? & ? & _) & _) ?]. lia.
  - exists l. split; [assumption|]. split; [assumption|].
    intros i j g. rewrite Hin. unfold earlier. split; [intros [H _]; exact H|].
    intros H. split; [assumption|].
    destruct H as ((_ & ? & ? & _) & _). unfold n in *; lia.
Qed.

Lemma by_gain_order : strict_weak_order by_gain.
Proof.
  unfold by_gain. split.
  - intros a b H. destruct (Rltb_spec (snd b) (snd a)); [|discriminate].
    apply Rltb_false. lra.
  - intros a b c H. destruct (Rltb_spec (snd c) (snd a)); [|discriminate].
    destruct (Rltb_spec (snd b) (snd a)); [left; reflexivity|right].
    apply Rltb_true. lra.
Qed.

(** X21. [find_all_improvements] returns every pair of the search with a
    gain above 1e-9, once, with its gain, and no other entry; no entry has
    a larger gain than one that stands before it. *)
Theorem find_all_improvements_complete `{StdSort} (tour : list Point) :
  sized tour ->
  exists improvements,
    find_all_improvements tour = Some improvements /\
    NoDup improvements /\
    (forall i j g, In (i, j, g) improvements <-> improving tour i j g) /\
    (forall a e b, improvements = a ++ e :: b ->
                   Forall (fun e' => (snd e' <= snd e)%R) b).
Proof.
  intros Hn. unfold find_all_improvements.
  destruct (collect_improvements tour Hn) as (l & -> & Hnd & Hin).
  destruct (std_sort_spec _ by_gain l by_gain_order) as [Hp Hs].
  eexists; split; [reflexivity|].
  split; [apply (Permutation_NoDup Hp), Hnd|].
  split.
  - intros i j g. rewrite <- Hin. split; apply Permutation_in;
      [apply Permutation_sym|]; assumption.
  - intros a e b E. specialize (Hs a e b E).
    eapply Forall_impl; [|exact Hs].
    intros e' He. unfold by_gain in He.
    destruct (Rltb_spec (snd e) (snd e')); [discriminate|lra].
Qed.

(** X22. [find_all_improvements] returns nothing exactly when the tour is a
    local minimum: no pair has a gain above 1e-9. *)
Theorem no_improvement_iff_local_minimum `{StdSort} (tour : list Point) :
  sized tour ->
  exists improvements,
    find_all_improvements tour = Some improvements /\
    (improvements = [] <-> local_minimum tour).
Proof.
  intros Hn. unfold find_all_improvements.
  destruct (collect_improvements tour Hn) as (l & -> & Hnd & Hin).
  destruct (std_sort_spec _ by_gain l by_gain_order) as [Hp _].
  eexists; split; [reflexivity|]. unfold sized in Hn. split.
  - intros E. rewrite E in Hp. apply Permutation_sym, Permutation_nil in Hp.
    subst l.
    apply (local_minimum_covered tour (mkBest min_improvement 0 0 0));
      [lia|cbn; lra|].
    intros i j H0 H1 H2 Hne. unfold covered. cbn [best_gain].
    destruct (calculate_2opt_gain_total tour i j) as (g & Eg); try lia.
    exists g. split; [assumption|].
    destruct (Rle_or_lt g min_improvement) as [Hle|Hlt]; [assumption|].
    exfalso. apply (Hin i j g). split; [|split; assumption].
    unfold in_search. repeat split; try lia. 
  - intros Hm. destruct (std_sort by_gain l) as [|[[i j] g] rest] eqn:Es;
      [reflexivity|].
    exfalso.
    assert (Hi : In (i, j, g) l)
      by (apply (Permutation_in _ (Permutation_sym Hp)); left; reflexivity).
    apply Hin in Hi as (_ & Eg & Hg).
    specialize (Hm i j g Eg). unfold min_improvement in Hm. lra.
Qed.

(** * A sort that meets the contract *)

Fixpoint insert_by {T} (comp : T -> T -> bool) (a : T) (l : list T) : list T :=
  match l with
  | [] => [a]
  | b :: l' => if comp a b then a :: l else b :: insert_by comp a l'
  end.

Definition sort_by {T} (comp : T -> T -> bool) (l : list T) : list T :=
  fold_right (insert_by comp) [] l.

Lemma insert_by_perm {T} (comp : T -> T -> bool) a l :
  Permutation (a :: l) (insert_by comp a l).
Proof.
  induction l as [|b l IH]; cbn [insert_by]; [reflexivity|].
  destruct (comp a b); [reflexivity|].
  rewrite perm_swap. constructor. exact IH.
Qed.

Lemma sort_by_perm {T} (comp : T -> T -> bool) l :
  Permutation l (sort_by comp l).
Proof.
  induction l as [|a l IH]; [reflexivity|]. cbn [sort_by fold_right].
  rewrite <- insert_by_perm. constructor. exact IH.
Qed.

Section SortBy.
Context {T : Type}.
Variable comp : T -> T -> bool.
Hypothesis comp_ok : strict_weak_order comp.

Definition not_after (a b : T) : Prop := comp b a = false.

Lemma not_after_trans a b c : not_after a b -> not_after b c -> not_after a c.
Proof.
  unfold not_after. intros Hab Hbc.
  destruct (comp c a) eqn:E; [|reflexivity].
  destruct (proj2 comp_ok c b a E) as [H|H]; congruence.
Qed.

Lemma insert_by_sorted a l :
  StronglySorted not_after l -> StronglySorted not_after (insert_by comp a l).
Proof.
  induction 1 as [|b l Hs IH Hb]; cbn [insert_by].
  - repeat constructor.
  - destruct (comp a b) eqn:E.
    + constructor; [constructor; assumption|].
      assert (Hab : not_after a b) by (apply (proj1 comp_ok), E).
      constructor; [assumption|].
      eapply Forall_impl; [|exact Hb]. intros c. apply not_after_trans, Hab.
    + constructor; [assumption|].
      apply (Permutation_Forall (insert_by_perm comp a l)).
      constructor; assumption.
Qed.

Lemma sort_by_sorted l : StronglySorted not_after (sort_by comp l).
Proof.
  induction l as [|a l IH]; [constructor|].
  apply insert_by_sorted, IH.
Qed.

Lemma sorted_tail a x b :
  StronglySorted not_after (a ++ x :: b) ->
  Forall (fun y => comp y x = false) b.
Proof.
  induction a as [|c a IH]; cbn [app]; intros Hs.
  - inversion Hs; subst. assumption.
  - inversion Hs; subst. auto.
Qed.

End SortBy.

#[export] Instance std_sort_insertion : StdSort.
Proof.
  refine {| std_sort := fun T comp l => sort_by comp l |}.
  intros T comp l Hc. split; [apply sort_by_perm|].
  intros a x b E. apply (sorted_tail comp a x b). rewrite <- E.
  apply sort_by_sorted, Hc.
Defined.

(** Four points on a square, visited along a diagonal first: the tour
    crosses itself. *)
Definition crossed_square : list Point :=
  [mkPoint 0 0 true 0; mkPoint 1 1 true 1; mkPoint 1 0 true 2;
   mkPoint 0 1 true 3].

Lemma crossed_square_sized : sized crossed_square.
Proof. unfold sized, size. cbn. lia. Qed.

Lemma find_all_improvements_complete_witness :
  sized crossed_square /\
  exists improvements,
    find_all_improvements crossed_square = Some improvements /\
    NoDup improvements /\
    (forall i j g, In (i, j, g) improvements
                   <-> improving crossed_square i j g) /\
    (forall a e b, improvements = a ++ e :: b ->
                   Forall (fun e' => (snd e' <= snd e)%R) b).
Proof.
  split; [exact crossed_square_sized|].
  apply (find_all_improvements_complete crossed_square crossed_square_sized).
Defined.

Lemma no_improvement_iff_local_minimum_witness :
  sized crossed_square /\
  exists improvements,
    find_all_improvements crossed_square = Some improvements /\
    (improvements = [] <-> local_minimum crossed_square).
Proof.
  split; [exact crossed_square_sized|].
  apply (no_improvement_iff_local_minimum crossed_square crossed_square_sized).
Defined.

(** * The counters of a run *)

(** What a pass does to [iterations], [num_swaps] and the history. *)
Definition counts_post (r r' : Run) : Prop :=
  iterations (run_stats r') = incr (iterations (run_stats r)) /\
  ((run_improved r' = true /\
    num_swaps (run_stats r') = incr (num_swaps (run_stats r)) /\
    length (swaps r') = S (length (swaps r)))
   \/
   (run_improved r' = false /\
    num_swaps (run_stats r') = num_swaps (run_stats r) /\
    swaps r' = swaps r)).

Ltac counts_done :=
  let E := fresh "E" in
  intros E; injection E as <-; cbn; split; [reflexivity|];
  first [ left; repeat split; reflexivity
        | right; repeat split; reflexivity ].

Lemma basic_pass_counts r r' : basic_pass r = Some r' -> counts_post r r'.
Proof.
  unfold basic_pass.
  destruct (basic_search _ _) as [b|]; [|discriminate].
  destruct (Rltb min_improvement (best_gain b)); [|counts_done].
  destruct (perform_2opt_swap _ _ _) as [tour'|]; [|discriminate].
  counts_done.
Qed.

Lemma approximate_pass_counts rand r r' :
  approximate_pass rand r = Some r' -> counts_post r r'.
Proof.
  unfold approximate_pass.
  destruct (approximate_search _ _ _) as [b|]; [|discriminate].
  destruct (Rltb min_improvement (best_gain b)).
  - destruct (perform_2opt_swap _ _ _) as [tour'|]; [|discriminate].
    destruct (activate_neighborhood _ _ _ _) as [tour''|]; [|discriminate].
    counts_done.
  - destruct (random_top_up _ _ _ _ _) as [tour'|]; [|discriminate].
    counts_done.
Qed.

Section Counts.
Context `{StdNthElement}.

Lemma geometric_pass_counts r r' :
  geometric_pass r = Some r' -> counts_post r r'.
Proof.
  unfold geometric_pass.
  destruct (geometric_search _ _ _) as [[b kd]|]; [|discriminate].
  destruct (Rltb min_improvement (best_gain b)); [|counts_done].
  destruct (perform_2opt_swap _ _ _) as [tour'|]; [|discriminate].
  destruct (if Z.rem _ 25 =? 0 then _ else _) as [kd'|]; [|discriminate].
  counts_done.
Qed.

Lemma hybrid_pass_counts r r' :
  hybrid_pass r = Some r' -> counts_post r r'.
Proof.
  unfold hybrid_pass.
  destruct (hybrid_search _ _ _ _) as [[b kd]|]; [|discriminate].
  destruct (Rltb min_improvement (best_gain b)).
  - destruct (perform_2opt_swap _ _ _) as [tour'|]; [|discriminate].
    destruct (activate_neighborhood _ _ _ _) as [tour''|]; [|discriminate].
    destruct (if Z.rem _ 30 =? 0 then _ else _) as [kd'|]; [|discriminate].
    counts_done.
  - destruct (reactivate_even _ _) as [tour'|]; [|discriminate].
    counts_done.
Qed.

End Counts.

(** Between two passes: every pass so far applied a swap, but the last one
    when it found none. *)
Definition count_inv (r : Run) : Prop :=
  0 <= iterations (run_stats r) <= max_iterations /\
  num_swaps (run_stats r) = Z.of_nat (length (swaps r)) /\
  (run_improved r = true ->
   num_swaps (run_stats r) = iterations (run_stats r)) /\
  (run_improved r = false ->
   num_swaps (run_stats r) = iterations (run_stats r) - 1).

Lemma while_improving_counts (pass : Run -> option Run) :
  (forall r r', pass r = Some r' -> counts_post r r') ->
  forall k r r',
    count_inv r -> while_improving pass k r = Some r' ->
    count_inv r' /\
    (max_iterations <= iterations (run_stats r) + Z.of_nat k ->
     run_improved r' = false \/ max_iterations <= iterations (run_stats r')).
Proof.
  intros Hp. unfold max_iterations.
  induction k as [|k IH]; intros r r' Hr E; cbn [while_improving] in E.
  - assert (r' = r) by (destruct (_ && _); congruence). subst r'.
    split; [assumption|]. intros. right. lia.
  - destruct (run_improved r) eqn:Ei; cbn [andb] in E.
    + destruct (Z.ltb_spec (iterations (run_stats r)) max_iterations) as [Hlt|Hge].
      * destruct (pass r) as [r1|] eqn:E1; [|discriminate].
        destruct (Hp r r1 E1) as (Eit & Hcase).
        destruct Hr as (Hit & Hsw & Ht & Hf). specialize (Ht Ei).
        unfold max_iterations in *.
        rewrite incr_small in Eit by lia.
        assert (Hr1 : count_inv r1).
        { unfold count_inv, max_iterations.
          destruct Hcase as [(Ei1 & Es1 & El1)|(Ei1 & Es1 & El1)].
          - rewrite incr_small in Es1 by lia.
            rewrite Ei1, Es1, El1, Eit. repeat split; try lia; discriminate.
          - rewrite Ei1, Es1, El1, Eit. repeat split; try lia; discriminate. }
        destruct (IH r1 r' Hr1 E) as [Hr' Hx].
        split; [assumption|]. intros Hk. apply Hx. lia.
      * injection E as <-. split; [assumption|]. intros. right.
        unfold max_iterations in Hge. lia.
    + injection E as <-. split; [assumption|]. intros. left. assumption.
Qed.

Section PassCount.
Context `{StdNthElement}.

Lemma optimize_passes_counts rand o k tour r :
  optimize_passes rand o k tour = Some r ->
  count_inv r /\
  (max_iterations <= Z.of_nat k ->
   run_improved r = false \/ max_iterations <= iterations (run_stats r)).
Proof.
  assert (Hs : forall tour' t,
            count_inv (mkRun tour'
                         (set_initial_length (tour_length tour) zero_stats)
                         true t [])).
  { intros. unfold count_inv, max_iterations. cbn.
    repeat split; try lia; discriminate. }
  destruct o; cbn [optimize_passes].
  - unfold basic_2opt_passes, start_run. intros E.
    apply (while_improving_counts _ basic_pass_counts) in E; [|apply Hs].
    exact E.
  - unfold geometric_2opt_passes, start_run.
    destruct (build empty_tree tour) as [kd|]; [|discriminate]. intros E.
    apply (while_improving_counts _ geometric_pass_counts) in E; [|apply Hs].
    exact E.
  - unfold approximate_2opt_passes, start_run. cbn [run_stats run_kdtree swaps].
    intros E.
    apply (while_improving_counts _ (approximate_pass_counts rand)) in E;
      [|apply Hs].
    exact E.
  - unfold hybrid_2opt_passes, start_run.
    destruct (build empty_tree tour) as [kd|]; [|discriminate].
    cbn [run_stats run_kdtree swaps]. intros E.
    apply (while_improving_counts _ hybrid_pass_counts) in E; [|apply Hs].
    exact E.
Qed.

(** X23. Every optimizer makes at least one and at most 1000 passes; every
    pass but the last applies exactly one swap, and so does the last one
    when the loop is stopped by the limit of 1000 passes. *)
Theorem swaps_and_iterations (rand : Z -> Z -> Z) (o : Optimizer)
  (tour : list Point) :
  sized tour ->
  exists r,
    optimize rand o tour = Some r /\
    1 <= iterations (run_stats r) <= max_iterations /\
    num_swaps (run_stats r) = Z.of_nat (length (swaps r)) /\
    (num_swaps (run_stats r) = iterations (run_stats r) - 1
     \/
     (num_swaps (run_stats r) = max_iterations /\
      iterations (run_stats r) = max_iterations)).
Proof.
  intros Hn. rewrite optimize_finish.
  destruct (optimize_passes_total rand o (Z.to_nat max_iterations) tour Hn)
    as (r & E).
  rewrite E. eexists; split; [reflexivity|].
  apply optimize_passes_counts in E as [(Hit & Hsw & Ht & Hf) Hx].
  cbn [finish_run run_stats swaps set_final_length iterations num_swaps].
  specialize (Hx ltac:(unfold max_iterations; lia)).
  destruct (run_improved r) eqn:Ei.
  - specialize (Ht eq_refl). destruct Hx as [Hx|Hx]; [discriminate|].
    unfold max_iterations in *. repeat split; try lia.
  - specialize (Hf eq_refl).
    assert (0 <= num_swaps (run_stats r)) by lia.
    repeat split; try lia.
Qed.

End PassCount.

Lemma swaps_and_iterations_witness :
  sized two_points /\
  exists r,
    optimize (fun _ _ => 0) Hybrid two_points = Some r /\
    1 <= iterations (run_stats r) <= max_iterations /\
    num_swaps (run_stats r) = Z.of_nat (length (swaps r)) /\
    (num_swaps (run_stats r) = iterations (run_stats r) - 1
     \/
     (num_swaps (run_stats r) = max_iterations /\
      iterations (run_stats r) = max_iterations)).
Proof.
  split; [exact two_points_sized|].
  apply (swaps_and_iterations (fun _ _ => 0) Hybrid two_points
           two_points_sized).
Defined.

(** * The swaps of a run *)

Section Accepted.
Context `{StdNthElement}.


End Accepted.

(** ** A tour that crosses itself *)

Lemma rectangle_sized : sized rectangle.
Proof. unfold sized, size. cbn. lia. Qed.


(** Decides a comparison of reals built from the distances of the
    rectangle. *)
Ltac rectangle_distances :=
  repeat match goal with
  | |- context [distance ?p ?q] =>
      first [ rewrite (distance_value 3 p q)
                by (unfold distance_squared; cbn [x y]; lra)
            | rewrite (distance_value 4 p q)
                by (unfold distance_squared; cbn [x y]; lra)
            | rewrite (distance_value 5 p q)
                by (unfold distance_squared; cbn [x y]; lra) ]
  end.

Ltac rectangle_arith := rectangle_distances; unfold min_improvement; lra.

Lemma tour_length_crossed_rectangle : tour_length crossed_rectangle = 18%R.
Proof.
  unfold tour_length, crossed_rectangle. repeat compute_step.
  rectangle_distances. lra.
Qed.

Lemma tour_length_rectangle : tour_length rectangle = 14%R.
Proof.
  unfold tour_length, rectangle. repeat compute_step.
  rectangle_distances. lra.
Qed.

(** On the boundary of the rectangle both pairs of the search lose: the
    tour is a local minimum. *)
Lemma rectangle_local_minimum : local_minimum rectangle.
Proof.
  apply (local_minimum_covered rectangle (mkBest min_improvement 0 0 0)).
  - reflexivity.
  - cbn. lra.
  - intros i j H0 H1 H2 Hne. unfold size in H2. cbn in H2.
    assert (Hij : i = 0 /\ j = 2 \/ i = 1 /\ j = 3)
      by (unfold size in Hne; cbn in Hne; lia).
    destruct Hij as [[-> ->]|[-> ->]]; unfold covered, rectangle,
      calculate_2opt_gain; repeat compute_step;
      (eexists; split; [reflexivity|]); cbn [best_gain]; rectangle_arith.
Qed.

Lemma basic_search_crossed_rectangle c :
  exists g c',
    basic_search crossed_rectangle (mkBest min_improvement 0 0 c)
    = Some (mkBest g 0 2 c') /\ g = 4%R.
Proof.
  unfold crossed_rectangle, basic_search. repeat compute_step.
  repeat consider_step rectangle_arith.
  eexists; eexists; split; [reflexivity|]. rectangle_arith.
Qed.

Lemma basic_pass_crossed_rectangle r :
  run_tour r = crossed_rectangle ->
  exists stats,
    basic_pass r
    = Some (mkRun rectangle stats true (run_kdtree r) ((0, 2) :: swaps r)) /\
    iterations stats = incr (iterations (run_stats r)) /\
    num_swaps stats = incr (num_swaps (run_stats r)) /\
    initial_length stats = initial_length (run_stats r).
Proof.
  intros E. unfold basic_pass. rewrite E.
  destruct (basic_search_crossed_rectangle
              (total_comparisons
                 (set_iterations (incr (iterations (run_stats r)))
                    (run_stats r)))) as (g & c' & -> & ->).
  cbn [best_gain best_i best_j].
  rewrite Rltb_true by (unfold min_improvement; lra).
  replace (perform_2opt_swap crossed_rectangle 0 2) with (Some rectangle)
    by reflexivity.
  eexists; split; [reflexivity|]. cbn. repeat split; reflexivity.
Qed.


(** * A local minimum under the optimizers that use the gain in distances *)

Lemma at_triple (l l' : list Point) i :
  map triple l = map triple l' ->
  option_map triple (at_ l i) = option_map triple (at_ l' i).
Proof.
  intros E. unfold at_. destruct (i <? 0); [reflexivity|].
  rewrite <- !nth_error_map, E. reflexivity.
Qed.

Lemma distance_triple p q p' q' :
  triple p = triple p' -> triple q = triple q' ->
  distance p q = distance p' q'.
Proof.
  unfold triple, distance. intros Hp Hq.
  injection Hp as -> -> _. injection Hq as -> -> _. reflexivity.
Qed.

Lemma calculate_2opt_gain_triple (l l' : list Point) i j :
  map triple l = map triple l' ->
  calculate_2opt_gain l i j = calculate_2opt_gain l' i j.
Proof.
  intros E. unfold calculate_2opt_gain.
  assert (Es : size l = size l').
  { unfold size. apply (f_equal (@length _)) in E.
    rewrite !length_map in E. lia. }
  rewrite Es.
  destruct (if j <? i then (j, i) else (i, j)) as [i0 j0].
  destruct (_ || _); [reflexivity|].
  destruct (umod (wrap (i0 + 1)) (size l')) as [i1|]; [|reflexivity].
  destruct (umod (wrap (j0 + 1)) (size l')) as [j1|]; [|reflexivity].
  pose proof (at_triple l l' i0 E) as H1.
  pose proof (at_triple l l' i1 E) as H2.
  pose proof (at_triple l l' j0 E) as H3.
  pose proof (at_triple l l' j1 E) as H4.
  destruct (at_ l i0) as [a|], (at_ l' i0) as [a'|]; try discriminate;
    [|reflexivity].
  destruct (at_ l i1) as [b|], (at_ l' i1) as [b'|]; try discriminate;
    [|reflexivity].
  destruct (at_ l j0) as [c|], (at_ l' j0) as [c'|]; try discriminate;
    [|reflexivity].
  destruct (at_ l j1) as [d|], (at_ l' j1) as [d'|]; try discriminate;
    [|reflexivity].
  cbn [option_map] in *.
  assert (Ta : triple a = triple a') by congruence.
  assert (Tb : triple b = triple b') by congruence.
  assert (Tc : triple c = triple c') by congruence.
  assert (Td : triple d = triple d') by congruence.
  rewrite (distance_triple a b a' b'), (distance_triple c d c' d'),
    (distance_triple a c a' c'), (distance_triple b d b' d') by assumption.
  reflexivity.
Qed.

Lemma local_minimum_triple (l l' : list Point) :
  map triple l = map triple l' -> local_minimum l -> local_minimum l'.
Proof.
  intros E Hm i j g Eg. apply (Hm i j g).
  rewrite (calculate_2opt_gain_triple l l' i j E). exact Eg.
Qed.

(** The loop on a local minimum: one pass, no swap. *)
Lemma while_improving_local_minimum (pass : Run -> option Run) r k :
  (forall r, sized (run_tour r) ->
     exists r', pass r = Some r' /\ pass_post calculate_2opt_gain r r') ->
  (forall r r', pass r = Some r' -> counts_post r r') ->
  sized (run_tour r) -> local_minimum (run_tour r) ->
  run_improved r = true -> iterations (run_stats r) = 0 ->
  exists r',
    while_improving pass (S k) r = Some r' /\
    map triple (run_tour r') = map triple (run_tour r) /\
    num_swaps (run_stats r') = num_swaps (run_stats r) /\
    iterations (run_stats r') = 1 /\
    initial_length (run_stats r') = initial_length (run_stats r).
Proof.
  intros Hp Hc Hn Hm Hi Hit.
  rewrite while_improving_first;
    [|lia|assumption|rewrite Hit; unfold max_iterations; lia].
  destruct (Hp r Hn) as (r' & E & Eil & Eit & Hcase). rewrite E.
  destruct Hcase as [(Ei & Esw & Et)|(_ & i & j & g & t & _ & _ & _ & _ & Eg & Hg & _)].
  - rewrite while_improving_stop by assumption.
    exists r'. split; [reflexivity|]. split; [assumption|].
    destruct (Hc r r' E) as (_ & [(Ei' & _)|(_ & Es & _)]); [congruence|].
    split; [assumption|]. split; [|assumption].
    rewrite Eit, Hit. reflexivity.
  - specialize (Hm i j g Eg). lra.
Qed.

Section LocalMinimum.
Context `{StdNthElement}.

(** X24. On a tour that is a local minimum (no pair has a gain above
    1e-9), [basic_2opt], [geometric_2opt] and [approximate_2opt] make one
    pass and apply no swap: the points stay where they are, and
    [final_length] equals [initial_length]. *)
Theorem local_minimum_is_kept (rand : Z -> Z -> Z) (o : Optimizer)
  (tour : list Point) :
  o <> Hybrid -> sized tour -> local_minimum tour ->
  exists r,
    optimize rand o tour = Some r /\
    map triple (run_tour r) = map triple tour /\
    num_swaps (run_stats r) = 0 /\
    iterations (run_stats r) = 1 /\
    final_length (run_stats r) = initial_length (run_stats r).
Proof.
  intros Ho Hn Hm. rewrite optimize_finish.
  assert (G : exists r,
    optimize_passes rand o (Z.to_nat max_iterations) tour = Some r /\
    map triple (run_tour r) = map triple tour /\
    num_swaps (run_stats r) = 0 /\ iterations (run_stats r) = 1 /\
    initial_length (run_stats r) = tour_length tour).
  { change (Z.to_nat max_iterations) with (S 999).
    destruct o; cbn [optimize_passes]; [| | |contradiction].
    - unfold basic_2opt_passes.
      apply (while_improving_local_minimum basic_pass
               (start_run tour empty_tree) 999); auto.
      + intros r Hr. destruct (basic_pass_spec r Hr) as (r' & E & Hp & _).
        eauto.
      + apply basic_pass_counts.
    - unfold geometric_2opt_passes.
      destruct (build_total empty_tree tour) as (kd & ->); [apply Hn|].
      apply (while_improving_local_minimum geometric_pass
               (start_run tour kd) 999); auto.
      + apply geometric_pass_spec.
      + apply geometric_pass_counts.
    - unfold approximate_2opt_passes.
      destruct (while_improving_local_minimum (approximate_pass rand)
        (mkRun (map (set_active true) tour)
           (run_stats (start_run tour empty_tree)) true
           (run_kdtree (start_run tour empty_tree))
           (swaps (start_run tour empty_tree))) 999)
        as (r & E & Et & Es & Ei & El); auto.
      + apply approximate_pass_spec.
      + apply approximate_pass_counts.
      + cbn [run_tour]. unfold sized in *.
        rewrite (size_map_triple tour) by apply map_triple_set_active.
        exact Hn.
      + cbn [run_tour].
        apply (local_minimum_triple tour); [|assumption].
        symmetry. apply map_triple_set_active.
      + exists r. split; [exact E|]. cbn [run_tour] in Et.
        rewrite map_triple_set_active in Et. auto. }
  destruct G as (r & -> & Et & Es & Ei & El).
  eexists; split; [reflexivity|].
  cbn [finish_run run_tour run_stats set_final_length num_swaps iterations
       initial_length final_length].
  repeat split; try assumption.
  rewrite El. apply tour_length_triple, Et.
Qed.

End LocalMinimum.

Lemma local_minimum_is_kept_witness :
  Geometric <> Hybrid /\ sized rectangle /\ local_minimum rectangle /\
  exists r,
    optimize (fun _ _ => 0) Geometric rectangle = Some r /\
    map triple (run_tour r) = map triple rectangle /\
    num_swaps (run_stats r) = 0 /\
    iterations (run_stats r) = 1 /\
    final_length (run_stats r) = initial_length (run_stats r).
Proof.
  split; [discriminate|]. split; [exact rectangle_sized|].
  split; [exact rectangle_local_minimum|].
  apply (local_minimum_is_kept (fun _ _ => 0) Geometric rectangle);
    [discriminate|exact rectangle_sized|exact rectangle_local_minimum].
Defined.

(** * basic_2opt on a local minimum *)

Lemma basic_pass_local_minimum r :
  sized (run_tour r) -> local_minimum (run_tour r) ->
  exists stats,
    basic_pass r
    = Some (mkRun (run_tour r) stats false (run_kdtree r) (swaps r)) /\
    iterations stats = incr (iterations (run_stats r)) /\
    num_swaps stats = num_swaps (run_stats r) /\
    initial_length stats = initial_length (run_stats r).
Proof.
  intros Hn Hm. unfold basic_pass.
  destruct (basic_search_spec (run_tour r)
              (mkBest min_improvement 0 0
                 (total_comparisons
                    (set_iterations (incr (iterations (run_stats r)))
                       (run_stats r))))) as (b & -> & [_ Hb] & _).
  { apply sized_64, Hn. }
  { apply best_inv_start. }
  destruct (Rltb_spec min_improvement (best_gain b)) as [Hg|Hg].
  - destruct (Hb Hg) as (_ & _ & _ & Eg). specialize (Hm _ _ _ Eg). lra.
  - eexists; split; [reflexivity|]. cbn. repeat split; reflexivity.
Qed.

Lemma basic_2opt_on_local_minimum tour :
  sized tour -> local_minimum tour ->
  exists r,
    basic_2opt tour = Some r /\
    run_tour r = tour /\
    num_swaps (run_stats r) = 0 /\
    iterations (run_stats r) = 1 /\
    initial_length (run_stats r) = tour_length tour /\
    final_length (run_stats r) = tour_length tour.
Proof.
  intros Hn Hm. unfold basic_2opt, basic_2opt_passes.
  rewrite while_improving_first;
    [|unfold max_iterations; lia|reflexivity|unfold max_iterations; cbn; lia].
  destruct (basic_pass_local_minimum (start_run tour empty_tree) Hn Hm)
    as (stats & -> & Eit & Esw & Eil).
  rewrite while_improving_stop by reflexivity.
  eexists; split; [reflexivity|].
  cbn [finish_run run_tour run_stats set_final_length num_swaps iterations
       initial_length final_length start_run] in *.
  repeat split; assumption.
Qed.

(** X25. [basic_2opt] is idempotent below the limit of passes: when a call
    returns after fewer than 1000 passes, a second call on the tour it left
    applies no swap and leaves the tour as it is. *)
Theorem basic_2opt_twice (tour : list Point) :
  sized tour ->
  exists r,
    basic_2opt tour = Some r /\
    (iterations (run_stats r) < max_iterations ->
     exists r2,
       basic_2opt (run_tour r) = Some r2 /\
       run_tour r2 = run_tour r /\
       num_swaps (run_stats r2) = 0).
Proof.
  intros Hn. unfold basic_2opt at 1.
  destruct (basic_run tour (Z.to_nat max_iterations) Hn)
    as (r & -> & Hr & Hm & Hx).
  eexists; split; [reflexivity|].
  cbn [finish_run run_stats run_tour set_final_length iterations].
  intros Hlt.
  assert (Hmin : local_minimum (run_tour r)).
  { apply Hm. destruct Hx as [Hx|Hx]; [unfold max_iterations; lia|assumption|lia]. }
  destruct (basic_2opt_on_local_minimum (run_tour r)) as (r2 & E & Et & Es & _);
    [apply Hr|assumption|].
  exists r2. auto.
Qed.

Lemma basic_2opt_twice_witness :
  sized two_points /\
  exists r,
    basic_2opt two_points = Some r /\
    (iterations (run_stats r) < max_iterations ->
     exists r2,
       basic_2opt (run_tour r) = Some r2 /\
       run_tour r2 = run_tour r /\
       num_swaps (run_stats r2) = 0).
Proof.
  split; [exact two_points_sized|].
  apply (basic_2opt_twice two_points two_points_sized).
Defined.

(** * The run on the crossed rectangle *)

(** [basic_2opt] on the crossed tour: the first pass applies the pair
    (0, 2), of gain 4, and the second finds nothing to gain. *)
Lemma basic_2opt_crossed_rectangle :
  exists r,
    basic_2opt crossed_rectangle = Some r /\
    run_tour r = rectangle /\ swaps r = [(0, 2)] /\
    num_swaps (run_stats r) = 1 /\ iterations (run_stats r) = 2 /\
    initial_length (run_stats r) = 18%R /\
    final_length (run_stats r) = 14%R.
Proof.
  unfold basic_2opt, basic_2opt_passes.
  rewrite while_improving_first;
    [|unfold max_iterations; lia|reflexivity|unfold max_iterations; cbn; lia].
  destruct (basic_pass_crossed_rectangle
              (start_run crossed_rectangle empty_tree) eq_refl)
    as (stats & -> & Eit & Esw & Eil).
  cbn [run_stats run_kdtree swaps start_run] in *.
  cbv beta iota.
  rewrite while_improving_first;
    [|unfold max_iterations; lia|reflexivity
     |cbn [run_stats]; rewrite Eit; vm_compute; reflexivity].
  match goal with
  | |- context [basic_pass ?r] =>
      destruct (basic_pass_local_minimum r rectangle_sized
                  rectangle_local_minimum)
        as (stats2 & -> & Eit2 & Esw2 & Eil2)
  end.
  cbv beta iota. rewrite while_improving_stop by reflexivity.
  eexists; split; [reflexivity|].
  cbn [finish_run run_tour run_stats swaps set_final_length num_swaps
       iterations initial_length final_length] in *.
  split; [reflexivity|]. split; [reflexivity|].
  split; [rewrite Esw2, Esw; reflexivity|].
  split; [rewrite Eit2, Eit; reflexivity|].
  split; [rewrite Eil2, Eil; apply tour_length_crossed_rectangle|].
  apply tour_length_rectangle.
Qed.

(** * Tours of one point *)

Lemma for_range_fail_second {S} (body : Z -> S -> option S) lo hi s :
  lo + 1 < hi -> (exists s1, body lo s = Some s1) ->
  (forall s1, body (wrap (lo + 1)) s1 = None) ->
  for_range lo hi body s = None.
Proof.
  intros Hlt [s1 E1] E2. unfold for_range.
  destruct (Z.to_nat (hi - lo)) as [|[|k]] eqn:Ek; try lia.
  cbn [for_iter]. rewrite E1, E2. reflexivity.
Qed.

(** A loop that is idle up to its last turn, and fails there. *)
Lemma for_iter_fail_last {S} (body : Z -> S -> option S) (last : Z) :
  0 <= last < 2 ^ 64 - 1 ->
  (forall i s, 0 <= i < last -> body i s = Some s) ->
  (forall s, body last s = None) ->
  forall (k : nat) i s,
    0 <= i -> i + Z.of_nat k = last + 1 -> (0 < k)%nat ->
    for_iter 1 k i body s = None.
Proof.
  intros Hl Hidle Hfail. induction k as [|k IH]; intros i s Hi Hk Hpos; [lia|].
  cbn [for_iter]. destruct (Z.eq_dec i last) as [->|Hne].
  - rewrite Hfail. reflexivity.
  - rewrite Hidle by lia. rewrite wrap_small by lia.
    apply IH; lia.
Qed.

Lemma geometric_candidates_one_point p neighbors b :
  geometric_candidates [p] 0 neighbors b = Some b.
Proof.
  unfold geometric_candidates.
  induction neighbors as [|q neighbors IH]; cbn [for_each]; [reflexivity|].
  cbn [find_if_id]. destruct (id p =? id q); [|exact IH].
  replace (eligible (size [p]) 0 0) with false by reflexivity. exact IH.
Qed.

Lemma geometric_search_one_point p kd b :
  geometric_search [p] kd b = None.
Proof.
  unfold geometric_search.
  change (size [p]) with 1. change (wrap (1 - 2)) with (2 ^ 64 - 1).
  apply for_range_fail_second; [lia| |].
  - cbv beta iota.
    change (at_ [p] 0) with (Some p).
    change (umod (wrap (0 + 1)) 1) with (Some 0).
    change (umod (wrap (wrap (0 + 1) - 1)) 1) with (Some 0).
    cbv beta iota. change (at_ [p] 0) with (Some p). cbv beta iota zeta.
    destruct (find_neighbors kd p _) as [nb1 kd1].
    destruct (if size nb1 <? 5 then _ else _) as [nb2 kd2].
    rewrite (geometric_candidates_one_point p nb2 b). eexists; reflexivity.
  - intros [b1 kd1]. reflexivity.
Qed.

Lemma calculate_2opt_gain_one_point p :
  calculate_2opt_gain [p] (2 ^ 64 - 2) 0 = None.
Proof. reflexivity. Qed.

Lemma basic_search_one_point p b : basic_search [p] b = None.
Proof.
  unfold basic_search, for_range at 1.
  change (size [p]) with 1. change (wrap (1 - 2)) with (2 ^ 64 - 1).
  apply (for_iter_fail_last _ (2 ^ 64 - 2)).
  - lia.
  - intros i s Hi. apply for_range_empty. rewrite wrap_small by lia. lia.
  - intros s. change (wrap (2 ^ 64 - 2 + 2)) with 0.
    unfold for_range. change (Z.to_nat (1 - 0)) with 1%nat.
    cbn [for_iter].
    change ((0 =? wrap (1 - 1)) && (2 ^ 64 - 2 =? 0)) with false.
    cbv iota. rewrite calculate_2opt_gain_one_point. reflexivity.
  - lia.
  - lia.
  - lia.
Qed.

Section OnePoint.
Context `{StdNthElement}.

(** X26. A tour of one point: [tour.size() - 2] wraps to 2^64 - 1, and both
    [basic_2opt] and [geometric_2opt] end in an access outside the vector:
    [geometric_2opt] reads [tour[1]] in the second turn of its loop,
    [basic_2opt] reads [tour[2^64 - 2]] in the last turn of its loop. *)
Theorem one_point_tour_out_of_bounds (p : Point) :
  basic_2opt [p] = None /\ geometric_2opt [p] = None.
Proof.
  split.
  - unfold basic_2opt, basic_2opt_passes.
    rewrite while_improving_first;
      [|unfold max_iterations; lia|reflexivity|unfold max_iterations; cbn; lia].
    unfold basic_pass. cbn [run_tour start_run].
    rewrite basic_search_one_point. reflexivity.
  - unfold geometric_2opt, geometric_2opt_passes.
    destruct (build_total empty_tree [p]) as (kd & ->); [reflexivity|].
    rewrite while_improving_first;
      [|unfold max_iterations; lia|reflexivity|unfold max_iterations; cbn; lia].
    unfold geometric_pass. cbn [run_tour start_run].
    rewrite geometric_search_one_point. reflexivity.
Qed.

End OnePoint.

Lemma hybrid_candidates_one_point p neighbors b :
  hybrid_candidates [p] 0 neighbors b = Some b.
Proof.
  unfold hybrid_candidates.
  induction neighbors as [|q neighbors IH]; cbn [for_each]; [reflexivity|].
  cbn [find_if_id]. destruct (id p =? id q); [|exact IH].
  replace (eligible (size [p]) 0 0) with false by reflexivity. exact IH.
Qed.

Lemma approximate_2opt_one_point rand p :
  exists r,
    approximate_2opt rand [p] = Some r /\
    run_tour r = [set_active true p] /\
    num_swaps (run_stats r) = 0 /\ iterations (run_stats r) = 1.
Proof.
  unfold approximate_2opt, approximate_2opt_passes.
  rewrite while_improving_first;
    [|unfold max_iterations; lia|reflexivity|unfold max_iterations; cbn; lia].
  unfold approximate_pass.
  cbn [run_tour run_stats start_run map set_active collect_active active].
  unfold approximate_search.
  change (size [0]) with 1. unfold for_range at 1.
  change (Z.to_nat (1 - 0)) with 1%nat. cbn [for_iter].
  change (at_ [0] 0) with (Some 0). cbv iota beta.
  rewrite for_range_empty by reflexivity.
  cbn [best_gain]. rewrite Rltb_false by lra.
  unfold random_top_up. rewrite for_range_empty by reflexivity.
  rewrite while_improving_stop by reflexivity.
  eexists; split; [reflexivity|]. cbn. repeat split; reflexivity.
Qed.

Lemma reactivate_even_one_point (p : Point) :
  reactivate_even (Z.min 1 (Z.max (wrap (size [0] + 15)) (1 / 4)))
    [set_active false (set_active true p)]
  = Some [set_active true p].
Proof. reflexivity. Qed.

Section OnePointHybrid.
Context `{StdNthElement}.

Lemma hybrid_2opt_one_point p :
  exists r,
    hybrid_2opt [p] = Some r /\
    run_tour r = [set_active true p] /\
    num_swaps (run_stats r) = 0 /\ iterations (run_stats r) = 1.
Proof.
  unfold hybrid_2opt, hybrid_2opt_passes.
  destruct (build_total empty_tree [p]) as (kd & ->); [reflexivity|].
  rewrite while_improving_first;
    [|unfold max_iterations; lia|reflexivity|unfold max_iterations; cbn; lia].
  unfold hybrid_pass.
  cbn [run_tour run_stats run_kdtree start_run map set_active collect_active
       active].
  set (q := set_active true p).
  unfold hybrid_search. cbn [for_each].
  change (size [q]) with 1.
  change (wrap (1 - 2) <=? 0) with false. cbv iota.
  change (at_ [q] 0) with (Some q).
  change (umod (wrap (0 + 1)) 1) with (Some 0). cbv iota beta.
  change (at_ [q] 0) with (Some q).
  cbv iota beta zeta.
  destruct (adaptive_budget_enough (reset_nodes_visited kd) q
              (fmax (distance q q * 4) 0.15) 8)
    as (found & kd' & ->); [apply fmax_ge|].
  rewrite hybrid_candidates_one_point.
  cbn [best_gain]. rewrite Rltb_false by lra.
  subst q. rewrite reactivate_even_one_point.
  rewrite while_improving_stop by reflexivity.
  eexists; split; [reflexivity|]. cbn. repeat split; reflexivity.
Qed.

(** X27. On a tour of one point [approximate_2opt] and [hybrid_2opt] make
    one pass, apply no swap and return the point, marked active. *)
Theorem one_point_tour_returned (rand : Z -> Z -> Z) (p : Point) :
  (exists r,
     approximate_2opt rand [p] = Some r /\
     run_tour r = [set_active true p] /\
     num_swaps (run_stats r) = 0 /\ iterations (run_stats r) = 1) /\
  (exists r,
     hybrid_2opt [p] = Some r /\
     run_tour r = [set_active true p] /\
     num_swaps (run_stats r) = 0 /\ iterations (run_stats r) = 1).
Proof.
  split; [apply approximate_2opt_one_point|apply hybrid_2opt_one_point].
Qed.

End OnePointHybrid.

(** * The generated instances *)

Definition in_unit_square (p : Point) : Prop :=
  (0 <= x p <= 1)%R /\ (0 <= y p <= 1)%R.

Lemma zseq_succ (k : nat) : zseq (S k) = zseq k ++ [Z.of_nat k].
Proof. unfold zseq. rewrite seq_S, map_app. reflexivity. Qed.

(** A loop that appends one point per turn, with the turn as its id. *)
Lemma generate_loop (make : Z -> list Point -> option (list Point)) n
  (P : Point -> Prop) :
  0 <= n < 2 ^ 64 ->
  (forall i points, 0 <= i < n ->
     exists p, make i points = Some (points ++ [p]) /\ id p = i /\ P p) ->
  exists points,
    for_range 0 n make [] = Some points /\
    size points = n /\
    map id points = zseq (Z.to_nat n) /\
    Forall P points.
Proof.
  intros Hn Hmake.
  destruct (for_range_total
    (fun i points =>
       size points = i /\ map id points = zseq (Z.to_nat i) /\ Forall P points)
    make 0 n) with (s := @nil Point) as (points & E & Hs & Hi & Hp).
  - lia.
  - lia.
  - intros i points Hi (Hs & Hids & Hp).
    destruct (Hmake i points Hi) as (p & -> & Ep & HPp).
    eexists; split; [reflexivity|]. split; [|split].
    + rewrite size_app, size_cons. change (size (@nil Point)) with 0. lia.
    + rewrite map_app, Hids. cbn [map]. rewrite Ep.
      replace (Z.to_nat (i + 1)) with (S (Z.to_nat i)) by lia.
      rewrite zseq_succ, Z2Nat.id by lia. reflexivity.
    + apply Forall_app. split; [assumption|]. constructor; [assumption|constructor].
  - split; [reflexivity|]. split; [reflexivity|constructor].
  - exists points. auto.
Qed.

(** X28. [generate_random_points(n)] returns [n] points with the ids 0 to
    [n - 1] in this order, all active, with both coordinates in [0, 1)
    as they come from the distribution. *)
Theorem generate_random_points_ids (dist : Z -> R * R) (n : Z) :
  0 <= n < 2 ^ 64 ->
  (forall i, (0 <= fst (dist i) < 1)%R /\ (0 <= snd (dist i) < 1)%R) ->
  exists points,
    generate_random_points dist n = Some points /\
    size points = n /\
    map id points = zseq (Z.to_nat n) /\
    Forall (fun p => in_unit_square p /\ active p = true) points.
Proof.
  intros Hn Hd. unfold generate_random_points.
  apply generate_loop; [assumption|].
  intros i points Hi. eexists; split; [reflexivity|].
  split; [reflexivity|]. destruct (Hd i) as [Hx Hy].
  split; [split; cbn [x y]; lra|reflexivity].
Qed.

Lemma generate_random_points_ids_witness :
  0 <= 3 < 2 ^ 64 /\
  (forall i : Z, (0 <= fst ((fun _ => (0, 0)%R) i) < 1)%R /\
                 (0 <= snd ((fun _ => (0, 0)%R) i) < 1)%R) /\
  exists points,
    generate_random_points (fun _ => (0, 0)%R) 3 = Some points /\
    size points = 3 /\
    map id points = zseq (Z.to_nat 3) /\
    Forall (fun p => in_unit_square p /\ active p = true) points.
Proof.
  split; [lia|]. split; [intros i; cbn [fst snd]; lra|].
  apply (generate_random_points_ids (fun _ => (0, 0)%R) 3);
    [lia|intros i; cbn [fst snd]; lra].
Defined.

Lemma clamp_unit v : (0 <= fmax 0 (fmin 1 v) <= 1)%R.
Proof.
  unfold fmax, fmin.
  destruct (Rltb_spec v 1).
  - destruct (Rltb_spec 0 v); lra.
  - destruct (Rltb_spec 0 1); lra.
Qed.

Lemma centers_loop (cluster_center : Z -> R * R) k :
  0 <= k < 2 ^ 64 ->
  exists centers,
    for_range 0 k (fun i cluster_centers =>
      Some (cluster_centers ++ [cluster_center i])) [] = Some centers /\
    size centers = k.
Proof.
  intros Hk.
  destruct (for_range_total
    (fun i (centers : list (R * R)) => size centers = i)
    (fun i cluster_centers => Some (cluster_centers ++ [cluster_center i]))
    0 k) with (s := @nil (R * R)) as (centers & E & Hs).
  - lia.
  - lia.
  - intros i centers Hi Hs. eexists; split; [reflexivity|].
    rewrite size_app, size_cons. change (size (@nil (R * R))) with 0. lia.
  - reflexivity.
  - eauto.
Qed.

(** X29. [generate_clustered_points] with at least one cluster returns
    [n] points with the ids 0 to [n - 1], clamped into the unit square;
    with [num_clusters = 0] the vector of centres is empty and the first
    point reads outside it. *)
Theorem generate_clustered_points_clamped (cluster_center : Z -> R * R)
  (cluster_selector : Z -> Z) (cluster_point : Z -> R * R)
  (n num_clusters : Z) :
  0 <= n < 2 ^ 64 -> 0 <= num_clusters < 2 ^ 64 ->
  (forall i, 0 <= cluster_selector i <= wrap (num_clusters - 1)) ->
  (1 <= num_clusters ->
   exists points,
     generate_clustered_points cluster_center cluster_selector cluster_point
       n num_clusters = Some points /\
     size points = n /\
     map id points = zseq (Z.to_nat n) /\
     Forall in_unit_square points) /\
  (num_clusters = 0 -> 1 <= n ->
   generate_clustered_points cluster_center cluster_selector cluster_point
     n num_clusters = None).
Proof.
  intros Hn Hc Hsel. unfold generate_clustered_points. split.
  - intros H1.
    destruct (centers_loop cluster_center num_clusters Hc) as (centers & -> & Hs).
    apply generate_loop; [assumption|].
    intros i points Hi.
    destruct (at_in_range centers (cluster_selector i)) as (c & ->).
    { specialize (Hsel i). rewrite wrap_small in Hsel by lia. lia. }
    eexists; split; [reflexivity|]. split; [reflexivity|].
    split; cbn [x y]; apply clamp_unit.
  - intros -> H1. rewrite for_range_empty by lia.
    apply for_range_fail; [lia|].
    destruct (at_ [] (cluster_selector 0)) eqn:E; [|reflexivity].
    apply at_some in E. change (size (@nil (R * R))) with 0 in E. lia.
Qed.

Lemma generate_clustered_points_clamped_witness :
  0 <= 3 < 2 ^ 64 /\ 0 <= 5 < 2 ^ 64 /\
  (forall i : Z, 0 <= (fun _ => 0) i <= wrap (5 - 1)) /\
  (1 <= 5 ->
   exists points,
     generate_clustered_points (fun _ => (0.5, 0.5)%R) (fun _ => 0)
       (fun _ => (1, -1)%R) 3 5 = Some points /\
     size points = 3 /\
     map id points = zseq (Z.to_nat 3) /\
     Forall in_unit_square points) /\
  (5 = 0 -> 1 <= 3 ->
   generate_clustered_points (fun _ => (0.5, 0.5)%R) (fun _ => 0)
     (fun _ => (1, -1)%R) 3 5 = None).
Proof.
  split; [lia|]. split; [lia|].
  split; [intros i; vm_compute; split; discriminate|].
  apply (generate_clustered_points_clamped (fun _ => (0.5, 0.5)%R)
           (fun _ => 0) (fun _ => (1, -1)%R) 3 5);
    [lia|lia|intros i; vm_compute; split; discriminate].
Defined.

(** * The benchmark on a generated instance *)

Lemma unit_square_distance p q :
  in_unit_square p -> in_unit_square q -> (distance p q <= 2)%R.
Proof.
  intros [Hpx Hpy] [Hqx Hqy]. unfold distance.
  replace 2%R with (sqrt (2 * 2)) by (apply sqrt_square; lra).
  apply sqrt_le_1_alt.
  assert (Hx : ((x p - x q) * (x p - x q) <= 1)%R) by nra.
  assert (Hy : ((y p - y q) * (y p - y q) <= 1)%R) by nra.
  lra.
Qed.

Lemma unit_square_spread (points : list Point) :
  size points < 2 ^ 63 ->
  Forall in_unit_square points ->
  forall p q, In p points -> In q points ->
    (distance p q * IZR (size points) < double_max)%R.
Proof.
  intros Hn Hu p q Hp Hq. rewrite Forall_forall in Hu.
  pose proof (unit_square_distance p q (Hu p Hp) (Hu q Hq)) as Hd.
  pose proof (distance_nonneg p q) as H0.
  assert (Hs : (0 <= IZR (size points) <= IZR (2 ^ 63))%R).
  { split; [apply (IZR_le 0), size_nonneg|apply IZR_le; lia]. }
  assert (Hm : (2 * IZR (2 ^ 63) < double_max)%R).
  { unfold double_max. rewrite <- mult_IZR. apply IZR_lt. reflexivity. }
  assert (Hprod : (distance p q * IZR (size points) <= 2 * IZR (2 ^ 63))%R).
  { apply Rmult_le_compat; lra. }
  lra.
Qed.

Section Benchmark.
Context `{StdNthElement}.

(** X30. The pipeline of [run_complete_benchmark] on a generated instance
    of at least two points: the initial tour of
    [best_nearest_neighbor_tour(points, 10)] passes [is_valid_tour], every
    optimizer returns on it, and the tour it leaves passes [is_valid_tour]
    against the generated points. *)
Theorem benchmark_tours_valid (dist : Z -> R * R) (rand : Z -> Z -> Z)
  (n : Z) (o : Optimizer) :
  2 <= n < 2 ^ 63 ->
  (forall i, (0 <= fst (dist i) < 1)%R /\ (0 <= snd (dist i) < 1)%R) ->
  exists points initial_tour r,
    generate_random_points dist n = Some points /\
    best_nearest_neighbor_tour points 10 = Some initial_tour /\
    is_valid_tour initial_tour points = true /\
    optimize rand o initial_tour = Some r /\
    is_valid_tour (run_tour r) points = true.
Proof.
  intros Hn Hd.
  destruct (generate_loop
    (fun i points =>
       Some (points ++ [mkPoint (fst (dist i)) (snd (dist i)) true i]))
    n in_unit_square) as (points & Eg & Hs & Hids & Hu).
  { lia. }
  { intros i points Hi. eexists; split; [reflexivity|].
    split; [reflexivity|]. destruct (Hd i). split; cbn [x y]; lra. }
  assert (Hne : points <> []).
  { intros ->. change (size (@nil Point)) with 0 in Hs. lia. }
  assert (Hnd : NoDup (map id points)) by (rewrite Hids; apply zseq_NoDup).
  destruct (best_nearest_neighbor_tour_spec points Hne) with (num_starts := 10)
    as (tour & Eb & _ & Hbest).
  { lia. }
  { apply unit_square_spread; [lia|assumption]. }
  { lia. }
  destruct Hbest as (start & _ & _ & Hp & _); [lia|].
  assert (Hsized : sized tour).
  { unfold sized, size in *. rewrite (Permutation_length Hp). lia. }
  destruct (optimize_passes_total rand o (Z.to_nat max_iterations) tour Hsized)
    as (r0 & E0).
  exists points, tour, (finish_run r0).
  split; [exact Eg|]. split; [exact Eb|].
  assert (Ht : Permutation (map triple points) (map triple tour))
    by (apply Permutation_map, Permutation_sym, Hp).
  split; [apply is_valid_tour_perm; assumption|].
  split; [rewrite optimize_finish, E0; reflexivity|].
  cbn [finish_run run_tour].
  apply is_valid_tour_perm; [assumption|].
  rewrite Ht. apply (optimize_passes_perm rand o _ tour r0 E0).
Qed.

End Benchmark.

Lemma benchmark_tours_valid_witness :
  2 <= 2 < 2 ^ 63 /\
  (forall i : Z, (0 <= fst ((fun _ => (0, 0)%R) i) < 1)%R /\
                 (0 <= snd ((fun _ => (0, 0)%R) i) < 1)%R) /\
  exists points initial_tour r,
    generate_random_points (fun _ => (0, 0)%R) 2 = Some points /\
    best_nearest_neighbor_tour points 10 = Some initial_tour /\
    is_valid_tour initial_tour points = true /\
    optimize (fun _ _ => 0) Basic initial_tour = Some r /\
    is_valid_tour (run_tour r) points = true.
Proof.
  split; [lia|]. split; [intros i; cbn [fst snd]; lra|].
  apply (benchmark_tours_valid (fun _ => (0, 0)%R) (fun _ _ => 0) 2 Basic);
    [lia|intros i; cbn [fst snd]; lra].
Defined.
